(** * config-controller: the reconciliation engine of [Manager]

    A shallow embedding of [src/manager.ts]: the pair cache fed by the two
    watches, the reconcile pass [_syncSecrets], the secret materializer
    ([createSecretForConfigMap], [getDecryptionSecret],
    [createSecretWithConfigMapData]) and the trigger [syncSecrets] with its
    two flags; and, around it, [start()] with the two watch registrations and
    [run()] of [src/index.ts] with its two exit handlers.

    Conventions.
    - A JavaScript value that may be [undefined] is an [option].
    - A string is a sequence of UTF-8 bytes.
    - An object used as a string-to-string dictionary (labels, data) is a
      [gmap string string] of its own properties; a property holding
      [undefined] reads like an absent one, so it is left out of the map.
      Such an object has [Object.prototype] behind it.  Where the source
      reads it with a key taken from a label ([data?.[sourceKey]],
      [data?.[keySecretKey]]) the read is [read], which sees the inherited
      members; the labels themselves are read with literal keys, none of
      which names an inherited member, and the keys of [this.cache] hold a
      [/], so these reads are lookups.
    - [this.cache] is enumerated by [for ... in], so its order matters: it is
      an association list in insertion order.  Its keys have the form
      [ns/name]; they are never array indices, hence enumeration order is
      insertion order.
    - The cluster API, the parser of [@signal24/config] and Node's [Buffer]
      are collaborators: they are the fields of the class [Collaborators].
    - Every effect the engine has on the outside (log lines, API calls,
      parser calls) is appended to a trace.
    - An async method is given twice: as a function of the state, which is
      the method when no other callback has a turn while it awaits, and in
      [Async] await by await, which is what the event loop runs. *)

From Stdlib Require Import Ascii NArith.
From stdpp Require Import base option list strings gmap fin_maps.

Set Default Proof Using "Type".


(** ** Kubernetes objects (the fields the engine touches) *)

Record V1ObjectMeta := mkMeta {
  name : option string;
  namespace : option string;
  resourceVersion : option string;
  labels : option (gmap string string)
}.

Record V1ConfigMap := mkConfigMap {
  cm_metadata : option V1ObjectMeta;
  cm_data : option (gmap string string)
}.

Record V1Secret := mkSecret {
  apiVersion : option string;
  kind : option string;
  metadata : option V1ObjectMeta;
  type : option string;
  data : option (gmap string string)
}.

(** The label schema. *)
Definition L_target_secret := "config.s24.dev/target-secret".
Definition L_source_key := "config.s24.dev/source-key".
Definition L_decryption_secret := "config.s24.dev/decryption-secret".
Definition L_decryption_secret_key := "config.s24.dev/decryption-secret-key".
Definition L_source_configmap := "config.s24.dev/source-configmap".
Definition L_source_configmap_version := "config.s24.dev/source-configmap-version".

(** ** Errors and completions *)

Inductive JsError :=
| TypeError                      (* property read on [undefined] *)
| Error (message : string)       (* [throw new Error(message)] *)
| Rejected (reason : string).    (* a collaborator's promise rejected *)

Inductive Completion (A : Type) :=
| Normal (a : A)
| Throw (e : JsError).
Arguments Normal {A} a.
Arguments Throw {A} e.

(** ** Property reads

    [o?.[k]] where [o] is an object that came off the wire ([JSON.parse], the
    client's deserializer) and whose own properties hold strings: the read
    gives the own property when there is one, else the member of
    [Object.prototype] of that name when there is one, else [undefined]. *)

Inductive JsValue :=
| JsString (s : string)
| JsInherited (k : string).     (* [Object.prototype[k]]: a function, or
                                   the prototype itself for [__proto__] *)
Coercion JsString : string >-> JsValue.

Definition prototype_members : list string :=
  ["constructor"; "toString"; "toLocaleString"; "valueOf"; "hasOwnProperty";
   "isPrototypeOf"; "propertyIsEnumerable"; "__proto__"; "__defineGetter__";
   "__defineSetter__"; "__lookupGetter__"; "__lookupSetter__"].

Definition read (o : option (gmap string string)) (k : string) : option JsValue :=
  d ← o;
  match d !! k with
  | Some v => Some (JsString v)
  | None => if bool_decide (k ∈ prototype_members) then Some (JsInherited k) else None
  end.

(** ** The observable trace *)

Inductive Event :=
| LogInfo (msg : string)
| LogError (err : option JsError) (msg : string)
| DeleteSecret (nm ns : option string)
| CreateSecret (ns : option string) (body : V1Secret)
| ReplaceSecret (nm ns : option string) (body : V1Secret)
| ReadSecret (nm : string) (ns : option string)
| ParseEnv (content : JsValue) (key : option string).

Definition is_cluster_call (e : Event) : bool :=
  match e with
  | DeleteSecret _ _ | CreateSecret _ _ | ReplaceSecret _ _ _ | ReadSecret _ _ => true
  | _ => false
  end.

Definition is_create_or_replace (e : Event) : bool :=
  match e with
  | CreateSecret _ _ | ReplaceSecret _ _ _ => true
  | _ => false
  end.

Definition is_error_log (e : Event) : bool :=
  match e with
  | LogError _ _ => true
  | _ => false
  end.

(** ** The pair cache *)

Record CacheEntry := mkEntry {
  secret : option V1Secret;
  configMap : option V1ConfigMap
}.

Definition Cache := list (string * CacheEntry).

Fixpoint cache_get (k : string) (c : Cache) : option CacheEntry :=
  match c with
  | [] => None
  | (k', e) :: c' => if decide (k = k') then Some e else cache_get k c'
  end.

(** [this.cache[k] = e]: an existing property keeps its place, a new one goes
    last. *)
Fixpoint cache_set (k : string) (e : CacheEntry) (c : Cache) : Cache :=
  match c with
  | [] => [(k, e)]
  | (k', e') :: c' =>
      if decide (k = k') then (k, e) :: c' else (k', e') :: cache_set k e c'
  end.

(** [delete this.cache[k]] *)
Fixpoint cache_delete (k : string) (c : Cache) : Cache :=
  match c with
  | [] => []
  | (k', e') :: c' =>
      if decide (k = k') then cache_delete k c' else (k', e') :: cache_delete k c'
  end.

(** ** Collaborators *)

Class Collaborators (W : Type) := {
  deleteNamespacedSecret : option string → option string → W → Completion () * W;
  createNamespacedSecret : option string → V1Secret → W → Completion V1Secret * W;
  replaceNamespacedSecret :
    option string → option string → V1Secret → W → Completion V1Secret * W;
  readNamespacedSecret : string → option string → W → Completion V1Secret * W;
  (* [parseEnvContent(data, key)] of [@signal24/config]; [data] is what the
     property read gave, a string by its declared type only *)
  parseEnvContent : JsValue → option string → Completion (gmap string string);
  (* [Buffer.from(s).toString('base64')] *)
  toBase64 : string → string;
  (* [Buffer.from(s, 'base64').toString('utf-8')] *)
  fromBase64 : string → string
}.

(** ** Engine state *)

Record State (W : Type) := mkState {
  isReady : bool;
  isPendingSync : bool;
  cache : Cache;
  cluster : W;                 (* the world behind [k8sClient.coreV1Api] *)
  trace : list Event;          (* oldest first *)
  timeouts : nat;              (* pending [setTimeout(() => this.syncSecrets(), 0)] *)
  epoch : gmap string nat      (* per key, how many entry objects the watch
                                  callbacks have stored under it so far *)
}.
Arguments mkState {W}.
Arguments epoch {W}.
Arguments isReady {W}.
Arguments isPendingSync {W}.
Arguments cache {W}.
Arguments cluster {W}.
Arguments trace {W}.
Arguments timeouts {W}.

Section Engine.
Context {W : Type} `{!Collaborators W}.

Abbreviation St := (State W).

Definition set_isReady (b : bool) (s : St) : St :=
  mkState b (isPendingSync s) (cache s) (cluster s) (trace s) (timeouts s) (epoch s).
Definition set_isPendingSync (b : bool) (s : St) : St :=
  mkState (isReady s) b (cache s) (cluster s) (trace s) (timeouts s) (epoch s).
Definition set_cache (c : Cache) (s : St) : St :=
  mkState (isReady s) (isPendingSync s) c (cluster s) (trace s) (timeouts s) (epoch s).
Definition set_cluster (w : W) (s : St) : St :=
  mkState (isReady s) (isPendingSync s) (cache s) w (trace s) (timeouts s) (epoch s).
Definition emit (e : Event) (s : St) : St :=
  mkState (isReady s) (isPendingSync s) (cache s) (cluster s) (trace s ++ [e]) (timeouts s) (epoch s).
Definition set_timeouts (n : nat) (s : St) : St :=
  mkState (isReady s) (isPendingSync s) (cache s) (cluster s) (trace s) n (epoch s).
Definition set_epoch (ep : gmap string nat) (s : St) : St :=
  mkState (isReady s) (isPendingSync s) (cache s) (cluster s) (trace s) (timeouts s) ep.

(** [this.cache[k]] is an object.  The watch callbacks store a new object
    under the key each time (lines 41-44, 67-70); the pass mutates the object
    it has got hold of (lines 126, 133).  Whether the key still holds that
    object is told by the number of objects stored under the key so far. *)
Definition generation (k : string) (s : St) : nat := default 0 (epoch s !! k).

(** [this.cache[k] = { ... }] *)
Definition store_object (k : string) (e : CacheEntry) (s : St) : St :=
  set_epoch (<[k := S (generation k s)]> (epoch s)) (set_cache (cache_set k e (cache s)) s).

(** *** The monad of the async methods: state, and a completion *)

Definition M (A : Type) := St → Completion A * St.

Definition ret {A} (a : A) : M A := λ s, (Normal a, s).
Definition throw {A} (e : JsError) : M A := λ s, (Throw e, s).
Definition bind {A B} (m : M A) (f : A → M B) : M B :=
  λ s, match m s with
       | (Normal a, s') => f a s'
       | (Throw e, s') => (Throw e, s')
       end.
Definition try_catch {A} (m : M A) (h : JsError → M A) : M A :=
  λ s, match m s with
       | (Normal a, s') => (Normal a, s')
       | (Throw e, s') => h e s'
       end.
Definition modify (f : St → St) : M () := λ s, (Normal (), f s).

#[global] Instance M_ret : MRet M := @ret.
#[global] Instance M_bind : MBind M := λ A B f m, bind m f.

(** [o!.f]: reading a property of [undefined] throws. *)
Definition deref {A} (o : option A) : M A :=
  match o with
  | Some a => ret a
  | None => throw TypeError
  end.

(** [!o] for a value that is an object or [undefined] *)
Definition absent {A} (o : option A) : bool :=
  match o with
  | Some _ => false
  | None => true
  end.

(** [`${o}`] *)
Definition show (o : option string) : string := default "undefined" o.

Definition logInfo (msg : string) : M () := modify (emit (LogInfo msg)).
Definition logError (err : option JsError) (msg : string) : M () :=
  modify (emit (LogError err msg)).

(** *** Awaited collaborator calls *)

Definition awaitDelete (nm ns : option string) : M () :=
  λ s, let '(r, w) := deleteNamespacedSecret nm ns (cluster s) in
       (r, set_cluster w (emit (DeleteSecret nm ns) s)).
Definition awaitCreate (ns : option string) (body : V1Secret) : M V1Secret :=
  λ s, let '(r, w) := createNamespacedSecret ns body (cluster s) in
       (r, set_cluster w (emit (CreateSecret ns body) s)).
Definition awaitReplace (nm ns : option string) (body : V1Secret) : M V1Secret :=
  λ s, let '(r, w) := replaceNamespacedSecret nm ns body (cluster s) in
       (r, set_cluster w (emit (ReplaceSecret nm ns body) s)).
Definition awaitRead (nm : string) (ns : option string) : M V1Secret :=
  λ s, let '(r, w) := readNamespacedSecret nm ns (cluster s) in
       (r, set_cluster w (emit (ReadSecret nm ns) s)).
Definition awaitParse (content : JsValue) (key : option string) : M (gmap string string) :=
  λ s, (parseEnvContent content key, emit (ParseEnv content key) s).

(** *** Secret materializer *)

(** An object literal [{k1: v1, k2: v2}] whose values may be [undefined]:
    properties are defined from left to right. *)
Definition object_literal (props : list (string * option string)) : gmap string string :=
  fold_left (λ acc p, match p.2 with
                      | Some v => <[p.1 := v]> acc
                      | None => delete p.1 acc
                      end) props ∅.

(** [configMap.metadata?.labels?.[l]] *)
Definition cm_label (cm : V1ConfigMap) (l : string) : option string :=
  m ← cm_metadata cm; ls ← labels m; ls !! l.

Definition sourceKey_of (cm : V1ConfigMap) : string :=
  default ".env" (cm_label cm L_source_key).
Definition keySecretKey_of (cm : V1ConfigMap) : string :=
  default "CONFIG_DECRYPTION_KEY" (cm_label cm L_decryption_secret_key).

(** The two [Error]s the materializer throws itself. *)
Definition MissingSourceKey (cm : V1ConfigMap) : JsError :=
  Error ("Key " +:+ sourceKey_of cm +:+ " not found in ConfigMap "
         +:+ show (m ← cm_metadata cm; name m)).
Definition MissingDecryptionKey (keySecretName keySecretKey : string) : JsError :=
  Error ("Key " +:+ keySecretKey +:+ " not found in secret " +:+ keySecretName).

(** A string is truthy unless it is empty. *)
Definition truthy (s : string) : bool := negb (bool_decide (s = "")).

Definition getDecryptionSecret (sourceNs : option string)
    (keySecretName keySecretKey : string) : M string :=
  let '(secretNs, secretName) := (sourceNs, keySecretName) in
  sec ← awaitRead secretName secretNs;
  match read (data sec) keySecretKey with
  | None => throw (MissingDecryptionKey keySecretName keySecretKey)
  | Some (JsString v) => mret (fromBase64 v)
  | Some (JsInherited _) => throw TypeError   (* [Buffer.from] of what is no string *)
  end.

Definition extractConfigFromEncryptedEnv (content : JsValue)
    (decryptionSecret : option string) : M (gmap string string) :=
  awaitParse content decryptionSecret.

(** The object built at lines 183-200, before it is sent. *)
Definition buildSecret (m : V1ObjectMeta) (nm : option string)
    (payload : gmap string string) : V1Secret :=
  {| apiVersion := Some "v1";
     kind := Some "Secret";
     metadata := Some {| name := nm;
                         namespace := namespace m;
                         resourceVersion := None;
                         labels := Some (object_literal
                           [(L_source_configmap, name m);
                            (L_source_configmap_version, resourceVersion m)]) |};
     type := Some "Opaque";
     (* data: {}; for (const key in data) secret.data[key] = base64 of data[key] *)
     data := Some (map_fold (λ key v acc, <[key := toBase64 v]> acc) ∅ payload) |}.

Definition createSecretWithConfigMapData (cm : V1ConfigMap) (nm : option string)
    (payload : gmap string string) (existingSecret : option V1Secret) : M V1Secret :=
  m ← deref (cm_metadata cm);
  let sec := buildSecret m nm payload in
  (* secret.metadata.name is [nm], secret.metadata.namespace is [namespace m] *)
  match existingSecret with
  | Some _ => awaitReplace nm (namespace m) sec
  | None => awaitCreate (namespace m) sec
  end.

Definition createSecretForConfigMap (cm : V1ConfigMap)
    (existingSecret : option V1Secret) : M V1Secret :=
  let sourceKey := sourceKey_of cm in
  match read (cm_data cm) sourceKey with
  | None => throw (MissingSourceKey cm)
  | Some sourceData =>
      let keySecretName := cm_label cm L_decryption_secret in
      let keySecretKey := keySecretKey_of cm in
      decryptionSecret ←
        match keySecretName with
        | Some ksn =>
            if truthy ksn
            then m ← deref (cm_metadata cm);
                 k ← getDecryptionSecret (namespace m) ksn keySecretKey;
                 mret (Some k)
            else mret None
        | None => mret None
        end;
      m ← deref (cm_metadata cm);
      ls ← deref (labels m);
      let targetSecret := ls !! L_target_secret in
      secretData ← extractConfigFromEncryptedEnv sourceData decryptionSecret;
      createSecretWithConfigMapData cm targetSecret secretData existingSecret
  end.

(** *** Reconciler *)

(** The left-hand side of [this.cache[k].secret = await ...], evaluated
    before the right-hand side: the entry object now under [k]. *)
Definition bound (k : string) : M nat := λ st, (Normal (generation k st), st).

(** [o.secret = s], where [o] is the entry object that was under [k] at
    generation [o]: the cache shows the write if the key still holds that
    object; otherwise the object has been replaced and the write is lost. *)
Definition cache_set_secret (k : string) (o : nat) (s : V1Secret) : M () :=
  modify (λ st,
    match cache_get k (cache st) with
    | Some e =>
        if bool_decide (generation k st = o)
        then set_cache (cache_set k (mkEntry (Some s) (configMap e)) (cache st)) st
        else st
    | None => st
    end).

(** The calls [createSecretForConfigMap(configMap!)]: with [configMap]
    undefined the callee throws on its first property read. *)
Definition materialize (configMap : option V1ConfigMap)
    (existingSecret : option V1Secret) : M V1Secret :=
  cm ← deref configMap; createSecretForConfigMap cm existingSecret.

(** One iteration of the loop of [_syncSecrets], lines 106-137. *)
Definition syncEntry (secretName : string) : M () :=
  e ← (λ st, deref (cache_get secretName (cache st)) st);
  let '(mkEntry secret configMap) := e in
  if absent secret && absent configMap then
    modify (λ st, set_cache (cache_delete secretName (cache st)) st)   (* continue *)
  else
    (if absent configMap then
       logInfo ("ConfigMap for " +:+ secretName +:+ " not found. Deleting secret.");;
       try_catch
         (s ← deref secret; m ← deref (metadata s);
          awaitDelete (name m) (namespace m);;
          modify (λ st, set_cache (cache_delete secretName (cache st)) st))
         (λ err, logError (Some err) ("Failed to delete secret " +:+ secretName))
     else mret ());;
    match secret with
    | None =>
        logInfo ("Secret for " +:+ secretName +:+ " does not exist. Creating secret.");;
        try_catch
          (o ← bound secretName;
           s ← materialize configMap None; cache_set_secret secretName o s)
          (λ err, logError (Some err) ("Failed to create secret " +:+ secretName))
    | Some sec =>
        sm ← deref (metadata sec);
        sl ← deref (labels sm);
        cm ← deref configMap;
        cmm ← deref (cm_metadata cm);
        if negb (bool_decide (sl !! L_source_configmap_version = resourceVersion cmm)) then
          logInfo ("ConfigMap for " +:+ secretName +:+ " updated. Updating secret.");;
          try_catch
            (o ← bound secretName;
             s ← materialize configMap (Some sec); cache_set_secret secretName o s)
            (λ err, logError (Some err) ("Failed to update secret " +:+ secretName))
        else mret ()
    end.

(** [for (const secretName in this.cache)]: the keys are enumerated when the
    loop starts; a key deleted before it is reached is skipped. *)
Fixpoint for_in (keys : list string) (body : string → M ()) : M () :=
  match keys with
  | [] => mret ()
  | k :: ks =>
      (λ st, match cache_get k (cache st) with
             | Some _ => body k st
             | None => (Normal (), st)
             end);;
      for_in ks body
  end.

Definition _syncSecrets : M () :=
  λ st, for_in (cache st).*1 syncEntry st.

(** *** Sync scheduler *)

(** [syncSecrets()], lines 83-89: the flag is [true] when the call goes on to
    start a pass. *)
Definition syncSecrets_enter (st : St) : bool * St :=
  if negb (isReady st) then (false, set_isPendingSync true st)
  else (true, set_isPendingSync false (set_isReady false st)).

(** The handlers chained on the promise of the pass, lines 92-101. *)
Definition syncSecrets_settle (r : Completion ()) (st : St) : St :=
  let st1 := match r with
             | Normal _ => emit (LogInfo "Secrets synced") st
             | Throw err => emit (LogError (Some err) "Failed to sync secrets") st
             end in
  let st2 := set_isReady true st1 in
  if isPendingSync st2 then set_timeouts (S (timeouts st2)) st2 else st2.

(** A call of [syncSecrets()] during which nothing else runs. *)
Definition syncSecrets (st : St) : St :=
  match syncSecrets_enter st with
  | (false, st') => st'
  | (true, st') => let '(r, st'') := _syncSecrets st' in syncSecrets_settle r st''
  end.

(** *** Watch callbacks *)

Inductive WatchType := ADDED | MODIFIED | DELETED.

Definition show_type (t : WatchType) : string :=
  match t with
  | ADDED => "ADDED"
  | MODIFIED => "MODIFIED"
  | DELETED => "DELETED"
  end.

(** [`${ns}/${nm}`] *)
Definition pairKey (ns nm : option string) : string := show ns +:+ "/" +:+ show nm.

(** [{ ...this.cache[k] }] *)
Definition spread (k : string) (c : Cache) : CacheEntry :=
  default (mkEntry None None) (cache_get k c).

(** The callback of the ConfigMap watch, lines 37-45: all of it but its last
    statement, the call of [syncSecrets()], which [step] adds. *)
Definition onConfigMap (t : WatchType) (cm : V1ConfigMap) : M () :=
  logInfo ("ConfigMap " +:+ show (m ← cm_metadata cm; name m) +:+ " " +:+ show_type t);;
  let secretName := pairKey (m ← cm_metadata cm; namespace m) (cm_label cm L_target_secret) in
  modify (λ st,
    let e := spread secretName (cache st) in
    match t with
    | DELETED => store_object secretName (mkEntry (secret e) None) st
    | _ => store_object secretName (mkEntry (secret e) (Some cm)) st
    end).

(** The callback of the Secret watch, lines 63-71: all of it but its last
    statement, the call of [syncSecrets()], which [step] adds. *)
Definition onSecret (t : WatchType) (sec : V1Secret) : M () :=
  m ← deref (metadata sec);
  logInfo ("Secret " +:+ show (name m) +:+ " " +:+ show_type t);;
  let secretName := pairKey (namespace m) (name m) in
  modify (λ st,
    let e := spread secretName (cache st) in
    match t with
    | DELETED => store_object secretName (mkEntry None (configMap e)) st
    | _ => store_object secretName (mkEntry (Some sec) (configMap e)) st
    end).

End Engine.

Arguments M W A : clear implicits.

(** ** The methods, await by await

    The definitions above give a method as it runs when nothing else happens
    while it awaits.  Node gives other callbacks a turn while a method awaits
    a call to the cluster or the promise of the parser: the watch callbacks,
    the interval, the timers.  [Async] has the same methods with these awaits
    marked: a method runs up to such an await, leaves the state to the other
    callbacks, and goes on from the state it finds when the answer has come.
    The awaits on the promises of the Manager's own async methods give no
    other callback a turn of their own: their continuations are microtasks of
    the turn that settled the promise.  [uninterrupted] gives back the
    definitions above. *)

Module Async.
Section Methods.
Context {W : Type} `{!Collaborators W}.
Abbreviation St := (State W).

Inductive Res (A : Type) :=
| Fin (r : Completion A) (s : St)
| Susp (s : St) (k : St → Res A).
Arguments Fin {A} r s.
Arguments Susp {A} s k.

Definition T (A : Type) := St → Res A.

Definition ret {A} (a : A) : T A := λ s, Fin (Normal a) s.
Definition throw {A} (e : JsError) : T A := λ s, Fin (Throw e) s.

Fixpoint bind_res {A B} (x : Res A) (f : A → T B) : Res B :=
  match x with
  | Fin (Normal a) s => f a s
  | Fin (Throw e) s => Fin (Throw e) s
  | Susp s k => Susp s (λ s', bind_res (k s') f)
  end.
Definition bind {A B} (m : T A) (f : A → T B) : T B := λ s, bind_res (m s) f.

Fixpoint catch_res {A} (x : Res A) (h : JsError → T A) : Res A :=
  match x with
  | Fin (Normal a) s => Fin (Normal a) s
  | Fin (Throw e) s => h e s
  | Susp s k => Susp s (λ s', catch_res (k s') h)
  end.
Definition try_catch {A} (m : T A) (h : JsError → T A) : T A := λ s, catch_res (m s) h.

#[global] Instance T_ret : MRet T := @ret.
#[global] Instance T_bind : MBind T := λ A B f m, bind m f.

(** A stretch without an await. *)
Definition lift {A} (m : M W A) : T A := λ s, let '(r, s') := m s in Fin r s'.

(** A call to the cluster or to the parser, awaited: the call is made, the
    other callbacks have their turn, and the method goes on with the
    answer. *)
Definition await {A} (m : M W A) : T A := λ s, let '(r, s') := m s in Susp s' (Fin r).

Definition deref {A} (o : option A) : T A := lift (deref o).
Definition modify (f : St → St) : T () := lift (modify f).
Definition logInfo (msg : string) : T () := lift (logInfo msg).
Definition logError (err : option JsError) (msg : string) : T () := lift (logError err msg).
Definition bound (k : string) : T nat := lift (bound k).
Definition cache_set_secret (k : string) (o : nat) (s : V1Secret) : T () :=
  lift (cache_set_secret k o s).
Definition awaitDelete (nm ns : option string) : T () := await (awaitDelete nm ns).
Definition awaitCreate (ns : option string) (body : V1Secret) : T V1Secret :=
  await (awaitCreate ns body).
Definition awaitReplace (nm ns : option string) (body : V1Secret) : T V1Secret :=
  await (awaitReplace nm ns body).
Definition awaitRead (nm : string) (ns : option string) : T V1Secret :=
  await (awaitRead nm ns).
Definition awaitParse (content : JsValue) (key : option string) : T (gmap string string) :=
  await (awaitParse content key).

Definition getDecryptionSecret (sourceNs : option string)
    (keySecretName keySecretKey : string) : T string :=
  let '(secretNs, secretName) := (sourceNs, keySecretName) in
  sec ← awaitRead secretName secretNs;
  match read (data sec) keySecretKey with
  | None => throw (MissingDecryptionKey keySecretName keySecretKey)
  | Some (JsString v) => mret (fromBase64 v)
  | Some (JsInherited _) => throw TypeError
  end.

Definition extractConfigFromEncryptedEnv (content : JsValue)
    (decryptionSecret : option string) : T (gmap string string) :=
  awaitParse content decryptionSecret.

Definition createSecretWithConfigMapData (cm : V1ConfigMap) (nm : option string)
    (payload : gmap string string) (existingSecret : option V1Secret) : T V1Secret :=
  m ← deref (cm_metadata cm);
  let sec := buildSecret m nm payload in
  match existingSecret with
  | Some _ => awaitReplace nm (namespace m) sec
  | None => awaitCreate (namespace m) sec
  end.

Definition createSecretForConfigMap (cm : V1ConfigMap)
    (existingSecret : option V1Secret) : T V1Secret :=
  let sourceKey := sourceKey_of cm in
  match read (cm_data cm) sourceKey with
  | None => throw (MissingSourceKey cm)
  | Some sourceData =>
      let keySecretName := cm_label cm L_decryption_secret in
      let keySecretKey := keySecretKey_of cm in
      decryptionSecret ←
        match keySecretName with
        | Some ksn =>
            if truthy ksn
            then m ← deref (cm_metadata cm);
                 k ← getDecryptionSecret (namespace m) ksn keySecretKey;
                 mret (Some k)
            else mret None
        | None => mret None
        end;
      m ← deref (cm_metadata cm);
      ls ← deref (labels m);
      let targetSecret := ls !! L_target_secret in
      secretData ← extractConfigFromEncryptedEnv sourceData decryptionSecret;
      createSecretWithConfigMapData cm targetSecret secretData existingSecret
  end.

Definition materialize (configMap : option V1ConfigMap)
    (existingSecret : option V1Secret) : T V1Secret :=
  cm ← deref configMap; createSecretForConfigMap cm existingSecret.

Definition syncEntry (secretName : string) : T () :=
  e ← (λ st, deref (cache_get secretName (cache st)) st);
  let '(mkEntry secret configMap) := e in
  if absent secret && absent configMap then
    modify (λ st, set_cache (cache_delete secretName (cache st)) st)   (* continue *)
  else
    (if absent configMap then
       logInfo ("ConfigMap for " +:+ secretName +:+ " not found. Deleting secret.");;
       try_catch
         (s ← deref secret; m ← deref (metadata s);
          awaitDelete (name m) (namespace m);;
          modify (λ st, set_cache (cache_delete secretName (cache st)) st))
         (λ err, logError (Some err) ("Failed to delete secret " +:+ secretName))
     else mret ());;
    match secret with
    | None =>
        logInfo ("Secret for " +:+ secretName +:+ " does not exist. Creating secret.");;
        try_catch
          (o ← bound secretName;
           s ← materialize configMap None; cache_set_secret secretName o s)
          (λ err, logError (Some err) ("Failed to create secret " +:+ secretName))
    | Some sec =>
        sm ← deref (metadata sec);
        sl ← deref (labels sm);
        cm ← deref configMap;
        cmm ← deref (cm_metadata cm);
        if negb (bool_decide (sl !! L_source_configmap_version = resourceVersion cmm)) then
          logInfo ("ConfigMap for " +:+ secretName +:+ " updated. Updating secret.");;
          try_catch
            (o ← bound secretName;
             s ← materialize configMap (Some sec); cache_set_secret secretName o s)
            (λ err, logError (Some err) ("Failed to update secret " +:+ secretName))
        else mret ()
    end.

Fixpoint for_in (keys : list string) (body : string → T ()) : T () :=
  match keys with
  | [] => mret ()
  | k :: ks =>
      (λ st, match cache_get k (cache st) with
             | Some _ => body k st
             | None => Fin (Normal ()) st
             end);;
      for_in ks body
  end.

Definition _syncSecrets : T () :=
  λ st, for_in (cache st).*1 syncEntry st.

(** The state a method has left. *)
Definition state_of {A} (x : Res A) : St :=
  match x with
  | Fin _ s | Susp s _ => s
  end.

(** The answers arrive with no other callback in between. *)
Fixpoint run {A} (x : Res A) : Completion A * St :=
  match x with
  | Fin r s => (r, s)
  | Susp s k => run (k s)
  end.
Definition uninterrupted {A} (t : T A) : M W A := λ s, run (t s).

(** The answers arrive one by one, and before each the other callbacks have
    their turn: at the first await those that make up the head of [others],
    and so on.  A method that awaits more often than the list is long finds
    the state as it left it.  What is left of the list is returned. *)
Fixpoint run_with {A} (others : list (St → St)) (x : Res A)
  : Completion A * St * list (St → St) :=
  match x with
  | Fin r s => (r, s, others)
  | Susp s k =>
      match others with
      | [] => run_with [] (k s)
      | f :: fs => run_with fs (k (f s))
      end
  end.

End Methods.

Arguments Res W A : clear implicits.
Arguments T W A : clear implicits.
Arguments Fin {W A} r s.
Arguments Susp {W A} s k.

End Async.

(** ** The event loop

    Between two callbacks nothing runs.  A pass that has been started and
    whose handlers ([then]/[catch]/[finally]) have not run yet is in flight:
    it is at an await on the cluster or on the parser, or it has run to its
    end.
    The handlers are microtasks of the turn in which the pass ends; the loop
    lets them run later as well, which only adds behaviours. *)

Section EventLoop.
Context {W : Type} `{!Collaborators W}.
Abbreviation St := (State W).

Inductive Pass :=
| Finished (r : Completion ())            (* run to its end *)
| Awaiting (k : St → Async.Res W ()).     (* at an await on the cluster or the parser *)

Definition park (x : Async.Res W ()) : Pass * St :=
  match x with
  | Async.Fin r s => (Finished r, s)
  | Async.Susp s k => (Awaiting k, s)
  end.

(** The pass goes on from [s] to its end, no other callback having a turn. *)
Definition finish (p : Pass) (s : St) : Completion () * St :=
  match p with
  | Finished r => (r, s)
  | Awaiting k => Async.run (k s)
  end.

Record Loop := mkLoop {
  st : St;
  inflight : list Pass;              (* passes started, handlers not yet run *)
  passes : nat;                      (* number of passes started so far *)
  booted : bool                      (* [start()] has reached line 24 *)
}.

Inductive Label :=
| Call                                        (* [syncSecrets()]: interval tick or direct call *)
| Boot                                        (* lines 24-25 of [start()] *)
| ConfigMapEvent (t : WatchType) (cm : V1ConfigMap)   (* the callback of lines 37-47 *)
| SecretEvent (t : WatchType) (sec : V1Secret)        (* the callback of lines 63-73 *)
| Answer                                      (* the call that the pass in flight awaits is
                                                 answered: the pass runs on to its next
                                                 such await, or to its end *)
| Settle                                      (* the answers the pass in flight still awaits
                                                 come with no other callback in between,
                                                 and its handlers run *)
| Timeout.                                    (* a zero-delay timer fires *)

(** [this.syncSecrets()] from inside a callback: a pass that starts runs up
    to its first await on the cluster or on the parser. *)
Definition call_syncSecrets (l : Loop) : Loop :=
  match syncSecrets_enter (st l) with
  | (false, st') => mkLoop st' (inflight l) (passes l) (booted l)
  | (true, st') =>
      let '(p, st'') := park (Async._syncSecrets st') in
      mkLoop st'' (inflight l ++ [p]) (S (passes l)) (booted l)
  end.

Definition with_st (f : St → St) (l : Loop) : Loop :=
  mkLoop (f (st l)) (inflight l) (passes l) (booted l).

Definition step (a : Label) (l : Loop) : Loop :=
  match a with
  | Call => call_syncSecrets l
  | Boot =>
      if booted l then l
      else call_syncSecrets (mkLoop (set_isReady true (st l)) (inflight l) (passes l) true)
  | ConfigMapEvent t cm =>
      match onConfigMap t cm (st l) with
      | (Normal _, st') => call_syncSecrets (with_st (λ _, st') l)
      | (Throw _, st') => with_st (λ _, st') l
      end
  | SecretEvent t sec =>
      match onSecret t sec (st l) with
      | (Normal _, st') => call_syncSecrets (with_st (λ _, st') l)
      | (Throw _, st') => with_st (λ _, st') l
      end
  | Answer =>
      match inflight l with
      | Awaiting k :: rs =>
          let '(p, st') := park (k (st l)) in mkLoop st' (p :: rs) (passes l) (booted l)
      | _ => l
      end
  | Settle =>
      match inflight l with
      | [] => l
      | p :: rs =>
          let '(r, st') := finish p (st l) in
          mkLoop (syncSecrets_settle r st') rs (passes l) (booted l)
      end
  | Timeout =>
      match timeouts (st l) with
      | 0 => l
      | S n => call_syncSecrets (with_st (set_timeouts n) l)
      end
  end.

Definition exec (evs : list Label) (l : Loop) : Loop := foldl (λ l a, step a l) l evs.

(** The fields of a fresh [Manager], lines 10-12. *)
Definition new_Manager (w : W) : St := mkState false true [] w [] 0 ∅.
Definition new_Loop (w : W) : Loop := mkLoop (new_Manager w) [] 0 false.

End EventLoop.

Arguments Loop W : clear implicits.
Arguments Pass W : clear implicits.

(** ** Vocabulary of the statements *)

Section Vocabulary.
Context {W : Type} `{!Collaborators W}.
Implicit Types (st : State W) (cm : V1ConfigMap) (sec : V1Secret) (k : string).

(** What a method may change besides the cluster: nothing but the trace,
    which only grows. *)
Definition extends (st st' : State W) (evs : list Event) : Prop :=
  isReady st' = isReady st ∧ isPendingSync st' = isPendingSync st ∧
  cache st' = cache st ∧ timeouts st' = timeouts st ∧
  trace st' = trace st ++ evs.

(** The body of a write call. *)
Definition sent (e : Event) : option V1Secret :=
  match e with
  | CreateSecret _ b | ReplaceSecret _ _ b => Some b
  | _ => None
  end.

(** The initializer of [decryptionSecret], lines 150-152, on its own. *)
Definition decryptionSecret_init cm : M W (option string) :=
  match cm_label cm L_decryption_secret with
  | Some ksn =>
      if truthy ksn
      then m ← deref (cm_metadata cm);
           k ← getDecryptionSecret (namespace m) ksn (keySecretKey_of cm);
           mret (Some k)
      else mret None
  | None => mret None
  end.

(** The rest of [createSecretForConfigMap], lines 154-157, once the key is
    resolved. *)
Definition materialize_with cm (ex : option V1Secret) (sourceData : JsValue)
    (decryptionSecret : option string) : M W V1Secret :=
  m ← deref (cm_metadata cm);
  ls ← deref (labels m);
  secretData ← awaitParse sourceData decryptionSecret;
  createSecretWithConfigMapData cm (ls !! L_target_secret) secretData ex.

(** Events a materialization may emit. *)
Definition permitted (ex : option V1Secret) (e : Event) : Prop :=
  match e with
  | ReadSecret _ _ | ParseEnv _ _ => True
  | ReplaceSecret _ _ _ => is_Some ex
  | CreateSecret _ _ => ex = None
  | _ => False
  end.

(** [delete this.cache[k]] as a change of state. *)
Definition drop_entry k st : State W := set_cache (cache_delete k (cache st)) st.

(** The state an orphan leaves behind. *)
Definition after_orphan k sec st : State W :=
  let st0 := emit (LogInfo ("ConfigMap for " +:+ k +:+ " not found. Deleting secret.")) st in
  let failed e s := emit (LogError (Some e) ("Failed to delete secret " +:+ k)) s in
  match metadata sec with
  | None => failed TypeError st0
  | Some m =>
      let st1 w := set_cluster w (emit (DeleteSecret (name m) (namespace m)) st0) in
      match deleteNamespacedSecret (name m) (namespace m) (cluster st) with
      | (Normal _, w) => drop_entry k (st1 w)
      | (Throw e, w) => failed e (st1 w)
      end
  end.

(** The pass starts at an orphan whose delete the cluster refuses, leaving
    the cluster as it was. *)
Definition blocked_by k (orphan : V1Secret) st : Prop :=
  ∃ m err rest,
    cache st = (k, mkEntry (Some orphan) None) :: rest ∧ metadata orphan = Some m ∧
    deleteNamespacedSecret (name m) (namespace m) (cluster st) = (Throw err, cluster st).

(** What the create and the update branch do with the outcome of the
    materialization. *)
Definition store_or_log k cm (what : string) (out : Completion V1Secret * State W)
  : Completion () * State W :=
  match out with
  | (Normal s, st') =>
      (Normal (), set_cache (cache_set k (mkEntry (Some s) (Some cm)) (cache st')) st')
  | (Throw e, st') =>
      (Normal (), emit (LogError (Some e) ("Failed to " +:+ what +:+ " secret " +:+ k)) st')
  end.

(** The flags and timers of the scheduler are not touched. *)
Definition same_flags st st' : Prop :=
  isReady st' = isReady st ∧ isPendingSync st' = isPendingSync st ∧
  timeouts st' = timeouts st.

(** The write call of a materialization. *)
Definition write_call (ex : option V1Secret) (nm ns : option string) (built : V1Secret) : Event :=
  match ex with
  | Some _ => ReplaceSecret nm ns built
  | None => CreateSecret ns built
  end.

Definition secret_name sec : option string := m ← metadata sec; name m.
Definition secret_namespace sec : option string := m ← metadata sec; namespace m.
Definition secret_labels sec : option (gmap string string) := m ← metadata sec; labels m.
Definition version_label sec : option string :=
  ls ← secret_labels sec; ls !! L_source_configmap_version.
Definition cm_name cm : option string := m ← cm_metadata cm; name m.
Definition cm_namespace cm : option string := m ← cm_metadata cm; namespace m.
Definition cm_version cm : option string := m ← cm_metadata cm; resourceVersion m.

Definition parse_calls (evs : list Event) : list (JsValue * option string) :=
  omap (λ e, match e with ParseEnv c key => Some (c, key) | _ => None end) evs.
Definition read_calls (evs : list Event) : list (string * option string) :=
  omap (λ e, match e with ReadSecret nm ns => Some (nm, ns) | _ => None end) evs.

(** The entry is in step with its ConfigMap. *)
Definition converged (e : CacheEntry) : Prop :=
  ∃ sec cm sl cmm, e = mkEntry (Some sec) (Some cm) ∧
    secret_labels sec = Some sl ∧ cm_metadata cm = Some cmm ∧
    sl !! L_source_configmap_version = resourceVersion cmm.

(** The Secret was made from another version of the ConfigMap. *)
Definition stale sec cm : Prop :=
  ∃ sl cmm, secret_labels sec = Some sl ∧ cm_metadata cm = Some cmm ∧
    sl !! L_source_configmap_version ≠ resourceVersion cmm.

(** No [/] in a name. *)
Fixpoint no_slash (s : string) : bool :=
  match s with
  | EmptyString => true
  | String c s' => negb (bool_decide (c = "/"%char)) && no_slash s'
  end.

(** Both halves name the same Secret, as they do when the watch callbacks
    filed them under one key. *)
Definition same_identity sec cm : Prop :=
  secret_name sec = cm_label cm L_target_secret ∧
  secret_namespace sec = cm_namespace cm.

Definition is_create (e : Event) : bool :=
  match e with
  | CreateSecret _ _ => true
  | _ => false
  end.

Definition is_read (e : Event) : bool :=
  match e with
  | ReadSecret _ _ => true
  | _ => false
  end.

(** *** The event loop *)

Implicit Types (l : Loop W) (a : Label).

Definition is_info (e : Event) : bool :=
  match e with
  | LogInfo _ => true
  | _ => false
  end.

Definition is_trigger a : bool :=
  match a with
  | Call | ConfigMapEvent _ _ | SecretEvent _ _ => true
  | _ => false
  end.

(** A pass is under way. *)
Definition busy l : Prop :=
  booted l = true ∧ isReady (st l) = false ∧ ∃ r, inflight l = [r].

(** Nothing is under way and nothing is scheduled. *)
Definition quiet l : Prop :=
  isReady (st l) = true ∧ isPendingSync (st l) = false ∧
  inflight l = [] ∧ timeouts (st l) = 0.

(** [start()] has not reached line 24 yet. *)
Definition pre_boot (w : W) l : Prop :=
  booted l = false ∧ isReady (st l) = false ∧ isPendingSync (st l) = true ∧
  passes l = 0 ∧ inflight l = [] ∧ timeouts (st l) = 0 ∧
  cluster (st l) = w ∧ forallb is_info (trace (st l)) = true.

(** *** Methods at their awaits *)

(** Whatever the state it is resumed in, the method leaves the flags and the
    timers of the scheduler as it finds them. *)
Fixpoint res_safe {A} (x : Async.Res W A) : Prop :=
  match x with
  | Async.Fin _ _ => True
  | Async.Susp _ k => ∀ s, same_flags s (Async.state_of (k s)) ∧ res_safe (k s)
  end.

Definition res_ok {A} (s0 : State W) (x : Async.Res W A) : Prop :=
  same_flags s0 (Async.state_of x) ∧ res_safe x.

Definition task_safe {A} (t : Async.T W A) : Prop := ∀ s, res_ok s (t s).

Definition pass_safe (p : Pass W) : Prop :=
  match p with
  | Finished _ => True
  | Awaiting k => task_safe k
  end.

(** [m] is [t] when no other callback has a turn during its awaits. *)
Definition refines {A} (t : Async.T W A) (m : M W A) : Prop :=
  ∀ s, Async.uninterrupted t s = m s.

(** The flag [isReady] is down exactly while a pass is in flight, and a
    pass in flight leaves the flags to the scheduler. *)
Definition loop_inv l : Prop :=
  Forall pass_safe (inflight l) ∧
  if booted l
  then if isReady (st l) then inflight l = [] else ∃ r, inflight l = [r]
  else isReady (st l) = false ∧ inflight l = [].

End Vocabulary.

(** ** Vocabulary of the further properties *)

Section Counting.
Context {W : Type} `{!Collaborators W}.
Implicit Types (st : State W) (cm : V1ConfigMap) (sec : V1Secret) (k : string) (c : Cache).

Definition is_write (e : Event) : bool :=
  match e with
  | DeleteSecret _ _ | CreateSecret _ _ | ReplaceSecret _ _ _ => true
  | _ => false
  end.
Definition is_delete (e : Event) : bool :=
  match e with
  | DeleteSecret _ _ => true
  | _ => false
  end.
Definition is_replace (e : Event) : bool :=
  match e with
  | ReplaceSecret _ _ _ => true
  | _ => false
  end.
Definition is_parse (e : Event) : bool :=
  match e with
  | ParseEnv _ _ => true
  | _ => false
  end.

(** How many events of a kind a trace holds. *)
Fixpoint count (f : Event → bool) (evs : list Event) : nat :=
  match evs with
  | [] => 0
  | e :: evs' => (if f e then 1 else 0) + count f evs'
  end.

(** The three stages of a materialization: read the key, parse, write. *)
Inductive Stage := Reading | Parsing | Writing.

#[global] Instance Stage_eq_dec : EqDecision Stage.
Proof. solve_decision. Defined.

Definition stage_of (e : Event) : option Stage :=
  match e with
  | ReadSecret _ _ => Some Reading
  | ParseEnv _ _ => Some Parsing
  | CreateSecret _ _ | ReplaceSecret _ _ _ => Some Writing
  | _ => None
  end.

Definition is_call (f : Event → bool) : Prop :=
  ∀ e, f e = true → is_info e = false ∧ is_error_log e = false.

(** The cluster hands back the labels it was sent. *)
Definition keeps_labels : Prop :=
  (∀ ns body (w : W) b' w',
     createNamespacedSecret ns body w = (Normal b', w') →
     secret_labels b' = secret_labels body) ∧
  (∀ nm ns body (w : W) b' w',
     replaceNamespacedSecret nm ns body w = (Normal b', w') →
     secret_labels b' = secret_labels body).

(** [c'] has no key that [c] has not, in the same order, and the same
    ConfigMap under every key it has. *)
Definition keeps (c c' : Cache) : Prop :=
  sublist c'.*1 c.*1 ∧
  ∀ k e', cache_get k c' = Some e' →
    ∃ e, cache_get k c = Some e ∧ configMap e' = configMap e.

End Counting.

(** ** Vocabulary of the watch callbacks and of the scheduler *)

Section Events.
Context {W : Type} `{!Collaborators W}.
Implicit Types (st : State W) (cm : V1ConfigMap) (sec : V1Secret) (k : string) (c : Cache).
Implicit Types (l : Loop W) (a : Label).

(** The half a watch event leaves in the entry. *)
Definition half_after {A} (t : WatchType) (x : A) : option A :=
  match t with
  | DELETED => None
  | _ => Some x
  end.

(** The key a ConfigMap is filed under, and the key of a Secret. *)
Definition cm_key cm : string := pairKey (cm_namespace cm) (cm_label cm L_target_secret).
Definition secret_key sec : string := pairKey (secret_namespace sec) (secret_name sec).

(** The events a state has logged since another. *)
Definition since st st' : list Event := drop (length (trace st)) (trace st').

(** Passes still to come without any further trigger: one per armed rerun
    timer, and one for a request recorded during the pass in flight. *)
Definition owed l : nat :=
  timeouts (st l) +
  match inflight l with
  | [] => 0
  | _ => if isPendingSync (st l) then 1 else 0
  end.

(** Labels that stand for a call of [syncSecrets()] from outside the
    scheduler: line 25, the interval, the watch callbacks. *)
Definition is_request a : bool :=
  match a with
  | Call | Boot | ConfigMapEvent _ _ | SecretEvent _ _ => true
  | _ => false
  end.

Fixpoint requests (evs : list Label) : nat :=
  match evs with
  | [] => 0
  | a :: evs' => (if is_request a then 1 else 0) + requests evs'
  end.

(** After [start()], a recorded request has a pass in flight or a timer to
    pick it up. *)
Definition pending_is_served l : Prop :=
  booted l = true → isReady (st l) = true → isPendingSync (st l) = true →
  0 < timeouts (st l).

(** The handlers of the pass in flight, then the timers one after the other,
    each followed by the handlers of the pass it started. *)
Definition drain (n : nat) : list Label := Settle :: mjoin (replicate n [Timeout; Settle]).

(** An entry whose iteration reads no property of [undefined]: it is no
    orphan, and a Secret beside a ConfigMap has its labels, the ConfigMap its
    metadata. *)
Definition healthy (e : CacheEntry) : Prop :=
  match e with
  | mkEntry (Some sec) (Some cm) => is_Some (secret_labels sec) ∧ is_Some (cm_metadata cm)
  | mkEntry (Some _) None => False
  | mkEntry None _ => True
  end.

End Events.

(** ** Startup

    [run()] of [index.ts] and [start()], with the two watches.  The watch
    library is a collaborator: [kubeWatch.watch] answers with a promise, and
    calls the callbacks it was given. *)

(** [kubeWatch.watch(path, { labelSelector }, ...)]: the completion is that
    of the promise the call returns. *)
Class Watcher (W : Type) :=
  watch : string → string → W → Completion () * W.

Section Startup.
Context {W : Type} `{!Collaborators W} `{!Watcher W}.
Implicit Types (st : State W) (l : Loop W) (a : Label).

Inductive Kind := ConfigMaps | Secrets.

Definition path (k : Kind) : string :=
  match k with
  | ConfigMaps => "/api/v1/configmaps"
  | Secrets => "/api/v1/secrets"
  end.

Definition labelSelector (k : Kind) : string :=
  match k with
  | ConfigMaps => "config.s24.dev/target-secret"
  | Secrets => "config.s24.dev/source-configmap"
  end.

Definition kind_name (k : Kind) : string :=
  match k with
  | ConfigMaps => "ConfigMap"
  | Secrets => "Secret"
  end.

(** A call of [kubeWatch.watch]: path, selector, completion of its promise. *)
Definition Registration : Type := string * string * Completion ().

(** Where [run()] of [index.ts] stands. *)
Inductive Pc :=
| Fresh                                          (* not called yet *)
| AwaitingWatch (k : Kind) (r : Completion ())   (* at an [await] of lines 20-21 *)
| Sleeping                                       (* at the [await] of line 23 *)
| Started.                                       (* past line 27 *)

Record Process := mkProcess {
  loop : Loop W;
  pc : Pc;
  registrations : list Registration;   (* oldest first *)
  retries : list Kind;                 (* 1 s timers armed by the error callbacks *)
  interval : bool;                     (* line 27 *)
  console : list JsError;              (* [console.error] *)
  exitCode : option nat                (* [process.exit] *)
}.

Definition set_loop (f : Loop W → Loop W) (p : Process) : Process :=
  mkProcess (f (loop p)) (pc p) (registrations p) (retries p) (interval p) (console p)
    (exitCode p).
Definition set_pc (c : Pc) (p : Process) : Process :=
  mkProcess (loop p) c (registrations p) (retries p) (interval p) (console p) (exitCode p).
Definition set_retries (ks : list Kind) (p : Process) : Process :=
  mkProcess (loop p) (pc p) (registrations p) ks (interval p) (console p) (exitCode p).
Definition set_interval (b : bool) (p : Process) : Process :=
  mkProcess (loop p) (pc p) (registrations p) (retries p) b (console p) (exitCode p).

(** [watchConfigMaps()] and [watchSecrets()]: the log line and the call of
    [kubeWatch.watch], whose promise the method awaits and returns. *)
Definition watchKind (k : Kind) (p : Process) : Completion () * Process :=
  let st1 := emit (LogInfo ("Starting " +:+ kind_name k +:+ " watch")) (st (loop p)) in
  let '(r, w) := watch (path k) (labelSelector k) (cluster st1) in
  (r, mkProcess (with_st (λ _, set_cluster w st1) (loop p)) (pc p)
        (registrations p ++ [(path k, labelSelector k, r)]) (retries p) (interval p)
        (console p) (exitCode p)).

(** Both handlers of [index.ts]: [console.error], then [process.exit(1)]. *)
Definition crash (e : JsError) (p : Process) : Process :=
  mkProcess (loop p) (pc p) (registrations p) (retries p) (interval p) (console p ++ [e])
    (Some 1).

(** [kubeWatch.watch] was given the callbacks of this kind. *)
Definition watched (k : Kind) (regs : list Registration) : bool :=
  existsb (λ r, bool_decide (r.1.1 = path k)) regs.

Inductive PLabel :=
| Main                                   (* [run()] up to its first [await], both
                                            constructors having returned *)
| Resume                                 (* the promise [start()] awaits settles *)
| Elapsed                                (* the 5 s timer of line 23 fires *)
| Tick                                   (* the 30 s interval fires *)
| WatchError (k : Kind) (err : JsError)  (* the error callback given to a watch *)
| Retry                                  (* the oldest 1 s timer fires *)
| Inner (a : Label).                     (* a watch event, the handlers of a pass,
                                            a zero-delay timer *)

Definition pstep (a : PLabel) (p : Process) : Process :=
  match exitCode p with
  | Some _ => p
  | None =>
      match a with
      | Main =>
          match pc p with
          | Fresh =>
              let p1 := set_loop (with_st (emit (LogInfo "Manager created"))) p in
              let '(r, p2) := watchKind ConfigMaps p1 in
              set_pc (AwaitingWatch ConfigMaps r) p2
          | _ => p
          end
      | Resume =>
          match pc p with
          | AwaitingWatch _ (Throw e) => crash e p
          | AwaitingWatch k (Normal _) =>
              match k with
              | ConfigMaps =>
                  let '(r, p1) := watchKind Secrets p in
                  set_pc (AwaitingWatch Secrets r) p1
              | Secrets => set_pc Sleeping p
              end
          | _ => p
          end
      | Elapsed =>
          match pc p with
          | Sleeping => set_interval true (set_pc Started (set_loop (step Boot) p))
          | _ => p
          end
      | Tick => if interval p then set_loop (step Call) p else p
      | WatchError k err =>
          if watched k (registrations p)
          then set_retries (retries p ++ [k])
                 (set_loop (with_st (emit (LogError (Some err)
                                             ("Failed to watch " +:+ kind_name k +:+ "s")))) p)
          else p
      | Retry =>
          match retries p with
          | [] => p
          | k :: ks =>
              match watchKind k (set_retries ks p) with
              | (Normal _, p1) => p1
              | (Throw e, p1) => crash e p1
              end
          end
      | Inner Call | Inner Boot => p
      | Inner a => set_loop (step a) p
      end
  end.

Definition pexec (ls : list PLabel) (p : Process) : Process := foldl (λ q (b : PLabel), pstep b q) p ls.

Definition new_Process (w : W) : Process := mkProcess (new_Loop w) Fresh [] [] false [] None.

(** Nothing of the reconciler has run. *)
Definition dormant l : Prop :=
  booted l = false ∧ isReady (st l) = false ∧ passes l = 0 ∧ inflight l = [] ∧
  timeouts (st l) = 0 ∧ existsb is_cluster_call (trace (st l)) = false.

Definition resolved (k : Kind) : Registration := (path k, labelSelector k, Normal ()).

(** The calls of [watch] that [start()] has made when it stands at a given
    place. *)
Definition reg_inv (p : Process) : Prop :=
  match pc p with
  | Fresh => registrations p = [] ∧ retries p = []
  | AwaitingWatch ConfigMaps r =>
      head (registrations p) = Some (path ConfigMaps, labelSelector ConfigMaps, r)
  | AwaitingWatch Secrets r =>
      head (registrations p) = Some (resolved ConfigMaps) ∧
      (path Secrets, labelSelector Secrets, r) ∈ registrations p
  | Sleeping | Started =>
      head (registrations p) = Some (resolved ConfigMaps) ∧
      resolved Secrets ∈ registrations p
  end.

(** The reconciler runs only past line 24. *)
Definition run_inv (p : Process) : Prop :=
  match pc p with
  | Started => interval p = true ∧ booted (loop p) = true
  | _ => interval p = false ∧ dormant (loop p)
  end.

Definition is_watch_error (a : PLabel) : bool :=
  match a with
  | WatchError _ _ => true
  | _ => false
  end.

Fixpoint watch_errors (ls : list PLabel) : nat :=
  match ls with
  | [] => 0
  | a :: ls' => (if is_watch_error a then 1 else 0) + watch_errors ls'
  end.

(** The calls of [watch] that [start()] has made. *)
Definition started_watches (c : Pc) : nat :=
  match c with
  | Fresh => 0
  | AwaitingWatch ConfigMaps _ => 1
  | _ => 2
  end.

(** A Secret event the typings allow: the object has its metadata. *)
Definition well_formed (a : PLabel) : bool :=
  match a with
  | Inner (SecretEvent _ sec) => bool_decide (is_Some (metadata sec))
  | _ => true
  end.

(** The process ends only with code 1, having printed the reason for which a
    call of [watch] was rejected. *)
Definition exit_inv (p : Process) : Prop :=
  match exitCode p with
  | None => console p = []
  | Some c => c = 1 ∧ ∃ e, console p = [e] ∧ ∃ r, r ∈ registrations p ∧ r.2 = Throw e
  end.

(** A registration is a call of [watch] with the path and the selector of one
    of the two kinds. *)
Definition genuine (r : Registration) : Prop :=
  ∃ k w, r = (path k, labelSelector k, (watch (path k) (labelSelector k) w).1).

End Startup.

(** ** Test doubles

    A cluster kept in memory, a plain [KEY=value] parser and RFC 4648 base64:
    the collaborators the engine is run against in the scenarios below, in
    the place of the mocks of the repository's tests. *)

Module Base64.

Definition alphabet : string :=
  "ABCDEFGHIJKLMNOPQRSTUVWXYZabcdefghijklmnopqrstuvwxyz0123456789+/".

Definition sextet (n : N) : Ascii.ascii :=
  default "="%char (String.get (N.to_nat n) alphabet).

Fixpoint encode (s : string) : string :=
  match s with
  | EmptyString => ""
  | String a EmptyString =>
      let n := (Ascii.N_of_ascii a * 16)%N in
      String (sextet (n / 64)) (String (sextet (n mod 64)) "==")
  | String a (String b EmptyString) =>
      let n := ((Ascii.N_of_ascii a * 256 + Ascii.N_of_ascii b) * 4)%N in
      String (sextet (n / 4096)) (String (sextet (n / 64 mod 64))
        (String (sextet (n mod 64)) "="))
  | String a (String b (String c rest)) =>
      let n := (Ascii.N_of_ascii a * 65536 + Ascii.N_of_ascii b * 256 + Ascii.N_of_ascii c)%N in
      String (sextet (n / 262144)) (String (sextet (n / 4096 mod 64))
        (String (sextet (n / 64 mod 64)) (String (sextet (n mod 64)) (encode rest))))
  end.

Fixpoint index_from (i : N) (c : Ascii.ascii) (s : string) : option N :=
  match s with
  | EmptyString => None
  | String c' s' => if decide (c = c') then Some i else index_from (N.succ i) c s'
  end.

Definition index (c : Ascii.ascii) : option N := index_from 0 c alphabet.

Definition byte (n : N) : Ascii.ascii := Ascii.ascii_of_N (n mod 256).

(** Decoding of canonical input; it stops at the padding. *)
Fixpoint decode (s : string) : string :=
  match s with
  | String a (String b (String c (String d rest))) =>
      match index a, index b, index c, index d with
      | Some x, Some y, Some z, Some w =>
          let n := (x * 262144 + y * 4096 + z * 64 + w)%N in
          String (byte (n / 65536)) (String (byte (n / 256)) (String (byte n) (decode rest)))
      | Some x, Some y, Some z, None =>
          let n := (x * 4096 + y * 64 + z)%N in
          String (byte (n / 1024)) (String (byte (n / 4)) "")
      | Some x, Some y, None, _ =>
          String (byte ((x * 64 + y) / 16)) ""
      | _, _, _, _ => ""
      end
  | _ => ""
  end.

End Base64.

Module Fake.

(** [KEY=value] lines, no quoting, no decryption. *)
Fixpoint until (c : Ascii.ascii) (s : string) : string * option string :=
  match s with
  | EmptyString => ("", None)
  | String c' s' =>
      if decide (c = c') then ("", Some s')
      else let '(h, t) := until c s' in (String c' h, t)
  end.

Fixpoint parse_lines (fuel : nat) (s : string) : list (string * string) :=
  match fuel with
  | 0 => []
  | S fuel' =>
      let '(line, rest) := until "010"%char s in
      let here := match until "="%char line with
                  | (k, Some v) => [(k, v)]
                  | (_, None) => []
                  end in
      here ++ match rest with
              | Some s' => parse_lines fuel' s'
              | None => []
              end
  end.

Definition parse_env (content : JsValue) (key : option string)
  : Completion (gmap string string) :=
  match content with
  | JsString s => Normal (list_to_map (parse_lines (S (String.length s)) s))
  | JsInherited _ => Throw TypeError
  end.

(** The Secrets of the cluster, under [ns/name]. *)
Definition Store := gmap string V1Secret.

Definition key_of (sec : V1Secret) : string :=
  pairKey (m ← metadata sec; namespace m) (m ← metadata sec; name m).

#[global] Instance collaborators : Collaborators Store := {|
  deleteNamespacedSecret nm ns w :=
    match w !! pairKey ns nm with
    | Some _ => (Normal (), delete (pairKey ns nm) w)
    | None => (Throw (Rejected "NotFound"), w)
    end;
  createNamespacedSecret ns body w :=
    match w !! key_of body with
    | Some _ => (Throw (Rejected "AlreadyExists"), w)
    | None => (Normal body, <[key_of body := body]> w)
    end;
  replaceNamespacedSecret nm ns body w :=
    match w !! pairKey ns nm with
    | Some _ => (Normal body, <[pairKey ns nm := body]> w)
    | None => (Throw (Rejected "NotFound"), w)
    end;
  readNamespacedSecret nm ns w :=
    match w !! pairKey ns (Some nm) with
    | Some sec => (Normal sec, w)
    | None => (Throw (Rejected "NotFound"), w)
    end;
  parseEnvContent := parse_env;
  toBase64 := Base64.encode;
  fromBase64 := Base64.decode
|}.

(** The fixtures of the tests. *)
Definition createConfigMap (nm ns targetSecret version : string)
    (d : gmap string string) : V1ConfigMap :=
  {| cm_metadata := Some {| name := Some nm; namespace := Some ns;
                            resourceVersion := Some version;
                            labels := Some {[ L_target_secret := targetSecret ]} |};
     cm_data := Some d |}.

Definition createSecret (nm ns sourceConfigMap sourceVersion : string) : V1Secret :=
  {| apiVersion := Some "v1"; kind := Some "Secret";
     metadata := Some {| name := Some nm; namespace := Some ns;
                         resourceVersion := None;
                         labels := Some {[ L_source_configmap := sourceConfigMap;
                                           L_source_configmap_version := sourceVersion ]} |};
     type := Some "Opaque"; data := Some ∅ |}.

(** A manager between two passes. *)
Definition idle (c : Cache) (w : Store) : State Store := mkState true false c w [] 0 ∅.

Definition env : gmap string string := {[ ".env" := "KEY=value" ]}.
Definition cm_12345 := createConfigMap "my-config" "default" "my-secret" "12345" env.
Definition cm_67890 := createConfigMap "my-config" "default" "my-secret" "67890" env.
Definition sec_12345 := createSecret "my-secret" "default" "my-config" "12345".
Definition orphan := createSecret "orphan-secret" "default" "missing-config" "1".

(** A ConfigMap whose [source-key] names no entry of its data. *)
Definition cm_nokey : V1ConfigMap :=
  {| cm_metadata := Some {| name := Some "my-config"; namespace := Some "default";
                            resourceVersion := Some "12345";
                            labels := Some {[ L_target_secret := "my-secret";
                                              L_source_key := "nonexistent.env" ]} |};
     cm_data := Some env |}.

(** A ConfigMap that names a decryption Secret, and that Secret. *)
Definition cm_encrypted (keySecret : string) : V1ConfigMap :=
  {| cm_metadata := Some {| name := Some "my-config"; namespace := Some "default";
                            resourceVersion := Some "12345";
                            labels := Some {[ L_target_secret := "my-secret";
                                              L_decryption_secret := keySecret ]} |};
     cm_data := Some env |}.
Definition key_secret : V1Secret :=
  {| apiVersion := Some "v1"; kind := Some "Secret";
     metadata := Some {| name := Some "key-secret"; namespace := Some "default";
                         resourceVersion := None; labels := None |};
     type := Some "Opaque";
     data := Some {[ "CONFIG_DECRYPTION_KEY" := Base64.encode "my-secret-key" ]} |}.

(** A ConfigMap whose [source-key] is the name of a member of
    [Object.prototype], which its data does not have, and that names a
    decryption Secret. *)
Definition cm_inherited : V1ConfigMap :=
  {| cm_metadata := Some {| name := Some "my-config"; namespace := Some "default";
                            resourceVersion := Some "12345";
                            labels := Some {[ L_target_secret := "my-secret";
                                              L_source_key := "constructor";
                                              L_decryption_secret := "key-secret" ]} |};
     cm_data := Some env |}.

Definition orphan_key := "default/orphan-secret".
Definition app_key := "default/my-secret".

(** The cache holds an orphan Secret that the cluster still has. *)
Definition st_orphan : State Store :=
  idle [(orphan_key, mkEntry (Some orphan) None)] {[ orphan_key := orphan ]}.

(** The orphan is already gone from the cluster, so its delete is rejected,
    and a ConfigMap without Secret comes after it in the cache. *)
Definition st_orphan_then_new : State Store :=
  idle [(orphan_key, mkEntry (Some orphan) None);
        (app_key, mkEntry None (Some cm_12345))] ∅.

(** The same orphan, before a Secret of version 12345 whose ConfigMap has
    moved on to version 67890, and before an entry that has lost both
    halves. *)
Definition st_orphan_then_stale : State Store :=
  idle [(orphan_key, mkEntry (Some orphan) None);
        (app_key, mkEntry (Some sec_12345) (Some cm_67890))] {[ app_key := sec_12345 ]}.
Definition st_orphan_then_empty : State Store :=
  idle [(orphan_key, mkEntry (Some orphan) None);
        (app_key, mkEntry None None)] ∅.

Definition st_converged : State Store :=
  idle [(app_key, mkEntry (Some sec_12345) (Some cm_12345))] {[ app_key := sec_12345 ]}.
Definition st_stale : State Store :=
  idle [(app_key, mkEntry (Some sec_12345) (Some cm_67890))] {[ app_key := sec_12345 ]}.
Definition st_empty_entry : State Store := idle [(app_key, mkEntry None None)] ∅.
Definition st_fresh : State Store := idle [] ∅.
Definition st_with_key : State Store := idle [] {[ "default/key-secret" := key_secret ]}.

(** The value a run ends with. *)
Definition value_of {A} (dflt : A) (out : Completion A * State Store) : A :=
  match out.1 with
  | Normal a => a
  | Throw _ => dflt
  end.

Definition out_create := createSecretForConfigMap cm_12345 None st_fresh.
Definition out_encrypted :=
  createSecretForConfigMap (cm_encrypted "key-secret") None st_with_key.
Definition out_empty_label :=
  createSecretForConfigMap (cm_encrypted "") None st_with_key.
Definition out_inherited := createSecretForConfigMap cm_inherited None st_with_key.

(** The watch has delivered a ConfigMap, then [start()] reaches line 24: the
    first pass is in flight. *)
Definition loop_first_pass : Loop Store :=
  exec [ConfigMapEvent ADDED cm_12345; Boot] (new_Loop ∅).

(** Calls and a watch event before [start()] reaches line 24. *)
Definition early_calls : list Label := [Call; ConfigMapEvent ADDED cm_12345; Call].

(** A manager that has started: line 24 reached, first pass over. *)
Definition started (w : Store) : Loop Store := exec [Boot; Settle] (new_Loop w).

End Fake.

(** Further fixtures. *)
Module Fixtures.
Import Fake.

(** A ConfigMap whose Secret does not exist yet. *)
Definition st_new : State Store := idle [(app_key, mkEntry None (Some cm_12345))] ∅.

(** A Secret without labels beside a ConfigMap. *)
Definition unlabelled_key := "default/key-secret".
Definition st_unlabelled : State Store :=
  idle [(unlabelled_key, mkEntry (Some key_secret) (Some cm_12345))] ∅.

(** The same cluster behind a parser that rejects what it is given. *)
Definition faulty : Collaborators Store := {|
  deleteNamespacedSecret := deleteNamespacedSecret;
  createNamespacedSecret := createNamespacedSecret;
  replaceNamespacedSecret := replaceNamespacedSecret;
  readNamespacedSecret := readNamespacedSecret;
  parseEnvContent _ _ := Throw (Error "Invalid env content");
  toBase64 := Base64.encode;
  fromBase64 := Base64.decode
|}.
Definition out_faulty := @createSecretForConfigMap Store faulty cm_12345 None st_fresh.

(** A watch library that accepts every registration, and one that rejects
    every registration. *)
Definition watcher_up : Watcher Store := λ _ _ w, (Normal (), w).
Definition watcher_down : Watcher Store := λ _ _ w, (Throw (Rejected "ECONNREFUSED"), w).

(** [run()] until [start()] returns: both watches accepted, the 5 s over. *)
Definition startup : list PLabel := [Main; Resume; Resume; Elapsed].

(** The watch delivers the next version of the ConfigMap. *)
Definition modified_meanwhile : State Store → State Store :=
  λ s, (onConfigMap MODIFIED cm_67890 s).2.

(** Two calls while the first pass is in flight. *)
Definition two_calls : list Label := [ConfigMapEvent ADDED cm_12345; Boot; Call; Call].

End Fixtures.

Example base64_value : Base64.encode "value" = "dmFsdWU=".
Proof. reflexivity. Qed.

Example base64_roundtrip : Base64.decode (Base64.encode "my-secret-key") = "my-secret-key".
Proof. reflexivity. Qed.

(** * Properties *)

Ltac unfold_M :=
  unfold mbind, mret, M_bind, M_ret, bind, ret, throw, try_catch, modify,
    deref, logInfo, logError in *.

(** ** Secret materializer *)

Section Materializer.
Context {W : Type} `{!Collaborators W}.
Implicit Types (st : State W) (cm : V1ConfigMap) (sec : V1Secret).

Lemma extends_refl st : extends st st [].
Proof. unfold extends. by rewrite app_nil_r. Qed.

Lemma extends_trans st1 st2 st3 evs evs' :
  extends st1 st2 evs → extends st2 st3 evs' → extends st1 st3 (evs ++ evs').
Proof.
  unfold extends. intros (-> & -> & -> & -> & E1) (-> & -> & -> & -> & E2).
  rewrite E2, E1. by rewrite app_assoc.
Qed.

Lemma extends_emit st e : extends st (emit e st) [e].
Proof. by unfold extends. Qed.

Lemma extends_emit_cluster st e w : extends st (set_cluster w (emit e st)) [e].
Proof. by unfold extends. Qed.

(** Without the source entry nothing at all happens before the throw. *)
Lemma createSecretForConfigMap_missing_source cm ex st :
  read (cm_data cm) (sourceKey_of cm) = None →
  createSecretForConfigMap cm ex st = (Throw (MissingSourceKey cm), st).
Proof. intros Hd. unfold createSecretForConfigMap. by rewrite Hd. Qed.

(** The [for ... in] loop of [createSecretWithConfigMapData] encodes every
    value and keeps every key. *)
Lemma payload_loop (payload : gmap string string) :
  map_fold (λ key v acc, <[key := toBase64 v]> acc) ∅ payload = toBase64 <$> payload.
Proof.
  apply (map_fold_weak_ind (λ r m, r = toBase64 <$> m)).
  - by rewrite fmap_empty.
  - intros i x m r _ ->. by rewrite fmap_insert.
Qed.

Lemma buildSecret_data m nm payload :
  data (buildSecret m nm payload) = Some (toBase64 <$> payload).
Proof. unfold buildSecret; simpl. by rewrite payload_loop. Qed.

Lemma buildSecret_labels m nm payload :
  ∃ lb, secret_labels (buildSecret m nm payload) = Some lb ∧
        lb !! L_source_configmap = name m ∧
        lb !! L_source_configmap_version = resourceVersion m ∧
        ∀ k, k ≠ L_source_configmap → k ≠ L_source_configmap_version → lb !! k = None.
Proof.
  eexists. split; [reflexivity|].
  unfold object_literal; simpl.
  destruct (name m), (resourceVersion m); repeat split; intros;
    by simplify_map_eq.
Qed.

Lemma getDecryptionSecret_inv ns ksn key st r st' :
  getDecryptionSecret ns ksn key st = (r, st') →
  ∃ rr w, readNamespacedSecret ksn ns (cluster st) = (rr, w) ∧
    st' = set_cluster w (emit (ReadSecret ksn ns) st) ∧
    r = match rr with
        | Normal s => match read (data s) key with
                      | Some (JsString v) => Normal (fromBase64 v)
                      | Some (JsInherited _) => Throw TypeError
                      | None => Throw (MissingDecryptionKey ksn key)
                      end
        | Throw e => Throw e
        end.
Proof.
  unfold getDecryptionSecret, awaitRead. unfold_M.
  destruct (readNamespacedSecret ksn ns (cluster st)) as [rr w] eqn:Hr.
  intros Heq. exists rr, w. split; [done|].
  destruct rr as [s|e]; simpl in Heq.
  - destruct (read (data s) key) as [[v|k]|]; by inversion Heq.
  - by inversion Heq.
Qed.

Lemma createSecretWithConfigMapData_inv cm nm payload ex st r st' :
  createSecretWithConfigMapData cm nm payload ex st = (r, st') →
  match cm_metadata cm with
  | None => r = Throw TypeError ∧ st' = st
  | Some m =>
      let built := buildSecret m nm payload in
      match ex with
      | Some _ => ∃ w, replaceNamespacedSecret nm (namespace m) built (cluster st) = (r, w) ∧
                       st' = set_cluster w (emit (ReplaceSecret nm (namespace m) built) st)
      | None => ∃ w, createNamespacedSecret (namespace m) built (cluster st) = (r, w) ∧
                     st' = set_cluster w (emit (CreateSecret (namespace m) built) st)
      end
  end.
Proof.
  unfold createSecretWithConfigMapData. unfold_M.
  destruct (cm_metadata cm) as [m|]; simpl.
  - destruct ex; unfold awaitReplace, awaitCreate.
    + destruct (replaceNamespacedSecret _ _ _ _) as [r' w]. intros [= <- <-]. by exists w.
    + destruct (createNamespacedSecret _ _ _) as [r' w]. intros [= <- <-]. by exists w.
  - by intros [= <- <-].
Qed.

Lemma createSecretForConfigMap_eq cm ex :
  createSecretForConfigMap cm ex =
  match read (cm_data cm) (sourceKey_of cm) with
  | None => throw (MissingSourceKey cm)
  | Some sourceData =>
      decryptionSecret ← decryptionSecret_init cm;
      m ← deref (cm_metadata cm);
      ls ← deref (labels m);
      secretData ← awaitParse sourceData decryptionSecret;
      createSecretWithConfigMapData cm (ls !! L_target_secret) secretData ex
  end.
Proof. reflexivity. Qed.

Lemma cm_label_Some cm l v :
  cm_label cm l = Some v → ∃ m ls, cm_metadata cm = Some m ∧ labels m = Some ls ∧ ls !! l = Some v.
Proof.
  unfold cm_label. destruct (cm_metadata cm) as [m|]; [|done]; simpl.
  destruct (labels m) as [ls|] eqn:Hls; [|done]; simpl. intros Hv. exists m, ls. done.
Qed.

Lemma decryptionSecret_init_inv cm st kr st1 :
  decryptionSecret_init cm st = (kr, st1) →
  match cm_label cm L_decryption_secret with
  | Some ksn =>
      if truthy ksn then
        ∃ m r, cm_metadata cm = Some m ∧
          getDecryptionSecret (namespace m) ksn (keySecretKey_of cm) st = (r, st1) ∧
          kr = match r with Normal k => Normal (Some k) | Throw e => Throw e end
      else kr = Normal None ∧ st1 = st
  | None => kr = Normal None ∧ st1 = st
  end.
Proof.
  unfold decryptionSecret_init.
  destruct (cm_label cm L_decryption_secret) as [ksn|] eqn:Hl.
  - destruct (truthy ksn).
    + apply cm_label_Some in Hl as (m & ls & Hm & _ & _). rewrite Hm.
      unfold_M. simpl.
      destruct (getDecryptionSecret _ _ _ _) as [r st2] eqn:Hg.
      intros Heq. exists m, r. split; [done|].
      destruct r; inversion Heq; subst; done.
    + by intros [= <- <-].
  - by intros [= <- <-].
Qed.

Lemma createSecretForConfigMap_inv cm ex st r st' :
  createSecretForConfigMap cm ex st = (r, st') →
  match read (cm_data cm) (sourceKey_of cm) with
  | None => r = Throw (MissingSourceKey cm) ∧ st' = st
  | Some sd =>
     ∃ kr st1, decryptionSecret_init cm st = (kr, st1) ∧
       match kr with
       | Throw e => r = Throw e ∧ st' = st1
       | Normal key =>
          match cm_metadata cm ≫= labels with
          | None => r = Throw TypeError ∧ st' = st1
          | Some ls =>
              match parseEnvContent sd key with
              | Throw e => r = Throw e ∧ st' = emit (ParseEnv sd key) st1
              | Normal payload =>
                  createSecretWithConfigMapData cm (ls !! L_target_secret) payload ex
                    (emit (ParseEnv sd key) st1) = (r, st')
              end
          end
       end
  end.
Proof.
  rewrite createSecretForConfigMap_eq.
  destruct (read (cm_data cm) _) as [sd|]; [|by intros [= <- <-]].
  unfold_M.
  destruct (decryptionSecret_init cm st) as [kr st1].
  intros Heq. exists kr, st1. split; [done|].
  destruct kr as [key|e]; [|by inversion Heq].
  destruct (cm_metadata cm) as [m|]; simpl in *; [|by inversion Heq].
  destruct (labels m) as [ls|]; simpl in *; [|by inversion Heq].
  unfold awaitParse in Heq.
  destruct (parseEnvContent sd key); [done|by inversion Heq].
Qed.

Lemma decryptionSecret_init_reads cm st kr st1 :
  decryptionSecret_init cm st = (kr, st1) →
  ∃ evs, extends st st1 evs ∧ Forall (λ e, is_read e = true) evs.
Proof.
  intros Hk. apply decryptionSecret_init_inv in Hk.
  destruct (cm_label cm L_decryption_secret) as [ksn|].
  - destruct (truthy ksn).
    + destruct Hk as (m & r & _ & Hg & _).
      apply getDecryptionSecret_inv in Hg as (rr & w & _ & -> & _).
      eexists. split; [apply extends_emit_cluster|]. by repeat constructor.
    + destruct Hk as [_ ->]. exists []. split; [apply extends_refl|constructor].
  - destruct Hk as [_ ->]. exists []. split; [apply extends_refl|constructor].
Qed.

Lemma decryptionSecret_init_extends cm ex st kr st1 :
  decryptionSecret_init cm st = (kr, st1) →
  ∃ evs, extends st st1 evs ∧ Forall (permitted ex) evs.
Proof.
  intros Hk. apply decryptionSecret_init_reads in Hk as (evs & Hext & Hr).
  exists evs. split; [done|].
  eapply Forall_impl; [exact Hr|]. intros e He. by destruct e.
Qed.

Lemma createSecretWithConfigMapData_extends cm nm payload ex st r st' :
  createSecretWithConfigMapData cm nm payload ex st = (r, st') →
  ∃ evs, extends st st' evs ∧ Forall (permitted ex) evs.
Proof.
  intros Hc. apply createSecretWithConfigMapData_inv in Hc.
  destruct (cm_metadata cm) as [m|].
  - destruct ex; destruct Hc as (w & _ & ->);
      (eexists; split; [apply extends_emit_cluster|]);
      (apply Forall_singleton; simpl; eauto).
  - destruct Hc as [_ ->]. exists []. split; [apply extends_refl|constructor].
Qed.

Lemma createSecretForConfigMap_extends cm ex st r st' :
  createSecretForConfigMap cm ex st = (r, st') →
  ∃ evs, extends st st' evs ∧ Forall (permitted ex) evs.
Proof.
  intros Hc. apply createSecretForConfigMap_inv in Hc.
  destruct (read (cm_data cm) _) as [sd|].
  - destruct Hc as (kr & st1 & Hk & Hc).
    apply (decryptionSecret_init_extends _ ex) in Hk as (evs1 & E1 & F1).
    destruct kr as [key|e]; [|destruct Hc as [_ ->]; eauto].
    destruct (cm_metadata cm ≫= labels) as [ls|]; [|destruct Hc as [_ ->]; eauto].
    assert (E2 := extends_emit st1 (ParseEnv sd key)).
    destruct (parseEnvContent sd key) as [payload|e].
    + apply createSecretWithConfigMapData_extends in Hc as (evs3 & E3 & F3).
      exists ((evs1 ++ [ParseEnv sd key]) ++ evs3).
      split; [eauto using extends_trans|].
      rewrite !Forall_app. repeat split; try done. by repeat constructor.
    + destruct Hc as [_ ->]. exists (evs1 ++ [ParseEnv sd key]).
      split; [eauto using extends_trans|].
      rewrite !Forall_app. repeat split; try done. by repeat constructor.
  - destruct Hc as [_ ->]. exists []. split; [apply extends_refl|constructor].
Qed.

(** The materializer stores no entry object. *)
Lemma createSecretForConfigMap_epoch cm ex st r st' :
  createSecretForConfigMap cm ex st = (r, st') → epoch st' = epoch st.
Proof.
  intros Hc. apply createSecretForConfigMap_inv in Hc.
  destruct (read (cm_data cm) _) as [sd|]; [|by destruct Hc as [_ ->]].
  destruct Hc as (kr & st1 & Hk & Hc).
  assert (epoch st1 = epoch st) as Hep1.
  { apply decryptionSecret_init_inv in Hk.
    destruct (cm_label cm L_decryption_secret) as [ksn|]; [|by destruct Hk as [_ ->]].
    destruct (truthy ksn); [|by destruct Hk as [_ ->]].
    destruct Hk as (m & r0 & _ & Hg & _).
    by apply getDecryptionSecret_inv in Hg as (rr & w & _ & -> & _). }
  destruct kr as [key|e]; [|by destruct Hc as [_ ->]].
  destruct (cm_metadata cm ≫= labels) as [ls|]; [|by destruct Hc as [_ ->]].
  destruct (parseEnvContent sd key) as [payload|e]; [|by destruct Hc as [_ ->]].
  apply createSecretWithConfigMapData_inv in Hc.
  destruct (cm_metadata cm) as [m|]; [|by destruct Hc as [_ ->]].
  destruct ex; by destruct Hc as (w & _ & ->).
Qed.

Lemma createSecretForConfigMap_Normal cm ex st body st' :
  createSecretForConfigMap cm ex st = (Normal body, st') →
  ∃ m ls sd key payload st1 w,
    cm_metadata cm = Some m ∧ labels m = Some ls ∧
    read (cm_data cm) (sourceKey_of cm) = Some sd ∧
    decryptionSecret_init cm st = (Normal key, st1) ∧
    parseEnvContent sd key = Normal payload ∧
    st' = set_cluster w
            (emit (write_call ex (ls !! L_target_secret) (namespace m)
                     (buildSecret m (ls !! L_target_secret) payload))
               (emit (ParseEnv sd key) st1)).
Proof.
  intros Hc. apply createSecretForConfigMap_inv in Hc.
  destruct (read (cm_data cm) _) as [sd|]; [|by destruct Hc].
  destruct Hc as (kr & st1 & Hk & Hc).
  destruct kr as [key|]; [|by destruct Hc].
  destruct (cm_metadata cm) as [m|] eqn:Hm; simpl in Hc; [|by destruct Hc].
  destruct (labels m) as [ls|] eqn:Hls; simpl in Hc; [|by destruct Hc].
  destruct (parseEnvContent sd key) as [payload|] eqn:Hp; [|by destruct Hc].
  apply createSecretWithConfigMapData_inv in Hc. rewrite Hm in Hc.
  exists m, ls, sd, key, payload, st1.
  destruct ex; destruct Hc as (w & _ & ->); by exists w.
Qed.

(** C6: when the materialization of a ConfigMap succeeds, the parser having
    returned [payload] for the source entry, the Secret sent to the cluster
    (the body of the last call, a create or a replace) has the ConfigMap's
    [target-secret] label as its name, the ConfigMap's namespace, exactly the
    labels [source-configmap] (the ConfigMap's name) and
    [source-configmap-version] (its resourceVersion), and as data every key of
    [payload] with the base64 form of its value. *)
Theorem materialized_secret_shape cm ex st body st' :
  createSecretForConfigMap cm ex st = (Normal body, st') →
  ∃ sd key payload built,
    read (cm_data cm) (sourceKey_of cm) = Some sd ∧
    parseEnvContent sd key = Normal payload ∧
    last (trace st') ≫= sent = Some built ∧
    secret_name built = cm_label cm L_target_secret ∧
    secret_namespace built = cm_namespace cm ∧
    (∃ lb, secret_labels built = Some lb ∧
       lb !! L_source_configmap = cm_name cm ∧
       lb !! L_source_configmap_version = cm_version cm ∧
       ∀ l, l ≠ L_source_configmap → l ≠ L_source_configmap_version → lb !! l = None) ∧
    data built = Some (toBase64 <$> payload).
Proof.
  intros Hc.
  apply createSecretForConfigMap_Normal in Hc
    as (m & ls & sd & key & payload & st1 & w & Hm & Hls & Hsd & _ & Hp & ->).
  exists sd, key, payload, (buildSecret m (ls !! L_target_secret) payload).
  split; [done|]. split; [done|]. split.
  { simpl. rewrite last_snoc. by destruct ex. }
  unfold cm_label, cm_name, cm_namespace, cm_version. rewrite Hm. simpl. rewrite Hls. simpl.
  split; [done|]. split; [done|].
  split; [apply (buildSecret_labels m (ls !! L_target_secret) payload)|].
  apply (buildSecret_data m (ls !! L_target_secret) payload).
Qed.

Lemma materialize_with_trace cm ex sd key st r st' :
  materialize_with cm ex sd key st = (r, st') →
  ∃ evs, trace st' = trace st ++ evs ∧ read_calls evs = [] ∧
    match cm_metadata cm ≫= labels with
    | Some _ => parse_calls evs = [(sd, key)]
    | None => parse_calls evs = [] ∧ r = Throw TypeError
    end.
Proof.
  unfold materialize_with. unfold_M.
  destruct (cm_metadata cm) as [m|] eqn:Hm; simpl.
  2:{ intros [= <- <-]. exists []. by rewrite app_nil_r. }
  destruct (labels m) as [ls|]; simpl.
  2:{ intros [= <- <-]. exists []. by rewrite app_nil_r. }
  unfold awaitParse.
  destruct (parseEnvContent sd key) as [payload|e].
  - intros Hc. apply createSecretWithConfigMapData_inv in Hc. rewrite Hm in Hc.
    destruct ex; destruct Hc as (w & _ & ->); simpl;
      (eexists [_; _]; split; [by rewrite <- app_assoc|done]).
  - intros [= <- <-]. by exists [ParseEnv sd key].
Qed.

(** C7 (amended): once the read of the source entry has given a value, the
    decryption key is resolved from the label [decryption-secret].  A
    non-empty label: the Secret it names is read, once, in the ConfigMap's
    namespace; if the read returns a Secret whose data holds the entry named
    by [decryption-secret-key] (default [CONFIG_DECRYPTION_KEY]), the parser
    is called once, with that entry decoded from base64 as key; if the entry
    is missing and its name is not that of a member of [Object.prototype],
    the materialization fails with [MissingDecryptionKey] right after the
    read of the Secret; if it is missing under such a name, line 169 hands
    the inherited member to [Buffer.from], which throws; a rejected read
    fails the materialization as well.  A label that is absent or empty: no
    Secret is read, and the parser, when it is called, gets no key. *)
Theorem decryption_key_resolution cm ex st sd r st' :
  read (cm_data cm) (sourceKey_of cm) = Some sd →
  createSecretForConfigMap cm ex st = (r, st') →
  ∃ evs, trace st' = trace st ++ evs ∧
    match cm_label cm L_decryption_secret with
    | Some (String _ _ as ksn) =>
        let ns := cm_metadata cm ≫= namespace in
        let key := keySecretKey_of cm in
        read_calls evs = [(ksn, ns)] ∧
        match readNamespacedSecret ksn ns (cluster st) with
        | (Normal s, _) =>
            match read (data s) key with
            | Some (JsString v) => parse_calls evs = [(sd, Some (fromBase64 v))]
            | Some (JsInherited _) => r = Throw TypeError ∧ evs = [ReadSecret ksn ns]
            | None => r = Throw (MissingDecryptionKey ksn key) ∧ evs = [ReadSecret ksn ns]
            end
        | (Throw e, _) => r = Throw e ∧ evs = [ReadSecret ksn ns]
        end
    | Some "" => read_calls evs = [] ∧ parse_calls evs = [(sd, None)]
    | None =>
        read_calls evs = [] ∧
        (parse_calls evs = [(sd, None)] ∨ parse_calls evs = [] ∧ r = Throw TypeError)
    end.
Proof.
  intros Hsd Hc. rewrite createSecretForConfigMap_eq, Hsd in Hc.
  change ((decryptionSecret_init cm ≫= materialize_with cm ex sd) st = (r, st')) in Hc.
  unfold mbind, M_bind, bind in Hc.
  destruct (decryptionSecret_init cm st) as [kr st1] eqn:Hk.
  apply decryptionSecret_init_inv in Hk.
  destruct (cm_label cm L_decryption_secret) as [[|a ksn]|] eqn:Hl; simpl in Hk.
  - destruct Hk as [-> ->].
    apply cm_label_Some in Hl as (m & ls & Hm & Hls & _).
    apply materialize_with_trace in Hc as (evs & Ht & Hr & Hp).
    rewrite Hm in Hp; simpl in Hp; rewrite Hls in Hp. by exists evs.
  - destruct Hk as (m & rr & Hm & Hg & ->).
    apply cm_label_Some in Hl as (m' & ls & Hm' & Hls & _).
    assert (m' = m) as -> by congruence.
    apply getDecryptionSecret_inv in Hg as (rd & w & Hrd & -> & ->).
    rewrite Hm; simpl. rewrite Hrd.
    destruct rd as [s|e].
    + destruct (read (data s) _) as [[v|k]|].
      * apply materialize_with_trace in Hc as (evs & Ht & Hr & Hp).
        rewrite Hm in Hp; simpl in Hp; rewrite Hls in Hp.
        exists (ReadSecret (String a ksn) (namespace m) :: evs). simpl in *.
        split; [by rewrite Ht, <- app_assoc|]. by rewrite Hr.
      * inversion Hc; subst. by exists [ReadSecret (String a ksn) (namespace m)].
      * inversion Hc; subst. by exists [ReadSecret (String a ksn) (namespace m)].
    + inversion Hc; subst. by exists [ReadSecret (String a ksn) (namespace m)].
  - destruct Hk as [-> ->].
    apply materialize_with_trace in Hc as (evs & Ht & Hr & Hp).
    exists evs. split; [done|]. split; [done|].
    destruct (cm_metadata cm ≫= labels); eauto.
Qed.

(** C8 (the code, where it departs from the claim): the data of the
    ConfigMap lacks the entry named by [source-key], but the name is that of a
    member of [Object.prototype].  The read at line 143 then gives the
    inherited member, the test at line 144 lets it pass, and the
    materialization goes on as for an entry that is there.  With a non-empty
    [decryption-secret] label its first call is the read of that Secret; when
    the read gives the key, the parser is called once, with the inherited
    member as contents and the key; when it does not, the materialization
    fails with the error of the key resolution.  With no such label, or an
    empty one, the parser is called once, with the inherited member as
    contents and no key. *)
Theorem inherited_source_key_is_not_missing cm ex st d r st' :
  cm_data cm = Some d → d !! sourceKey_of cm = None →
  sourceKey_of cm ∈ prototype_members →
  createSecretForConfigMap cm ex st = (r, st') →
  ∃ evs, trace st' = trace st ++ evs ∧
    match cm_label cm L_decryption_secret with
    | Some (String _ _ as ksn) =>
        let ns := cm_namespace cm in
        let key := keySecretKey_of cm in
        head evs = Some (ReadSecret ksn ns) ∧ read_calls evs = [(ksn, ns)] ∧
        match readNamespacedSecret ksn ns (cluster st) with
        | (Normal s, _) =>
            match read (data s) key with
            | Some (JsString v) =>
                parse_calls evs = [(JsInherited (sourceKey_of cm), Some (fromBase64 v))]
            | Some (JsInherited _) => r = Throw TypeError ∧ evs = [ReadSecret ksn ns]
            | None => r = Throw (MissingDecryptionKey ksn key) ∧ evs = [ReadSecret ksn ns]
            end
        | (Throw e, _) => r = Throw e ∧ evs = [ReadSecret ksn ns]
        end
    | _ => read_calls evs = [] ∧ parse_calls evs = [(JsInherited (sourceKey_of cm), None)]
    end.
Proof.
  intros Hd Hlack Hin Hc.
  assert (read (cm_data cm) (sourceKey_of cm) = Some (JsInherited (sourceKey_of cm))) as Hsd.
  { unfold read. rewrite Hd. simpl. rewrite Hlack. by rewrite bool_decide_eq_true_2. }
  assert (∃ m ls, cm_metadata cm = Some m ∧ labels m = Some ls) as (m & ls & Hm & Hls).
  { unfold sourceKey_of in Hin. destruct (cm_label cm L_source_key) as [k|] eqn:Hk.
    - apply cm_label_Some in Hk as (m & ls & ? & ? & _). by exists m, ls.
    - exfalso. revert Hin. simpl. unfold prototype_members.
      rewrite !elem_of_cons, elem_of_nil. intros Hin. by repeat destruct Hin as [Hin|Hin]. }
  rewrite createSecretForConfigMap_eq, Hsd in Hc.
  change ((decryptionSecret_init cm ≫=
             materialize_with cm ex (JsInherited (sourceKey_of cm))) st = (r, st')) in Hc.
  unfold mbind, M_bind, bind in Hc.
  destruct (decryptionSecret_init cm st) as [kr st1] eqn:Hk.
  apply decryptionSecret_init_inv in Hk.
  destruct (cm_label cm L_decryption_secret) as [[|a ksn]|] eqn:Hl; simpl in Hk.
  - destruct Hk as [-> ->].
    apply materialize_with_trace in Hc as (evs & Ht & Hr & Hp).
    rewrite Hm in Hp; simpl in Hp; rewrite Hls in Hp. by exists evs.
  - destruct Hk as (m' & rr & Hm' & Hg & ->).
    assert (m' = m) as -> by congruence.
    apply getDecryptionSecret_inv in Hg as (rd & w & Hrd & -> & ->).
    unfold cm_namespace. rewrite Hm; simpl. rewrite Hrd.
    destruct rd as [s|e].
    + destruct (read (data s) _) as [[v|k]|].
      * apply materialize_with_trace in Hc as (evs & Ht & Hr & Hp).
        rewrite Hm in Hp; simpl in Hp; rewrite Hls in Hp.
        exists (ReadSecret (String a ksn) (namespace m) :: evs). simpl in *.
        split; [by rewrite Ht, <- app_assoc|]. by rewrite Hr.
      * inversion Hc; subst. by exists [ReadSecret (String a ksn) (namespace m)].
      * inversion Hc; subst. by exists [ReadSecret (String a ksn) (namespace m)].
    + inversion Hc; subst. by exists [ReadSecret (String a ksn) (namespace m)].
  - destruct Hk as [-> ->].
    apply materialize_with_trace in Hc as (evs & Ht & Hr & Hp).
    rewrite Hm in Hp; simpl in Hp; rewrite Hls in Hp. by exists evs.
Qed.

End Materializer.

(** ** Reconciler *)

Section Reconciler.
Context {W : Type} `{!Collaborators W}.
Implicit Types (st : State W) (cm : V1ConfigMap) (sec : V1Secret) (k : string) (c : Cache).

Lemma syncEntry_both_absent k st :
  cache_get k (cache st) = Some (mkEntry None None) →
  syncEntry k st = (Normal (), drop_entry k st).
Proof. intros Hk. unfold syncEntry. unfold_M. by rewrite Hk. Qed.

Lemma syncEntry_orphan k sec st :
  cache_get k (cache st) = Some (mkEntry (Some sec) None) →
  syncEntry k st = (Throw TypeError, after_orphan k sec st).
Proof.
  intros Hk. unfold syncEntry, after_orphan. unfold_M. rewrite Hk. simpl.
  destruct (metadata sec) as [m|]; simpl; [|done].
  unfold awaitDelete. simpl.
  destruct (deleteNamespacedSecret _ _ _) as [[[]|e] w]; simpl;
    by destruct (labels m).
Qed.

Lemma syncEntry_converged k sec cm sm sl cmm st :
  cache_get k (cache st) = Some (mkEntry (Some sec) (Some cm)) →
  metadata sec = Some sm → labels sm = Some sl → cm_metadata cm = Some cmm →
  sl !! L_source_configmap_version = resourceVersion cmm →
  syncEntry k st = (Normal (), st).
Proof.
  intros Hk Hsm Hsl Hcmm Hv. unfold syncEntry. unfold_M.
  rewrite Hk. simpl. rewrite Hsm. simpl. rewrite Hsl. simpl. rewrite Hcmm. simpl.
  by rewrite bool_decide_eq_true_2.
Qed.

Lemma syncEntry_create k cm st :
  cache_get k (cache st) = Some (mkEntry None (Some cm)) →
  syncEntry k st =
  store_or_log k cm "create"
    (createSecretForConfigMap cm None
       (emit (LogInfo ("Secret for " +:+ k +:+ " does not exist. Creating secret.")) st)).
Proof.
  intros Hk. unfold syncEntry, materialize, cache_set_secret, bound. unfold_M.
  rewrite Hk. simpl.
  destruct (createSecretForConfigMap _ _ _) as [r st'] eqn:Hc.
  pose proof (createSecretForConfigMap_epoch _ _ _ _ _ Hc) as Hep.
  apply createSecretForConfigMap_extends in Hc as (evs & (_ & _ & Hcache & _) & _).
  simpl in Hcache, Hep. destruct r as [s|e]; simpl; [|done].
  unfold generation. simpl. rewrite Hcache, Hk, Hep. by rewrite bool_decide_eq_true_2.
Qed.

Lemma syncEntry_update k sec cm sm sl cmm st :
  cache_get k (cache st) = Some (mkEntry (Some sec) (Some cm)) →
  metadata sec = Some sm → labels sm = Some sl → cm_metadata cm = Some cmm →
  sl !! L_source_configmap_version ≠ resourceVersion cmm →
  syncEntry k st =
  store_or_log k cm "update"
    (createSecretForConfigMap cm (Some sec)
       (emit (LogInfo ("ConfigMap for " +:+ k +:+ " updated. Updating secret.")) st)).
Proof.
  intros Hk Hsm Hsl Hcmm Hv. unfold syncEntry, materialize, cache_set_secret, bound. unfold_M.
  rewrite Hk. simpl. rewrite Hsm. simpl. rewrite Hsl. simpl. rewrite Hcmm. simpl.
  rewrite bool_decide_eq_false_2 by done. simpl.
  destruct (createSecretForConfigMap _ _ _) as [r st'] eqn:Hc.
  pose proof (createSecretForConfigMap_epoch _ _ _ _ _ Hc) as Hep.
  apply createSecretForConfigMap_extends in Hc as (evs & (_ & _ & Hcache & _) & _).
  simpl in Hcache, Hep. destruct r as [s|e]; simpl; [|done].
  unfold generation. simpl. rewrite Hcache, Hk, Hep. by rewrite bool_decide_eq_true_2.
Qed.

Lemma cache_get_delete_eq k c : cache_get k (cache_delete k c) = None.
Proof.
  induction c as [|[k' e] c IH]; simpl; [done|].
  destruct (decide (k = k')) as [->|Hne]; simpl; [done|].
  by rewrite decide_False.
Qed.

Lemma cache_get_delete_ne k k' c :
  k ≠ k' → cache_get k' (cache_delete k c) = cache_get k' c.
Proof.
  intros Hne. induction c as [|[k1 e] c IH]; simpl; [done|].
  destruct (decide (k = k1)) as [->|Hne1]; simpl.
  - by rewrite decide_False.
  - by rewrite IH.
Qed.

Lemma cache_get_set_eq k e c : cache_get k (cache_set k e c) = Some e.
Proof.
  induction c as [|[k' e'] c IH]; simpl.
  - by rewrite decide_True.
  - destruct (decide (k = k')) as [->|Hne]; simpl.
    + by rewrite decide_True.
    + by rewrite decide_False.
Qed.

Lemma cache_get_set_ne k k' e c :
  k ≠ k' → cache_get k' (cache_set k e c) = cache_get k' c.
Proof.
  intros Hne. induction c as [|[k1 e1] c IH]; simpl.
  - by rewrite decide_False.
  - destruct (decide (k = k1)) as [->|Hne1]; simpl.
    + by rewrite !decide_False.
    + by rewrite IH.
Qed.

(** The complete case analysis of one iteration. *)
Lemma syncEntry_effect k e st :
  cache_get k (cache st) = Some e →
  syncEntry k st =
  match e with
  | mkEntry None None => (Normal (), drop_entry k st)
  | mkEntry (Some sec) None => (Throw TypeError, after_orphan k sec st)
  | mkEntry None (Some cm) =>
      store_or_log k cm "create"
        (createSecretForConfigMap cm None
           (emit (LogInfo ("Secret for " +:+ k +:+ " does not exist. Creating secret.")) st))
  | mkEntry (Some sec) (Some cm) =>
      match secret_labels sec, cm_metadata cm with
      | Some sl, Some cmm =>
          if bool_decide (sl !! L_source_configmap_version = resourceVersion cmm)
          then (Normal (), st)
          else store_or_log k cm "update"
                 (createSecretForConfigMap cm (Some sec)
                    (emit (LogInfo ("ConfigMap for " +:+ k +:+ " updated. Updating secret.")) st))
      | _, _ => (Throw TypeError, st)
      end
  end.
Proof.
  intros Hk. destruct e as [[sec|] [cm|]].
  - unfold secret_labels. destruct (metadata sec) as [sm|] eqn:Hsm; simpl.
    2:{ unfold syncEntry. unfold_M. rewrite Hk. simpl. by rewrite Hsm. }
    destruct (labels sm) as [sl|] eqn:Hsl.
    2:{ unfold syncEntry. unfold_M. rewrite Hk. simpl. rewrite Hsm. simpl. by rewrite Hsl. }
    destruct (cm_metadata cm) as [cmm|] eqn:Hcmm.
    2:{ unfold syncEntry. unfold_M. rewrite Hk. simpl. rewrite Hsm. simpl. rewrite Hsl.
        simpl. by rewrite Hcmm. }
    case_bool_decide.
    + by eapply syncEntry_converged.
    + by eapply syncEntry_update.
  - by apply syncEntry_orphan.
  - by apply syncEntry_create.
  - by apply syncEntry_both_absent.
Qed.

Lemma for_in_cons k ks body st :
  for_in (k :: ks) body st =
  match cache_get k (cache st) with
  | Some _ =>
      match body k st with
      | (Normal _, st') => for_in ks body st'
      | (Throw e, st') => (Throw e, st')
      end
  | None => for_in ks body st
  end.
Proof. simpl. unfold_M. by destruct (cache_get k (cache st)). Qed.

Lemma extends_same_flags st st' evs : extends st st' evs → same_flags st st'.
Proof. intros (? & ? & ? & ? & ?). by repeat split. Qed.

Lemma syncEntry_same_flags k st : same_flags st (syncEntry k st).2.
Proof.
  destruct (cache_get k (cache st)) as [e|] eqn:Hk.
  - rewrite (syncEntry_effect k e st Hk).
    destruct e as [[sec|] [cm|]].
    + destruct (secret_labels sec), (cm_metadata cm); try done.
      case_bool_decide; [done|].
      destruct (createSecretForConfigMap _ _ _) as [r st1] eqn:Hc.
      apply createSecretForConfigMap_extends in Hc as (evs & (? & ? & ? & ? & ?) & _).
      destruct r; simpl in *; by repeat split.
    + simpl. unfold after_orphan. destruct (metadata sec); [|done].
      by destruct (deleteNamespacedSecret _ _ _) as [[[]|] ?].
    + destruct (createSecretForConfigMap _ _ _) as [r st1] eqn:Hc.
      apply createSecretForConfigMap_extends in Hc as (evs & (? & ? & ? & ? & ?) & _).
      destruct r; simpl in *; by repeat split.
    + done.
  - unfold syncEntry. unfold_M. by rewrite Hk.
Qed.

Lemma same_flags_trans st1 st2 st3 :
  same_flags st1 st2 → same_flags st2 st3 → same_flags st1 st3.
Proof. intros (? & ? & ?) (? & ? & ?). repeat split; congruence. Qed.

Lemma for_in_same_flags ks st : same_flags st (for_in ks syncEntry st).2.
Proof.
  revert st. induction ks as [|k ks IH]; intros st; [done|].
  rewrite for_in_cons. destruct (cache_get k (cache st)); [|apply IH].
  pose proof (syncEntry_same_flags k st) as Hf.
  destruct (syncEntry k st) as [[[]|e] st1]; simpl in *; [|done].
  eapply same_flags_trans; [exact Hf|apply IH].
Qed.

Lemma _syncSecrets_same_flags st : same_flags st (_syncSecrets st).2.
Proof. apply for_in_same_flags. Qed.


(** A failed materialization or write of the create branch stays inside its
    iteration. *)
Lemma syncEntry_create_contained k cm st :
  cache_get k (cache st) = Some (mkEntry None (Some cm)) →
  (syncEntry k st).1 = Normal ().
Proof.
  intros Hk. rewrite (syncEntry_create k cm st Hk).
  by destruct (createSecretForConfigMap _ _ _) as [[s|e] st'].
Qed.

(** So does one of the update branch. *)
Lemma syncEntry_update_contained k sec cm st :
  cache_get k (cache st) = Some (mkEntry (Some sec) (Some cm)) →
  is_Some (secret_labels sec) → is_Some (cm_metadata cm) →
  (syncEntry k st).1 = Normal ().
Proof.
  intros Hk [sl Hsl] [cmm Hcmm]. rewrite (syncEntry_effect k _ st Hk).
  rewrite Hsl, Hcmm. case_bool_decide; [done|].
  by destruct (createSecretForConfigMap _ _ _) as [[s|e] st'].
Qed.

(** No error leaves [syncSecrets]: both outcomes of the pass are handled. *)
Lemma syncSecrets_ready st :
  isReady st = true →
  ∃ r st', _syncSecrets (set_isPendingSync false (set_isReady false st)) = (r, st') ∧
    syncSecrets st = syncSecrets_settle r st'.
Proof.
  intros Hr. unfold syncSecrets, syncSecrets_enter. rewrite Hr. simpl.
  destruct (_syncSecrets _) as [r st']. by exists r, st'.
Qed.

(** An orphan ends the pass: after the delete branch the version test reads
    [configMap.metadata] of the absent ConfigMap. *)
Lemma for_in_orphan k sec ks st :
  cache_get k (cache st) = Some (mkEntry (Some sec) None) →
  for_in (k :: ks) syncEntry st = (Throw TypeError, after_orphan k sec st).
Proof. intros Hk. by rewrite for_in_cons, Hk, (syncEntry_orphan k sec st Hk). Qed.

(** *** Garbage collection of empty entries *)

Lemma cache_get_elem k e c : cache_get k c = Some e → k ∈ c.*1.
Proof.
  induction c as [|[k' e'] c IH]; simpl; [done|].
  destruct (decide (k = k')) as [->|Hne]; [intros _; apply list_elem_of_here|].
  intros Hc. apply list_elem_of_further. by apply IH.
Qed.

Lemma syncEntry_Normal_cache k e st st' :
  cache_get k (cache st) = Some e →
  syncEntry k st = (Normal (), st') →
  cache_get k (cache st') ≠ Some (mkEntry None None) ∧
  ∀ k', k ≠ k' → cache_get k' (cache st') = cache_get k' (cache st).
Proof.
  intros Hk. rewrite (syncEntry_effect k e st Hk).
  assert (∀ cm ex what info,
    store_or_log k cm what (createSecretForConfigMap cm ex (emit info st)) = (Normal (), st') →
    configMap e = Some cm →
    cache_get k (cache st') ≠ Some (mkEntry None None) ∧
    ∀ k', k ≠ k' → cache_get k' (cache st') = cache_get k' (cache st)) as Hstore.
  { intros cm ex what info Hs He.
    destruct (createSecretForConfigMap _ _ _) as [r st1] eqn:Hc.
    apply createSecretForConfigMap_extends in Hc as (evs & (_ & _ & Hcache & _) & _).
    simpl in Hcache. destruct r as [s|err]; simpl in Hs; inversion Hs; subst; simpl.
    - rewrite Hcache, cache_get_set_eq. split; [done|].
      intros k' Hne. by rewrite cache_get_set_ne.
    - rewrite Hcache, Hk. split; [|done]. intros [= ->]. done. }
  destruct e as [[sec|] [cm|]]; simpl in *.
  - destruct (secret_labels sec), (cm_metadata cm); try done.
    case_bool_decide; [|by eauto].
    intros [= <-]. by rewrite Hk.
  - done.
  - eauto.
  - intros [= <-]. simpl. rewrite cache_get_delete_eq. split; [done|].
    intros k' Hne. by rewrite cache_get_delete_ne.
Qed.

Lemma for_in_collects ks st st' :
  for_in ks syncEntry st = (Normal (), st') →
  (∀ k, cache_get k (cache st) = Some (mkEntry None None) → k ∈ ks) →
  ∀ k, cache_get k (cache st') ≠ Some (mkEntry None None).
Proof.
  revert st. induction ks as [|k0 ks IH]; intros st Hrun Hin k.
  - inversion Hrun; subst. intros Hk. apply Hin in Hk. by apply elem_of_nil in Hk.
  - rewrite for_in_cons in Hrun.
    destruct (cache_get k0 (cache st)) as [e|] eqn:Hk0.
    + destruct (syncEntry k0 st) as [[[]|err] st1] eqn:Hs; [|done].
      destruct (syncEntry_Normal_cache _ _ _ _ Hk0 Hs) as [Hgone Hother].
      apply (IH st1 Hrun). intros k1 Hk1.
      destruct (decide (k0 = k1)) as [->|Hne]; [done|].
      rewrite Hother in Hk1 by done. apply Hin in Hk1.
      apply elem_of_cons in Hk1 as [->|]; done.
    + apply (IH st Hrun). intros k1 Hk1.
      destruct (decide (k0 = k1)) as [->|Hne]; [congruence|].
      apply Hin in Hk1. apply elem_of_cons in Hk1 as [->|]; done.
Qed.

(** An entry with neither half is removed by its iteration, which touches
    neither the cluster nor the trace (no cluster call); the loop goes on with
    the remaining keys; and a pass whose loop runs to its end leaves no entry
    with both halves absent in the cache. *)
Lemma empty_entry_is_collected :
  (∀ k st, cache_get k (cache st) = Some (mkEntry None None) →
     syncEntry k st = (Normal (), drop_entry k st) ∧
     cache_get k (cache (drop_entry k st)) = None ∧
     trace (drop_entry k st) = trace st ∧ cluster (drop_entry k st) = cluster st ∧
     ∀ ks, for_in (k :: ks) syncEntry st = for_in ks syncEntry (drop_entry k st)) ∧
  (∀ st st', _syncSecrets st = (Normal (), st') →
     ∀ k, cache_get k (cache st') ≠ Some (mkEntry None None)).
Proof.
  split.
  - intros k st Hk. pose proof (syncEntry_both_absent k st Hk) as Hs.
    repeat split; try done.
    + apply cache_get_delete_eq.
    + intros ks. by rewrite for_in_cons, Hk, Hs.
  - intros st st' Hrun. eapply for_in_collects; [exact Hrun|].
    intros k. apply cache_get_elem.
Qed.

(** If the read of the entry named by [source-key] (default [.env]) gives
    [undefined], the materialization throws [MissingSourceKey] and leaves the
    state as it found it: nothing was called, nothing logged.  The iteration
    of the pass for an entry with this ConfigMap changes neither the cache nor
    the cluster and emits no cluster call and no parser call. *)
Lemma missing_source_key_fails_first cm :
  read (cm_data cm) (sourceKey_of cm) = None →
  (∀ ex st, createSecretForConfigMap cm ex st = (Throw (MissingSourceKey cm), st)) ∧
  (∀ k (half : option V1Secret) st,
     cache_get k (cache st) = Some (mkEntry half (Some cm)) →
     ∃ evs, extends st (syncEntry k st).2 evs ∧
       cluster (syncEntry k st).2 = cluster st ∧
       existsb is_cluster_call evs = false ∧ parse_calls evs = []).
Proof.
  intros Hd.
  assert (∀ ex st, createSecretForConfigMap cm ex st = (Throw (MissingSourceKey cm), st))
    as Hfail by (intros; by apply createSecretForConfigMap_missing_source).
  split; [done|].
  intros k half st Hk. rewrite (syncEntry_effect k _ st Hk).
  destruct half as [sec|].
  - destruct (secret_labels sec), (cm_metadata cm);
      try (exists []; split; [apply extends_refl|done]).
    case_bool_decide; [exists []; split; [apply extends_refl|done]|].
    rewrite Hfail. simpl. eexists.
    split; [repeat split; simpl; by rewrite <- app_assoc|done].
  - rewrite Hfail. simpl. eexists.
    split; [repeat split; simpl; by rewrite <- app_assoc|done].
Qed.

Lemma syncEntry_converged_entry k e st :
  cache_get k (cache st) = Some e → converged e → syncEntry k st = (Normal (), st).
Proof.
  intros Hk (sec & cm & sl & cmm & -> & Hsl & Hcmm & Hv).
  rewrite (syncEntry_effect k _ st Hk), Hsl, Hcmm. by rewrite bool_decide_eq_true_2.
Qed.

Lemma for_in_converged ks st :
  (∀ k e, cache_get k (cache st) = Some e → converged e) →
  for_in ks syncEntry st = (Normal (), st).
Proof.
  intros Hall. induction ks as [|k ks IH]; [done|].
  rewrite for_in_cons. destruct (cache_get k (cache st)) as [e|] eqn:Hk; [|done].
  by rewrite (syncEntry_converged_entry k e st Hk (Hall k e Hk)).
Qed.

(** C4: an entry whose Secret carries, as version label, the resourceVersion
    of its ConfigMap is left alone: its iteration returns normally with the
    state unchanged (no create, no replace, no other call, no log line), the
    loop goes on with the remaining keys, and a pass over a cache of such
    entries changes nothing, however often it is repeated. *)
Theorem converged_entry_is_left_alone :
  (∀ k e st, cache_get k (cache st) = Some e → converged e →
     syncEntry k st = (Normal (), st) ∧
     ∀ ks, for_in (k :: ks) syncEntry st = for_in ks syncEntry st) ∧
  (∀ st, (∀ k e, cache_get k (cache st) = Some e → converged e) →
     _syncSecrets st = (Normal (), st)).
Proof.
  split.
  - intros k e st Hk Hconv.
    pose proof (syncEntry_converged_entry k e st Hk Hconv) as Hs.
    split; [done|]. intros ks. by rewrite for_in_cons, Hk, Hs.
  - intros st Hall. by apply for_in_converged.
Qed.

Lemma permitted_no_create sec evs :
  Forall (permitted (Some sec)) evs → existsb is_create evs = false.
Proof.
  induction 1 as [|e evs He _ IH]; [done|]. simpl. rewrite IH.
  destruct e; simpl in *; try done.
Qed.

(** For an entry with both halves whose version label differs from the
    ConfigMap's resourceVersion, the iteration logs the update and runs the
    materialization with the existing Secret.  No create call is made.  If a
    Secret comes back, the last call was the only write: a replace addressed
    to the ConfigMap's target name and namespace (those of the existing
    Secret, when the two halves have one identity), with a body whose version
    label is the ConfigMap's resourceVersion; and the Secret that came back is
    stored in the entry.  If the materialization throws, the error is logged
    and the cache is unchanged. *)
Lemma stale_entry_is_replaced k sec cm st :
  cache_get k (cache st) = Some (mkEntry (Some sec) (Some cm)) →
  stale sec cm →
  let st0 := emit (LogInfo ("ConfigMap for " +:+ k +:+ " updated. Updating secret.")) st in
  ∃ r st1 evs,
    createSecretForConfigMap cm (Some sec) st0 = (r, st1) ∧
    extends st0 st1 evs ∧ existsb is_create evs = false ∧
    match r with
    | Normal body =>
        syncEntry k st =
          (Normal (), set_cache (cache_set k (mkEntry (Some body) (Some cm)) (cache st)) st1) ∧
        ∃ pre built,
          evs = pre ++ [ReplaceSecret (cm_label cm L_target_secret) (cm_namespace cm) built] ∧
          existsb is_create_or_replace pre = false ∧
          version_label built = cm_version cm ∧
          (same_identity sec cm →
             last evs = Some (ReplaceSecret (secret_name sec) (secret_namespace sec) built))
    | Throw err =>
        syncEntry k st =
          (Normal (), emit (LogError (Some err) ("Failed to update secret " +:+ k)) st1) ∧
        cache st1 = cache st
    end.
Proof.
  intros Hk (sl & cmm & Hsl & Hcmm & Hv) st0.
  destruct (createSecretForConfigMap cm (Some sec) st0) as [r st1] eqn:Hc.
  destruct (createSecretForConfigMap_extends _ _ _ _ _ Hc) as (evs & Hext & Hperm).
  exists r, st1, evs. split; [done|]. split; [done|].
  split; [by eapply permitted_no_create|].
  pose proof (syncEntry_effect k _ st Hk) as Hs. cbv beta iota in Hs.
  rewrite Hsl, Hcmm in Hs.
  rewrite bool_decide_eq_false_2 in Hs by done. fold st0 in Hs. rewrite Hc in Hs.
  destruct Hext as (_ & _ & Hcache & _ & Htr). simpl in Hcache.
  destruct r as [body|err]; simpl in Hs; [|by rewrite Hs].
  rewrite Hcache in Hs. split; [done|].
  apply createSecretForConfigMap_Normal in Hc
    as (m & ls & sd & key & payload & st2 & w & Hm & Hls & Hsd & Hinit & Hp & ->).
  apply decryptionSecret_init_reads in Hinit as (evs1 & (_ & _ & _ & _ & Htr1) & F1).
  assert (cmm = m) as -> by congruence.
  exists (evs1 ++ [ParseEnv sd key]), (buildSecret m (ls !! L_target_secret) payload).
  assert (cm_label cm L_target_secret = ls !! L_target_secret) as Htarget.
  { unfold cm_label. rewrite Hm. simpl. by rewrite Hls. }
  assert (version_label (buildSecret m (ls !! L_target_secret) payload)
          = resourceVersion m) as Hvl.
  { destruct (buildSecret_labels m (ls !! L_target_secret) payload)
      as (lb & Hlb & _ & Hver & _).
    unfold version_label. by rewrite Hlb. }
  unfold cm_namespace, cm_version. rewrite Htarget, Hm. simpl in *.
  assert (evs = (evs1 ++ [ParseEnv sd key]) ++
                [ReplaceSecret (ls !! L_target_secret) (namespace m)
                   (buildSecret m (ls !! L_target_secret) payload)]) as ->.
  { rewrite Htr1, <- !app_assoc in Htr. do 2 apply app_inv_head in Htr.
    by rewrite <- app_assoc. }
  split; [done|]. split.
  { rewrite existsb_app. simpl. rewrite orb_false_r.
    clear -F1. induction F1 as [|e l He _ IH]; [done|]. simpl. rewrite IH.
    by destruct e. }
  split.
  { exact Hvl. }
  intros [Hn Hns]. rewrite last_snoc. rewrite Hn, Hns, Htarget. unfold cm_namespace.
  by rewrite Hm.
Qed.
(** *** Identity of the two halves of an entry *)

Lemma slash_split (a b c d : string) :
  no_slash a = true → no_slash c = true →
  a +:+ "/" +:+ b = c +:+ "/" +:+ d → a = c ∧ b = d.
Proof.
  revert c. induction a as [|x a IH]; intros [|y c]; cbn.
  - by intros _ _ [= Heq].
  - intros _ Hc [= <- _]. done.
  - intros Ha _ [= -> _]. done.
  - intros Ha Hc [= -> Heq].
    apply andb_prop in Ha as [_ Ha]. apply andb_prop in Hc as [_ Hc].
    by destruct (IH c Ha Hc Heq) as [-> ->].
Qed.

(** A Secret and a ConfigMap that the watch callbacks file under one key
    agree on name and namespace. *)
Lemma same_key_same_identity sec cm (ns1 n1 ns2 n2 : string) :
  secret_namespace sec = Some ns1 → secret_name sec = Some n1 →
  cm_namespace cm = Some ns2 → cm_label cm L_target_secret = Some n2 →
  no_slash ns1 = true → no_slash ns2 = true →
  pairKey (secret_namespace sec) (secret_name sec)
    = pairKey (cm_namespace cm) (cm_label cm L_target_secret) →
  same_identity sec cm.
Proof.
  intros Hns1 Hn1 Hns2 Hn2 Hs1 Hs2. unfold same_identity, pairKey.
  rewrite Hns1, Hn1, Hns2, Hn2. simpl. intros Heq.
  by destruct (slash_split _ _ _ _ Hs1 Hs2 Heq) as [-> ->].
Qed.

End Reconciler.

(** ** The methods at their awaits

    Run with no other callback in between, the methods of [Async] are the
    methods of the engine; and wherever they are resumed, they leave the
    flags and the timers of the scheduler alone. *)

Section Awaits.
Context {W : Type} `{!Collaborators W}.
Implicit Types (st : State W) (cm : V1ConfigMap) (sec : V1Secret) (k : string).

Lemma run_bind {A B} (x : Async.Res W A) (f : A → Async.T W B) :
  Async.run (Async.bind_res x f)
  = match Async.run x with
    | (Normal a, s) => Async.run (f a s)
    | (Throw e, s) => (Throw e, s)
    end.
Proof. induction x as [[a|e] s|s k IH]; simpl; [done..|apply IH]. Qed.

Lemma run_catch {A} (x : Async.Res W A) (h : JsError → Async.T W A) :
  Async.run (Async.catch_res x h)
  = match Async.run x with
    | (Normal a, s) => (Normal a, s)
    | (Throw e, s) => Async.run (h e s)
    end.
Proof. induction x as [[a|e] s|s k IH]; simpl; [done..|apply IH]. Qed.

Lemma run_with_nil {A} (x : Async.Res W A) : Async.run_with [] x = (Async.run x, []).
Proof. induction x as [r s|s k IH]; simpl; [done|apply IH]. Qed.

Lemma run_with_bind {A B} others (x : Async.Res W A) (f : A → Async.T W B) :
  Async.run_with others (Async.bind_res x f)
  = match Async.run_with others x with
    | (Normal a, s, rest) => Async.run_with rest (f a s)
    | (Throw e, s, rest) => (Throw e, s, rest)
    end.
Proof.
  revert others. induction x as [[a|e] s|s k IH]; intros others; simpl; [done..|].
  destruct others as [|g gs]; apply IH.
Qed.

Lemma run_with_catch {A} others (x : Async.Res W A) (h : JsError → Async.T W A) :
  Async.run_with others (Async.catch_res x h)
  = match Async.run_with others x with
    | (Normal a, s, rest) => (Normal a, s, rest)
    | (Throw e, s, rest) => Async.run_with rest (h e s)
    end.
Proof.
  revert others. induction x as [[a|e] s|s k IH]; intros others; simpl; [done..|].
  destruct others as [|g gs]; apply IH.
Qed.

Lemma refines_ret {A} (a : A) : refines (W := W) (mret a) (mret a).
Proof. done. Qed.

Lemma refines_throw {A} e : refines (W := W) (Async.throw e) (throw (A := A) e).
Proof. done. Qed.

Lemma refines_lift {A} (m : M W A) : refines (Async.lift m) m.
Proof. intros s. unfold Async.uninterrupted, Async.lift. by destruct (m s). Qed.

Lemma refines_await {A} (m : M W A) : refines (Async.await m) m.
Proof. intros s. unfold Async.uninterrupted, Async.await. by destruct (m s). Qed.

Lemma refines_bind {A B} (t : Async.T W A) (m : M W A) (f : A → Async.T W B) (g : A → M W B) :
  refines t m → (∀ a, refines (f a) (g a)) → refines (t ≫= f) (m ≫= g).
Proof.
  intros Ht Hf s. unfold Async.uninterrupted, mbind, Async.T_bind, Async.bind, M_bind, bind.
  rewrite run_bind. specialize (Ht s). unfold Async.uninterrupted in Ht. rewrite Ht.
  destruct (m s) as [[a|e] s']; [apply Hf|done].
Qed.

Lemma refines_catch {A} (t : Async.T W A) (m : M W A) (h : JsError → Async.T W A) (g : JsError → M W A) :
  refines t m → (∀ e, refines (h e) (g e)) → refines (Async.try_catch t h) (try_catch m g).
Proof.
  intros Ht Hh s. unfold Async.uninterrupted, Async.try_catch, try_catch.
  rewrite run_catch. specialize (Ht s). unfold Async.uninterrupted in Ht. rewrite Ht.
  destruct (m s) as [[a|e] s']; [done|apply Hh].
Qed.

Lemma refines_deref {A} (o : option A) : refines (W := W) (Async.deref o) (deref o).
Proof. apply refines_lift. Qed.

Lemma getDecryptionSecret_refines ns ksn key :
  refines (Async.getDecryptionSecret ns ksn key) (getDecryptionSecret ns ksn key).
Proof.
  unfold Async.getDecryptionSecret, getDecryptionSecret.
  apply refines_bind; [apply refines_await|]. intros sec.
  destruct (read (data sec) key) as [[v|k0]|]; done.
Qed.

Lemma createSecretWithConfigMapData_refines cm nm payload ex :
  refines (Async.createSecretWithConfigMapData cm nm payload ex)
          (createSecretWithConfigMapData cm nm payload ex).
Proof.
  unfold Async.createSecretWithConfigMapData, createSecretWithConfigMapData.
  apply refines_bind; [apply refines_lift|]. intros m.
  destruct ex; apply refines_await.
Qed.

Lemma createSecretForConfigMap_refines cm ex :
  refines (Async.createSecretForConfigMap cm ex) (createSecretForConfigMap cm ex).
Proof.
  unfold Async.createSecretForConfigMap, createSecretForConfigMap.
  destruct (read (cm_data cm) _) as [sd|]; [|done].
  apply refines_bind.
  - destruct (cm_label cm L_decryption_secret) as [ksn|]; [|done].
    destruct (truthy ksn); [|done].
    apply refines_bind; [apply refines_lift|]. intros m.
    apply refines_bind; [apply getDecryptionSecret_refines|]. done.
  - intros key. apply refines_bind; [apply refines_lift|]. intros m.
    apply refines_bind; [apply refines_lift|]. intros ls.
    apply refines_bind; [apply refines_await|]. intros payload.
    apply createSecretWithConfigMapData_refines.
Qed.

Lemma materialize_refines o ex :
  refines (Async.materialize o ex) (materialize o ex).
Proof.
  unfold Async.materialize, materialize.
  apply refines_bind; [apply refines_lift|]. intros cm. apply createSecretForConfigMap_refines.
Qed.

Lemma syncEntry_refines k : refines (Async.syncEntry k) (syncEntry k).
Proof.
  unfold Async.syncEntry, syncEntry.
  apply refines_bind.
  { intros s. apply (refines_lift (deref (cache_get k (cache s)))). }
  intros [secret configMap].
  destruct (absent secret && absent configMap); [apply refines_lift|].
  apply refines_bind.
  { destruct (absent configMap); [|done].
    apply refines_bind; [apply refines_lift|]. intros _.
    apply refines_catch; [|intros e; apply refines_lift].
    apply refines_bind; [apply refines_lift|]. intros s.
    apply refines_bind; [apply refines_lift|]. intros m.
    apply refines_bind; [apply refines_await|]. intros _. apply refines_lift. }
  intros _. destruct secret as [sec|].
  - apply refines_bind; [apply refines_lift|]. intros sm.
    apply refines_bind; [apply refines_lift|]. intros sl.
    apply refines_bind; [apply refines_lift|]. intros cm.
    apply refines_bind; [apply refines_lift|]. intros cmm.
    destruct (negb _); [|done].
    apply refines_bind; [apply refines_lift|]. intros _.
    apply refines_catch; [|intros e; apply refines_lift].
    apply refines_bind; [apply refines_lift|]. intros o.
    apply refines_bind; [apply materialize_refines|]. intros s. apply refines_lift.
  - apply refines_bind; [apply refines_lift|]. intros _.
    apply refines_catch; [|intros e; apply refines_lift].
    apply refines_bind; [apply refines_lift|]. intros o.
    apply refines_bind; [apply materialize_refines|]. intros s. apply refines_lift.
Qed.

Lemma for_in_refines ks : refines (Async.for_in ks Async.syncEntry) (for_in ks syncEntry).
Proof.
  induction ks as [|k ks IH]; [done|]. simpl.
  apply refines_bind; [|by intros _].
  intros s. unfold Async.uninterrupted.
  destruct (cache_get k (cache s)); [apply syncEntry_refines|done].
Qed.

Theorem _syncSecrets_refines : refines Async._syncSecrets _syncSecrets.
Proof. intros s. apply for_in_refines. Qed.

(** *** The flags are the scheduler's *)

Lemma same_flags_refl st : same_flags st st.
Proof. done. Qed.

Lemma res_ok_bind {A B} s0 (x : Async.Res W A) (f : A → Async.T W B) :
  res_ok s0 x → (∀ a, task_safe (f a)) → res_ok s0 (Async.bind_res x f).
Proof.
  intros Hx Hf. revert s0 Hx. induction x as [[a|e] s|s k IH]; intros s0 [Hs Hk]; simpl in *.
  - destruct (Hf a s) as [Hs' Hk']. split; [by eapply same_flags_trans|done].
  - done.
  - split; [done|]. intros s'. apply (IH s' s' (Hk s')).
Qed.

Lemma res_ok_catch {A} s0 (x : Async.Res W A) (h : JsError → Async.T W A) :
  res_ok s0 x → (∀ e, task_safe (h e)) → res_ok s0 (Async.catch_res x h).
Proof.
  intros Hx Hh. revert s0 Hx. induction x as [[a|e] s|s k IH]; intros s0 [Hs Hk]; simpl in *.
  - done.
  - destruct (Hh e s) as [Hs' Hk']. split; [by eapply same_flags_trans|done].
  - split; [done|]. intros s'. apply (IH s' s' (Hk s')).
Qed.

Lemma task_safe_bind {A B} (t : Async.T W A) (f : A → Async.T W B) :
  task_safe t → (∀ a, task_safe (f a)) → task_safe (t ≫= f).
Proof. intros Ht Hf s. apply res_ok_bind; [apply Ht|done]. Qed.

Lemma task_safe_catch {A} (t : Async.T W A) (h : JsError → Async.T W A) :
  task_safe t → (∀ e, task_safe (h e)) → task_safe (Async.try_catch t h).
Proof. intros Ht Hh s. apply res_ok_catch; [apply Ht|done]. Qed.

Lemma task_safe_ret {A} (a : A) : task_safe (W := W) (mret a).
Proof. by intros s. Qed.

Lemma task_safe_throw {A} e : task_safe (W := W) (Async.throw (A := A) e).
Proof. by intros s. Qed.

Lemma task_safe_lift {A} (m : M W A) :
  (∀ s, same_flags s (m s).2) → task_safe (Async.lift m).
Proof. intros Hm s. specialize (Hm s). unfold Async.lift. by destruct (m s). Qed.

Lemma task_safe_await {A} (m : M W A) :
  (∀ s, same_flags s (m s).2) → task_safe (Async.await m).
Proof.
  intros Hm s. specialize (Hm s). unfold Async.await. destruct (m s) as [r s'].
  split; [done|]. by intros s''.
Qed.

Ltac flags :=
  intros ?; unfold awaitDelete, awaitCreate, awaitReplace, awaitRead, awaitParse,
    bound, cache_set_secret; unfold_M; simpl;
  repeat match goal with
         | |- context [match ?x with _ => _ end] => destruct x
         | |- context [if ?x then _ else _] => destruct x
         end; done.

Ltac safe :=
  repeat first
    [ apply task_safe_ret | apply task_safe_throw
    | apply task_safe_lift; flags | apply task_safe_await; flags
    | apply task_safe_bind; [|intros ?]
    | apply task_safe_catch; [|intros ?] ].

Lemma getDecryptionSecret_safe ns ksn key :
  task_safe (Async.getDecryptionSecret ns ksn key).
Proof.
  unfold Async.getDecryptionSecret. apply task_safe_bind; [safe|]. intros sec.
  destruct (read (data sec) key) as [[v|k0]|]; safe.
Qed.

Lemma createSecretForConfigMap_safe cm ex :
  task_safe (Async.createSecretForConfigMap cm ex).
Proof.
  unfold Async.createSecretForConfigMap.
  destruct (read (cm_data cm) _) as [sd|]; [|safe].
  apply task_safe_bind.
  - destruct (cm_label cm L_decryption_secret) as [ksn|]; [|safe].
    destruct (truthy ksn); [|safe].
    apply task_safe_bind; [safe|]. intros m.
    apply task_safe_bind; [apply getDecryptionSecret_safe|]. intros; safe.
  - intros key. apply task_safe_bind; [safe|]. intros m.
    apply task_safe_bind; [safe|]. intros ls.
    apply task_safe_bind; [unfold Async.extractConfigFromEncryptedEnv; safe|]. intros payload.
    unfold Async.createSecretWithConfigMapData.
    apply task_safe_bind; [safe|]. intros m'. destruct ex; safe.
Qed.

Lemma materialize_safe o ex : task_safe (Async.materialize o ex).
Proof.
  unfold Async.materialize. apply task_safe_bind; [safe|]. intros cm.
  apply createSecretForConfigMap_safe.
Qed.

Lemma syncEntry_safe k : task_safe (Async.syncEntry k).
Proof.
  unfold Async.syncEntry. apply task_safe_bind.
  { intros s. apply (task_safe_lift (deref (cache_get k (cache s)))). flags. }
  intros [secret configMap].
  destruct (absent secret && absent configMap); [safe|].
  apply task_safe_bind.
  { destruct (absent configMap); safe. }
  intros _. destruct secret as [sec|].
  - apply task_safe_bind; [safe|]. intros sm.
    apply task_safe_bind; [safe|]. intros sl.
    apply task_safe_bind; [safe|]. intros cm.
    apply task_safe_bind; [safe|]. intros cmm.
    destruct (negb _); [|safe].
    apply task_safe_bind; [safe|]. intros _.
    apply task_safe_catch; [|intros; safe].
    apply task_safe_bind; [safe|]. intros o.
    apply task_safe_bind; [apply materialize_safe|]. intros; safe.
  - apply task_safe_bind; [safe|]. intros _.
    apply task_safe_catch; [|intros; safe].
    apply task_safe_bind; [safe|]. intros o.
    apply task_safe_bind; [apply materialize_safe|]. intros; safe.
Qed.

Lemma for_in_safe ks : task_safe (Async.for_in ks Async.syncEntry).
Proof.
  induction ks as [|k ks IH]; [safe|]. simpl.
  apply task_safe_bind; [|by intros _].
  intros s. destruct (cache_get k (cache s)); [apply syncEntry_safe|done].
Qed.

Lemma _syncSecrets_safe : task_safe Async._syncSecrets.
Proof. intros s. apply for_in_safe. Qed.

Lemma run_safe {A} s0 (x : Async.Res W A) : res_ok s0 x → same_flags s0 (Async.run x).2.
Proof.
  revert s0. induction x as [r s|s k IH]; intros s0 [Hs Hk]; simpl in *; [done|].
  eapply same_flags_trans; [exact Hs|]. apply IH, Hk.
Qed.

Lemma park_safe s0 (x : Async.Res W ()) :
  res_ok s0 x → same_flags s0 (park x).2 ∧ pass_safe (park x).1.
Proof. destruct x as [r s|s k]; intros [Hs Hk]; simpl in *; [done|]. split; [done|]. exact Hk. Qed.

Lemma finish_safe (p : Pass W) s : pass_safe p → same_flags s (finish p s).2.
Proof. destruct p as [r|k]; simpl; [done|]. intros Hk. apply run_safe, Hk. Qed.

(** A pass that is finished in one go is the pass of [_syncSecrets]. *)
Lemma finish_park st :
  finish (park (Async._syncSecrets st)).1 (park (Async._syncSecrets st)).2 = _syncSecrets st.
Proof.
  rewrite <- _syncSecrets_refines. unfold Async.uninterrupted.
  by destruct (Async._syncSecrets st).
Qed.
End Awaits.

(** ** Sync scheduler *)

Section Scheduler.
Context {W : Type} `{!Collaborators W}.
Implicit Types (st : State W) (l : Loop W) (a : Label).

Lemma call_not_ready l :
  isReady (st l) = false → call_syncSecrets l = with_st (set_isPendingSync true) l.
Proof. intros Hr. unfold call_syncSecrets, syncSecrets_enter. by rewrite Hr. Qed.

Lemma call_ready l :
  isReady (st l) = true →
  ∃ p st',
    (park (Async._syncSecrets (set_isPendingSync false (set_isReady false (st l)))) = (p, st') ∧
     pass_safe p) ∧
    call_syncSecrets l = mkLoop st' (inflight l ++ [p]) (S (passes l)) (booted l) ∧
    isReady st' = false ∧ isPendingSync st' = false ∧ timeouts st' = timeouts (st l).
Proof.
  intros Hr. unfold call_syncSecrets, syncSecrets_enter. rewrite Hr. simpl.
  destruct (park_safe _ _ (_syncSecrets_safe (set_isPendingSync false (set_isReady false (st l)))))
    as [(H1 & H2 & H3) Hp].
  destruct (park _) as [p st']. by exists p, st'.
Qed.

Lemma onConfigMap_effect t cm st :
  ∃ msg c ep,
    onConfigMap t cm st = (Normal (), set_epoch ep (set_cache c (emit (LogInfo msg) st))).
Proof. unfold onConfigMap. unfold_M. destruct t; by eexists _, _, _. Qed.

Lemma onSecret_effect t sec st :
  onSecret t sec st = (Throw TypeError, st) ∨
  ∃ msg c ep,
    onSecret t sec st = (Normal (), set_epoch ep (set_cache c (emit (LogInfo msg) st))).
Proof.
  unfold onSecret. unfold_M. destruct (metadata sec); [right|by left].
  destruct t; by eexists _, _, _.
Qed.

Lemma forallb_snoc {A} (f : A → bool) xs x :
  forallb f (xs ++ [x]) = forallb f xs && f x.
Proof. rewrite forallb_app. simpl. by rewrite andb_true_r. Qed.

Lemma pre_boot_step (w : W) l a : a ≠ Boot → pre_boot w l → pre_boot w (step a l).
Proof.
  intros Ha (Hb & Hr & Hp & Hn & Hi & Ht & Hw & Htr).
  destruct a; cbn [step]; try done.
  - rewrite call_not_ready by done. by repeat split.
  - destruct (onConfigMap_effect t cm (st l)) as (msg & c & ep & ->).
    rewrite call_not_ready by done. repeat split; simpl; try done.
    by rewrite forallb_snoc, Htr.
  - destruct (onSecret_effect t sec (st l)) as [->|(msg & c & ep & ->)].
    + by repeat split.
    + rewrite call_not_ready by done. repeat split; simpl; try done.
      by rewrite forallb_snoc, Htr.
  - rewrite Hi. by repeat split.
  - rewrite Hi. by repeat split.
  - rewrite Ht. by repeat split.
Qed.

Lemma pre_boot_exec (w : W) evs l :
  Forall (λ a, a ≠ Boot) evs → pre_boot w l → pre_boot w (exec evs l).
Proof.
  intros Hevs. revert l. induction Hevs as [|a evs Ha _ IH]; intros l Hl; [done|].
  simpl. apply IH. by apply pre_boot_step.
Qed.

Lemma pre_boot_new (w : W) : pre_boot w (new_Loop w).
Proof. by repeat split. Qed.

Lemma settle_flags r st :
  isReady (syncSecrets_settle r st) = true ∧
  isPendingSync (syncSecrets_settle r st) = isPendingSync st ∧
  timeouts (syncSecrets_settle r st) = timeouts st + (if isPendingSync st then 1 else 0).
Proof.
  unfold syncSecrets_settle.
  destruct r; simpl; destruct (isPendingSync st) eqn:Hp; simpl; rewrite ?Hp;
    (repeat split; [done..|lia]).
Qed.

(** The handlers of a pass, after the rest of the pass. *)
Lemma settle_step l p rs :
  inflight l = p :: rs → pass_safe p →
  ∃ r st', finish p (st l) = (r, st') ∧
    step Settle l = mkLoop (syncSecrets_settle r st') rs (passes l) (booted l) ∧
    isReady (syncSecrets_settle r st') = true ∧
    isPendingSync (syncSecrets_settle r st') = isPendingSync (st l) ∧
    timeouts (syncSecrets_settle r st')
      = timeouts (st l) + (if isPendingSync (st l) then 1 else 0).
Proof.
  intros Hi Hp. cbn [step]. rewrite Hi.
  pose proof (finish_safe p (st l) Hp) as (_ & Hpend & Ht).
  destruct (finish p (st l)) as [r st']. simpl in Hpend, Ht.
  exists r, st'. split; [done|]. split; [done|].
  destruct (settle_flags r st') as (-> & -> & ->). by rewrite Hpend, Ht.
Qed.

(** An answer moves the pass in flight on and leaves the flags alone. *)
Lemma answer_step l :
  Forall pass_safe (inflight l) →
  step Answer l = l ∨
  ∃ k rs p st', inflight l = Awaiting k :: rs ∧
    step Answer l = mkLoop st' (p :: rs) (passes l) (booted l) ∧
    same_flags (st l) st' ∧ pass_safe p.
Proof.
  intros Hsafe. cbn [step]. destruct (inflight l) as [|[r|k] rs] eqn:Hi; [by left..|].
  right. apply Forall_cons in Hsafe as [Hk _].
  destruct (park_safe _ _ (Hk (st l))) as [Hf Hp].
  destruct (park _) as [p st']. by exists k, rs, p, st'.
Qed.

Lemma loop_inv_call l : loop_inv l → loop_inv (call_syncSecrets l).
Proof.
  unfold loop_inv. intros [Hsafe Hl].
  destruct (isReady (st l)) eqn:Hr.
  - destruct (call_ready l Hr) as (p & st' & [_ Hp] & -> & Hr' & _). simpl.
    assert (inflight l = []) as Hi by (destruct (booted l); [done|by destruct Hl]).
    rewrite Hi. simpl. split; [by apply Forall_singleton|].
    destruct (booted l); [|by destruct Hl]. rewrite Hr'. by exists p.
  - rewrite call_not_ready by done. simpl. by rewrite Hr.
Qed.

Lemma loop_inv_step a l : loop_inv l → loop_inv (step a l).
Proof.
  intros Hl. destruct a; cbn [step].
  - by apply loop_inv_call.
  - destruct (booted l) eqn:Hb; [done|]. apply loop_inv_call.
    unfold loop_inv in *. rewrite Hb in Hl. simpl. destruct Hl as [Hsafe [_ Hi]]. done.
  - destruct (onConfigMap_effect t cm (st l)) as (msg & c & ep & ->).
    by apply loop_inv_call.
  - destruct (onSecret_effect t sec (st l)) as [->|(msg & c & ep & ->)].
    + by destruct l.
    + by apply loop_inv_call.
  - destruct Hl as [Hsafe Hl].
    destruct (answer_step l Hsafe) as [Heq|(k & rs & p & st' & Hi & Heq & (Hr & _) & Hp)];
      cbn [step] in Heq; rewrite Heq; [by split|].
    unfold loop_inv. simpl. rewrite Hi in Hsafe, Hl.
    apply Forall_cons in Hsafe as [_ Hrs]. split; [by apply Forall_cons|].
    rewrite Hr. destruct (booted l); [|by destruct Hl].
    destruct (isReady (st l)); [done|]. destruct Hl as [r' [= _ ->]]. exists p. reflexivity.
  - destruct (inflight l) as [|p rs] eqn:Hi; [done|].
    destruct Hl as [Hsafe Hl]. rewrite Hi in Hsafe, Hl.
    apply Forall_cons in Hsafe as [Hp Hrs].
    destruct (settle_step l p rs Hi Hp) as (r & st' & _ & Heq & Hr & _).
    cbn [step] in Heq. rewrite Hi in Heq. rewrite Heq.
    unfold loop_inv. simpl. split; [done|]. rewrite Hr.
    destruct (booted l); [|by destruct Hl].
    destruct (isReady (st l)); [done|]. destruct Hl as [r' [= _ ->]]. done.
  - destruct (timeouts (st l)) as [|n]; [done|]. by apply loop_inv_call.
Qed.

Lemma loop_inv_exec evs l : loop_inv l → loop_inv (exec evs l).
Proof.
  revert l. induction evs as [|a evs IH]; intros l Hl; [done|].
  simpl. apply IH. by apply loop_inv_step.
Qed.

Lemma loop_inv_new (w : W) : loop_inv (new_Loop w).
Proof. split; [constructor|done]. Qed.

Lemma loop_inv_length l : loop_inv l → length (inflight l) ≤ 1.
Proof.
  unfold loop_inv. intros [_ Hl]. destruct (booted l).
  - destruct (isReady (st l)); [rewrite Hl|destruct Hl as [r ->]]; simpl; lia.
  - destruct Hl as [_ ->]. simpl; lia.
Qed.

Lemma loop_inv_idle l : loop_inv l → isReady (st l) = true → inflight l = [].
Proof.
  unfold loop_inv. intros [_ Hl] Hr. rewrite Hr in Hl.
  destruct (booted l); [done|by destruct Hl].
Qed.

Lemma call_starts_when_idle l :
  loop_inv l →
  passes (call_syncSecrets l) = passes l ∨
  inflight l = [] ∧ passes (call_syncSecrets l) = S (passes l).
Proof.
  intros Hl. destruct (isReady (st l)) eqn:Hr.
  - right. destruct (call_ready l Hr) as (p & st' & _ & -> & _). simpl.
    split; [by apply loop_inv_idle|done].
  - left. by rewrite call_not_ready.
Qed.

Lemma step_starts_when_idle a l :
  loop_inv l →
  passes (step a l) = passes l ∨ inflight l = [] ∧ passes (step a l) = S (passes l).
Proof.
  intros Hl. destruct a; cbn [step].
  - by apply call_starts_when_idle.
  - destruct (booted l) eqn:Hb; [by left|].
    right. unfold loop_inv in Hl. rewrite Hb in Hl. destruct Hl as [_ [_ Hi]].
    split; [done|].
    destruct (call_ready (mkLoop (set_isReady true (st l)) (inflight l) (passes l) true))
      as (p & st' & _ & -> & _); done.
  - destruct (onConfigMap_effect t cm (st l)) as (msg & c & ep & ->).
    by apply (call_starts_when_idle (with_st _ l)).
  - destruct (onSecret_effect t sec (st l)) as [->|(msg & c & ep & ->)]; [by left|].
    by apply (call_starts_when_idle (with_st _ l)).
  - left. destruct (inflight l) as [|[r|k] rs]; [done..|]. by destruct (park _).
  - left. destruct (inflight l) as [|p rs]; [done|]. by destruct (finish _ _).
  - destruct (timeouts (st l)) as [|n]; [by left|].
    by apply (call_starts_when_idle (with_st _ l)).
Qed.


(** *** Triggers during a pass *)

Lemma busy_call l :
  busy l →
  busy (call_syncSecrets l) ∧ passes (call_syncSecrets l) = passes l ∧
  inflight (call_syncSecrets l) = inflight l ∧
  timeouts (st (call_syncSecrets l)) = timeouts (st l) ∧
  trace (st (call_syncSecrets l)) = trace (st l) ∧
  cluster (st (call_syncSecrets l)) = cluster (st l) ∧
  isPendingSync (st (call_syncSecrets l)) = true.
Proof. intros (Hb & Hr & Hi). rewrite call_not_ready by done. by repeat split. Qed.

Lemma with_st_id l : with_st (λ _, st l) l = l.
Proof. by destruct l. Qed.

Lemma busy_trigger a l :
  busy l → is_trigger a = true →
  busy (step a l) ∧ passes (step a l) = passes l ∧ inflight (step a l) = inflight l ∧
  timeouts (st (step a l)) = timeouts (st l) ∧
  (a = Call ∨ isPendingSync (st l) = true → isPendingSync (st (step a l)) = true).
Proof.
  intros Hl Ha. destruct a; try done; cbn [step].
  - destruct (busy_call l Hl) as (? & ? & ? & ? & _ & _ & ?). repeat (split; [assumption|]); auto.
  - destruct (onConfigMap_effect t cm (st l)) as (msg & c & ep & ->).
    assert (busy (with_st (λ _, set_epoch ep (set_cache c (emit (LogInfo msg) (st l)))) l)) as Hl'
      by (by destruct Hl as (? & ? & ?)).
    destruct (busy_call _ Hl') as (? & ? & ? & ? & _ & _ & ?). repeat (split; [assumption|]); auto.
  - destruct (onSecret_effect t sec (st l)) as [->|(msg & c & ep & ->)].
    + rewrite with_st_id. repeat (split; [done|]). by intros [|].
    + assert (busy (with_st (λ _, set_epoch ep (set_cache c (emit (LogInfo msg) (st l)))) l)) as Hl'
        by (by destruct Hl as (? & ? & ?)).
      destruct (busy_call _ Hl') as (? & ? & ? & ? & _ & _ & ?). repeat (split; [assumption|]); auto.
Qed.

Lemma busy_triggers evs l :
  busy l → Forall (λ a, is_trigger a = true) evs →
  busy (exec evs l) ∧ passes (exec evs l) = passes l ∧
  inflight (exec evs l) = inflight l ∧
  timeouts (st (exec evs l)) = timeouts (st l) ∧
  (Call ∈ evs ∨ isPendingSync (st l) = true → isPendingSync (st (exec evs l)) = true).
Proof.
  intros Hl Hevs. revert l Hl. induction Hevs as [|a evs Ha _ IH]; intros l Hl.
  - repeat (split; [done|]). intros [Hin|]; [|done]. by apply elem_of_nil in Hin.
  - destruct (busy_trigger a l Hl Ha) as (Hl1 & Hp1 & Hi1 & Ht1 & Hpend1).
    destruct (IH _ Hl1) as (Hl2 & Hp2 & Hi2 & Ht2 & Hpend2). simpl.
    repeat (split; [congruence|]).
    intros [Hin|Hpend].
    + apply elem_of_cons in Hin as [<-|Hin]; apply Hpend2; [right|by left].
      apply Hpend1. by left.
    + apply Hpend2. right. apply Hpend1. by right.
Qed.

(** *** After the pass *)

Lemma quiet_stays l evs :
  quiet l → Forall (λ a, a = Settle ∨ a = Timeout) evs → exec evs l = l.
Proof.
  intros (_ & _ & Hi & Ht) Hevs. induction Hevs as [|a evs [->| ->] _ IH]; [done|..];
    simpl; by rewrite ?Hi, ?Ht.
Qed.

Lemma rerun_after_settle l p :
  booted l = true → isReady (st l) = false → inflight l = [p] → pass_safe p →
  timeouts (st l) = 0 → isPendingSync (st l) = true →
  let l2 := exec [Settle; Timeout] l in
  busy l2 ∧ passes l2 = S (passes l) ∧
  isPendingSync (st l2) = false ∧ timeouts (st l2) = 0 ∧
  let l3 := step Settle l2 in
  quiet l3 ∧ passes l3 = S (passes l).
Proof.
  intros Hb Hr Hi Hsafe Ht Hp.
  destruct (settle_step l p [] Hi Hsafe) as (r & st' & _ & Heq & Hr1 & Hp1 & Ht1).
  rewrite Hp, Ht in Ht1. rewrite Hp in Hp1. simpl in Ht1.
  change (exec [Settle; Timeout] l) with (step Timeout (step Settle l)).
  rewrite Heq.
  set (l1 := with_st (set_timeouts 0) (mkLoop (syncSecrets_settle r st') [] (passes l) (booted l))).
  assert (step Timeout (mkLoop (syncSecrets_settle r st') [] (passes l) (booted l))
          = call_syncSecrets l1) as ->.
  { unfold l1. cbn [step st]. by rewrite Ht1. }
  destruct (call_ready l1) as (p' & st2 & [_ Hsafe'] & -> & Hr2 & Hp2 & Ht2); [done|].
  simpl in Ht2. subst l1. cbv zeta. cbn [inflight passes booted with_st app].
  split; [by repeat split; eauto|]. split; [done|]. split; [done|]. split; [done|].
  destruct (settle_step (mkLoop st2 [p'] (S (passes l)) (booted l)) p' [] eq_refl Hsafe')
    as (r' & st3 & _ & Heq' & Hr3 & Hp3 & Ht3).
  rewrite Heq'. cbn [st] in *. rewrite Hp2 in Hp3, Ht3. unfold quiet. simpl.
  rewrite Hr3, Hp3, Ht3, Ht2. done.
Qed.

(** C3: in every state the event loop reaches from a fresh Manager,
    - at most one pass is in flight, and a step starts a pass only when none
      is;
    - a call of [syncSecrets()] while the Manager is not ready only raises
      [isPendingSync];
    - the handlers of a finished pass raise [isReady], start no pass, and
      schedule one rerun exactly when [isPendingSync] is up, whatever the
      number of calls that raised it;
    - when a pass is in flight and no rerun is scheduled, any triggers, one of
      them a call, then the end of the pass and the rerun timer give exactly
      one more pass, after whose end nothing is left to run. *)
Theorem triggers_coalesce_and_passes_never_overlap (w : W) (evs : list Label) :
  let l := exec evs (new_Loop w) in
  (length (inflight l) ≤ 1 ∧
   ∀ a, passes (step a l) = passes l ∨
        inflight l = [] ∧ passes (step a l) = S (passes l)) ∧
  (isReady (st l) = false → step Call l = with_st (set_isPendingSync true) l) ∧
  (∀ r rs, inflight l = r :: rs →
     isReady (st (step Settle l)) = true ∧ passes (step Settle l) = passes l ∧
     timeouts (st (step Settle l))
       = timeouts (st l) + (if isPendingSync (st l) then 1 else 0)) ∧
  (busy l → timeouts (st l) = 0 →
   ∀ triggers, Forall (λ a, is_trigger a = true) triggers → Call ∈ triggers →
     let l1 := exec triggers l in
     passes l1 = passes l ∧ inflight l1 = inflight l ∧
     let l2 := exec [Settle; Timeout] l1 in
     busy l2 ∧ passes l2 = S (passes l) ∧
     let l3 := step Settle l2 in
     quiet l3 ∧ passes l3 = S (passes l) ∧
     ∀ more, Forall (λ a, a = Settle ∨ a = Timeout) more → exec more l3 = l3).
Proof.
  intros l. assert (loop_inv l) as Hinv by apply loop_inv_exec, loop_inv_new.
  split; [split; [by apply loop_inv_length|intros a; by apply step_starts_when_idle]|].
  split; [intros Hr; by apply call_not_ready|].
  split.
  { intros r rs Hi. destruct Hinv as [Hsafe _]. rewrite Hi in Hsafe.
    apply Forall_cons in Hsafe as [Hr _].
    destruct (settle_step l r rs Hi Hr) as (c & st' & _ & -> & Hr' & _ & Ht').
    simpl. by rewrite Hr', Ht'. }
  intros Hbusy Ht triggers Htr Hcall l1.
  destruct (busy_triggers triggers l Hbusy Htr) as (Hb1 & Hp1 & Hi1 & Ht1 & Hpend).
  fold l1 in Hb1, Hp1, Hi1, Ht1, Hpend.
  split; [done|]. split; [done|].
  destruct Hb1 as (Hboot & Hready & r & Hir).
  assert (pass_safe r) as Hsafe.
  { destruct Hinv as [Hsafe _]. rewrite <- Hi1, Hir in Hsafe.
    by apply Forall_cons in Hsafe as [? _]. }
  destruct (rerun_after_settle l1 r) as (Hb2 & Hp2 & Hpend2 & Ht2 & Hq & Hp3);
    [done|done|done|done|congruence|by apply Hpend; left|].
  split; [done|]. split; [congruence|]. split; [done|]. split; [congruence|].
  intros more Hmore. by apply quiet_stays.
Qed.

Lemma syncSecrets_not_ready st :
  isReady st = false → syncSecrets st = set_isPendingSync true st.
Proof. intros Hr. unfold syncSecrets, syncSecrets_enter. by rewrite Hr. Qed.

(** C10: as long as [start()] has not reached line 24, whatever calls and
    watch events arrive, the Manager is not ready, no pass has been started or
    is in flight, the cluster is untouched and the trace holds info lines
    only; a call of [syncSecrets()] changes nothing but [isPendingSync], which
    a fresh Manager has set already; and reaching line 24 starts the first
    pass. *)
Theorem calls_before_startup_only_record_pending (w : W) (evs : list Label) :
  Forall (λ a, a ≠ Boot) evs →
  let l := exec evs (new_Loop w) in
  isPendingSync (new_Manager w) = true ∧
  (isReady (st l) = false ∧ isPendingSync (st l) = true ∧
   passes l = 0 ∧ inflight l = [] ∧
   cluster (st l) = w ∧ forallb is_info (trace (st l)) = true) ∧
  (syncSecrets (st l) = set_isPendingSync true (st l) ∧
   step Call l = with_st (set_isPendingSync true) l) ∧
  (passes (step Boot l) = 1 ∧ ∃ r, inflight (step Boot l) = [r]).
Proof.
  intros Hevs l.
  destruct (pre_boot_exec w evs _ Hevs (pre_boot_new w))
    as (Hb & Hr & Hp & Hn & Hi & Ht & Hw & Htr).
  fold l in Hb, Hr, Hp, Hn, Hi, Ht, Hw, Htr.
  split; [done|]. split; [done|].
  split; [split; [by apply syncSecrets_not_ready|by apply call_not_ready]|].
  cbn [step]. rewrite Hb.
  destruct (call_ready (mkLoop (set_isReady true (st l)) (inflight l) (passes l) true))
    as (r & st' & _ & -> & _); [done|].
  simpl. rewrite Hn, Hi. split; [done|]. by exists r.
Qed.

End Scheduler.

(** ** Further properties of the materializer and the reconciler *)

Section Calls.
Context {W : Type} `{!Collaborators W}.
Implicit Types (st : State W) (cm : V1ConfigMap) (sec : V1Secret) (k : string) (c : Cache).

Lemma count_app f evs evs' : count f (evs ++ evs') = count f evs + count f evs'.
Proof. induction evs as [|e evs IH]; simpl; [done|]. rewrite IH. lia. Qed.

(** The events of the key resolution: nothing, or one read. *)
Lemma decryptionSecret_init_events cm st kr st1 :
  decryptionSecret_init cm st = (kr, st1) →
  ∃ evs, extends st st1 evs ∧
    (evs = [] ∨ ∃ ksn, evs = [ReadSecret ksn (cm_namespace cm)]).
Proof.
  intros Hk. apply decryptionSecret_init_inv in Hk.
  destruct (cm_label cm L_decryption_secret) as [ksn|].
  - destruct (truthy ksn).
    + destruct Hk as (m & r & Hm & Hg & _).
      apply getDecryptionSecret_inv in Hg as (rr & w & _ & -> & _).
      eexists. split; [apply extends_emit_cluster|]. right. exists ksn.
      unfold cm_namespace. by rewrite Hm.
    + destruct Hk as [_ ->]. exists []. split; [apply extends_refl|by left].
  - destruct Hk as [_ ->]. exists []. split; [apply extends_refl|by left].
Qed.

Ltac pick_stage :=
  first [ by (left; eauto) | by (right; left; eauto) | by (do 2 right; left; eauto)
        | by (do 3 right; left; eauto) | by (do 4 right; left) | by (do 5 right) ].

(** The events of a whole materialization, stage by stage. *)
Lemma createSecretForConfigMap_stages cm ex st r st' :
  createSecretForConfigMap cm ex st = (r, st') →
  ∃ evs, extends st st' evs ∧
    (omap stage_of evs = [] ∧ (∃ e, r = Throw e) ∨
     omap stage_of evs = [Reading] ∧ (∃ e, r = Throw e) ∨
     omap stage_of evs = [Parsing] ∧ (∃ e, r = Throw e) ∨
     omap stage_of evs = [Reading; Parsing] ∧ (∃ e, r = Throw e) ∨
     omap stage_of evs = [Parsing; Writing] ∨
     omap stage_of evs = [Reading; Parsing; Writing]) ∧
    length evs = length (omap stage_of evs) ∧
    Forall (permitted ex) evs.
Proof.
  intros Hc. destruct (createSecretForConfigMap_extends _ _ _ _ _ Hc) as (evs0 & Hext0 & Hperm).
  apply createSecretForConfigMap_inv in Hc.
  destruct (read (cm_data cm) _) as [sd|].
  2:{ destruct Hc as [-> ->]. exists []. split; [apply extends_refl|].
      split; [pick_stage|]. by split. }
  destruct Hc as (kr & st1 & Hk & Hc).
  apply decryptionSecret_init_events in Hk as (evs1 & E1 & Hev1).
  destruct kr as [key|e].
  { destruct (cm_metadata cm ≫= labels) as [ls|].
    - assert (E2 := extends_emit st1 (ParseEnv sd key)).
      destruct (parseEnvContent sd key) as [payload|e].
      + apply createSecretWithConfigMapData_inv in Hc.
        destruct (cm_metadata cm) as [m|].
        * exists (evs1 ++ [ParseEnv sd key] ++
                  [write_call ex (ls !! L_target_secret) (namespace m)
                     (buildSecret m (ls !! L_target_secret) payload)]).
          split.
          { rewrite app_assoc. eapply extends_trans; [by eapply extends_trans|].
            destruct ex; destruct Hc as (w & _ & ->); apply extends_emit_cluster. }
          destruct Hev1 as [->|[ksn ->]]; destruct ex; simpl;
            (split; [pick_stage|]); (split; [done|]);
            repeat (first [apply Forall_nil | apply Forall_cons_2]);
            simpl; first [done|eauto].
        * destruct Hc as [-> ->]. exists (evs1 ++ [ParseEnv sd key]).
          split; [by eapply extends_trans|].
          destruct Hev1 as [->|[ksn ->]]; simpl;
            (split; [pick_stage|]); (split; [done|]); by repeat constructor.
      + destruct Hc as [-> ->]. exists (evs1 ++ [ParseEnv sd key]).
        split; [by eapply extends_trans|].
        destruct Hev1 as [->|[ksn ->]]; simpl;
          (split; [pick_stage|]); (split; [done|]); by repeat constructor.
    - destruct Hc as [-> ->]. exists evs1. split; [done|].
      destruct Hev1 as [->|[ksn ->]]; simpl;
        (split; [pick_stage|]); (split; [done|]); by repeat constructor. }
  destruct Hc as [-> ->]. exists evs1. split; [done|].
  destruct Hev1 as [->|[ksn ->]]; simpl;
    (split; [pick_stage|]); (split; [done|]); by repeat constructor.
Qed.

Lemma omap_stage_length evs : length (omap stage_of evs) ≤ length evs.
Proof.
  induction evs as [|e evs IH]; csimpl; [done|].
  destruct (stage_of e); csimpl; lia.
Qed.

Lemma stages_inv evs (stages : list Stage) :
  omap stage_of evs = stages → length evs = length stages →
  Forall2 (λ e s, stage_of e = Some s) evs stages.
Proof.
  revert stages. induction evs as [|e evs IH]; intros stages; csimpl.
  - intros <- _. constructor.
  - destruct (stage_of e) as [s|] eqn:He.
    + intros <- [= Hlen]. constructor; [done|]. by apply IH.
    + intros <- Hlen. pose proof (omap_stage_length evs) as Hle. lia.
Qed.

Lemma createSecretForConfigMap_counts cm ex st r st' :
  createSecretForConfigMap cm ex st = (r, st') →
  ∃ evs, extends st st' evs ∧
    count is_write evs ≤ 1 ∧ count is_read evs ≤ 1 ∧ count is_parse evs ≤ 1 ∧
    count is_delete evs = 0 ∧ count is_error_log evs = 0.
Proof.
  intros Hc. apply createSecretForConfigMap_stages in Hc as (evs & Hext & Hst & Hlen & _).
  exists evs. split; [done|].
  assert (∃ stages, Forall2 (λ e s, stage_of e = Some s) evs stages ∧ length stages ≤ 3 ∧
            NoDup stages) as (stages & HF & _ & Hnd).
  { destruct Hst as [[Hs _]|[[Hs _]|[[Hs _]|[[Hs _]|[Hs|Hs]]]]];
      rewrite Hs in Hlen; eexists; (split; [by apply stages_inv|]);
      (split; [simpl; lia|]); by apply (bool_decide_unpack _). }
  clear -HF Hnd.
  assert (∀ (f : Event → bool) (s0 : Stage),
            (∀ e, f e = true → stage_of e = Some s0) → count f evs ≤ 1) as Hone.
  { intros f s0 Hf. revert Hnd. induction HF as [|e s evs stages He HF IH]; intros Hnd; [simpl; lia|].
    apply NoDup_cons in Hnd as [Hnotin Hnd]. simpl.
    destruct (f e) eqn:Hfe; [|by apply IH].
    assert (s = s0) as -> by (apply Hf in Hfe; congruence).
    assert (count f evs = 0) as ->; [|lia].
    clear -HF Hnotin Hf. induction HF as [|e' s' evs stages He' HF IH]; [done|]. simpl.
    apply not_elem_of_cons in Hnotin as [Hne Hnotin].
    destruct (f e') eqn:Hfe'; [apply Hf in Hfe'; congruence|by apply IH]. }
  assert (∀ (f : Event → bool), (∀ e, f e = true → stage_of e = None) → count f evs = 0) as Hzero.
  { intros f Hf. clear -HF Hf. induction HF as [|e s evs stages He HF IH]; [done|]. simpl.
    destruct (f e) eqn:Hfe; [apply Hf in Hfe; congruence|done]. }
  repeat split.
  - assert (count is_write evs = count is_create_or_replace evs + count is_delete evs) as ->.
    { clear. induction evs as [|[] evs IH]; simpl; lia. }
    rewrite (Hzero is_delete) by (by intros []).
    rewrite Nat.add_0_r. apply (Hone _ Writing). by intros [].
  - apply (Hone _ Reading). by intros [].
  - apply (Hone _ Parsing). by intros [].
  - apply Hzero. by intros [].
  - apply Hzero. by intros [].
Qed.

(** *** What one iteration and one pass emit *)

Lemma count_log f evs :
  (∀ e, f e = true → is_info e = false ∧ is_error_log e = false) →
  Forall (λ e, is_info e = true ∨ is_error_log e = true) evs → count f evs = 0.
Proof.
  intros Hf. induction 1 as [|e evs He _ IH]; [done|]. simpl. rewrite IH.
  destruct (f e) eqn:Hfe; [|done]. apply Hf in Hfe as [??]. destruct He; congruence.
Qed.

Lemma store_or_log_events k cm what ex info st (f : Event → bool) :
  is_call f →
  ∃ evs, trace (store_or_log k cm what
                  (createSecretForConfigMap cm ex (emit (LogInfo info) st))).2
           = trace st ++ evs ∧
    ∃ evsM, count f evs = count f evsM ∧
      count is_write evsM ≤ 1 ∧ count is_read evsM ≤ 1 ∧ count is_parse evsM ≤ 1.
Proof.
  intros Hf.
  destruct (createSecretForConfigMap _ _ _) as [r st1] eqn:Hc.
  apply createSecretForConfigMap_counts in Hc
    as (evsM & (_ & _ & _ & _ & Htr) & Hw & Hr & Hp & _).
  simpl in Htr.
  destruct r as [s|e]; simpl.
  - exists ([LogInfo info] ++ evsM). split; [by rewrite Htr, <- app_assoc|].
    exists evsM. split; [|done]. rewrite count_app. simpl.
    destruct (f (LogInfo info)) eqn:Hfi; [by apply Hf in Hfi as [??]|done].
  - exists ([LogInfo info] ++ evsM ++ [LogError (Some e) ("Failed to " +:+ what +:+ " secret " +:+ k)]).
    split; [by rewrite Htr, <- !app_assoc|].
    exists evsM. split; [|done]. rewrite !count_app. simpl.
    destruct (f (LogInfo info)) eqn:Hfi; [by apply Hf in Hfi as [??]|].
    destruct (f (LogError _ _)) eqn:Hfe; [by apply Hf in Hfe as [??]|]. lia.
Qed.

Lemma syncEntry_events k st :
  ∃ evs, trace (syncEntry k st).2 = trace st ++ evs ∧
    count is_write evs ≤ 1 ∧ count is_read evs ≤ 1 ∧ count is_parse evs ≤ 1.
Proof.
  assert (∃ evs, trace st = trace st ++ evs ∧
            count is_write evs ≤ 1 ∧ count is_read evs ≤ 1 ∧ count is_parse evs ≤ 1) as Hnil.
  { exists []. rewrite app_nil_r. simpl. repeat split; lia. }
  assert (∀ cm ex what info,
    ∃ evs, trace (store_or_log k cm what
                    (createSecretForConfigMap cm ex (emit (LogInfo info) st))).2
             = trace st ++ evs ∧
      count is_write evs ≤ 1 ∧ count is_read evs ≤ 1 ∧ count is_parse evs ≤ 1) as Hstore.
  { intros cm ex what info.
    destruct (store_or_log_events k cm what ex info st is_write) as (evs & Htr & evsM & Hw & Hw1 & _);
      [by intros []|].
    destruct (store_or_log_events k cm what ex info st is_read) as (evs' & Htr' & evsM' & Hr & _ & Hr1 & _);
      [by intros []|].
    destruct (store_or_log_events k cm what ex info st is_parse) as (evs'' & Htr'' & evsM'' & Hp & _ & _ & Hp1);
      [by intros []|].
    rewrite Htr in Htr', Htr''. apply app_inv_head in Htr', Htr''. subst evs' evs''.
    exists evs. split; [done|]. lia. }
  destruct (cache_get k (cache st)) as [e|] eqn:Hk.
  2:{ unfold syncEntry. unfold_M. rewrite Hk. exact Hnil. }
  rewrite (syncEntry_effect k e st Hk).
  destruct e as [[sec|] [cm|]]; [| |by apply Hstore|exact Hnil].
  - destruct (secret_labels sec), (cm_metadata cm); try exact Hnil.
    case_bool_decide; [exact Hnil|]. apply Hstore.
  - simpl. unfold after_orphan. destruct (metadata sec) as [m|]; simpl.
    + destruct (deleteNamespacedSecret _ _ _) as [[[]|err] w]; simpl;
        rewrite <- !app_assoc; eexists; (split; [reflexivity|]); simpl; lia.
    + rewrite <- !app_assoc. eexists; (split; [reflexivity|]); simpl; lia.
Qed.

Lemma for_in_events ks st :
  ∃ evs, trace (for_in ks syncEntry st).2 = trace st ++ evs ∧
    count is_write evs ≤ length ks ∧ count is_read evs ≤ length ks ∧
    count is_parse evs ≤ length ks.
Proof.
  revert st. induction ks as [|k ks IH]; intros st.
  - exists []. rewrite app_nil_r. simpl. repeat split; lia.
  - rewrite for_in_cons. destruct (cache_get k (cache st)).
    + destruct (syncEntry_events k st) as (evs1 & Htr1 & Hw1 & Hr1 & Hp1).
      destruct (syncEntry k st) as [[[]|err] st1]; simpl in *.
      * destruct (IH st1) as (evs2 & Htr2 & Hw2 & Hr2 & Hp2).
        exists (evs1 ++ evs2). rewrite Htr2, Htr1, <- app_assoc, !count_app.
        split; [done|]. lia.
      * exists evs1. split; [done|]. lia.
    + destruct (IH st) as (evs & Htr & Hw & Hr & Hp). exists evs. split; [done|]. simpl. lia.
Qed.

(** X1: a pass only adds to the trace, and what it adds holds at most one
    write call of the cluster (delete, create or replace), at most one read
    of a decryption Secret and at most one call of the parser for each entry
    the cache had when the pass began. *)
Theorem pass_calls_at_most_once_per_entry st :
  ∃ evs, trace (_syncSecrets st).2 = trace st ++ evs ∧
    count is_write evs ≤ length (cache st) ∧
    count is_read evs ≤ length (cache st) ∧
    count is_parse evs ≤ length (cache st).
Proof.
  destruct (for_in_events (cache st).*1 st) as (evs & Htr & Hw & Hr & Hp).
  rewrite length_fmap in Hw, Hr, Hp. by exists evs.
Qed.

(** X2: a materialization emits nothing but calls, no log line, and at most
    one of each kind, in this order: the read of the decryption Secret, the
    parser, the write.  It never writes without having parsed, and it returns
    a Secret only after its write call. *)
Theorem materialization_reads_then_parses_then_writes cm ex st r st' :
  createSecretForConfigMap cm ex st = (r, st') →
  ∃ evs, extends st st' evs ∧
    length (omap stage_of evs) = length evs ∧
    sublist (omap stage_of evs) [Reading; Parsing; Writing] ∧
    (Writing ∈ omap stage_of evs → Parsing ∈ omap stage_of evs) ∧
    (∀ body, r = Normal body → Writing ∈ omap stage_of evs).
Proof.
  intros Hc. apply createSecretForConfigMap_stages in Hc as (evs & Hext & Hst & Hlen & _).
  exists evs. split; [done|]. split; [done|].
  destruct Hst as [[-> [e ->]]|[[-> [e ->]]|[[-> [e ->]]|[[-> [e ->]]|[->| ->]]]]];
    (split; [repeat first [apply sublist_nil | apply sublist_skip | apply sublist_cons]|]);
    (split; [by apply (bool_decide_unpack _)|]); intros body; try done;
    intros _; by apply (bool_decide_unpack _).
Qed.

(** X3: when the parser throws, the materialization throws the same error,
    and the cluster has been asked neither to create nor to replace a
    Secret. *)
Theorem parser_failure_stops_the_materialization cm ex st r st' :
  createSecretForConfigMap cm ex st = (r, st') →
  ∃ evs, extends st st' evs ∧
    ∀ content key e, ParseEnv content key ∈ evs → parseEnvContent content key = Throw e →
      r = Throw e ∧ existsb is_create_or_replace evs = false.
Proof.
  intros Hc. destruct (createSecretForConfigMap_extends _ _ _ _ _ Hc) as (evs & Hext & _).
  exists evs. split; [done|]. intros content key e Hin Hparse.
  destruct Hext as (_ & _ & _ & _ & Htr).
  apply createSecretForConfigMap_inv in Hc.
  destruct (read (cm_data cm) _) as [sd|].
  2:{ destruct Hc as [-> ->]. rewrite <- (app_nil_r (trace st)) in Htr at 1.
      apply app_inv_head in Htr as <-. by apply elem_of_nil in Hin. }
  destruct Hc as (kr & st1 & Hk & Hc).
  apply decryptionSecret_init_events in Hk as (evs1 & (_ & _ & _ & _ & Htr1) & Hev1).
  assert (∀ x y, ParseEnv x y ∉ evs1) as Hnoparse.
  { intros x y Hin1. destruct Hev1 as [->|[ksn ->]].
    - by apply elem_of_nil in Hin1.
    - by apply list_elem_of_singleton in Hin1. }
  assert (existsb is_create_or_replace evs1 = false) as Hnowrite.
  { by destruct Hev1 as [->|[ksn ->]]. }
  destruct kr as [key0|e0].
  2:{ destruct Hc as [-> ->]. rewrite Htr1 in Htr. apply app_inv_head in Htr as <-.
      by apply Hnoparse in Hin. }
  destruct (cm_metadata cm ≫= labels) as [ls|].
  2:{ destruct Hc as [-> ->]. rewrite Htr1 in Htr. apply app_inv_head in Htr as <-.
      by apply Hnoparse in Hin. }
  destruct (parseEnvContent sd key0) as [payload|e0] eqn:Hp0.
  - exfalso. apply createSecretWithConfigMapData_inv in Hc.
    assert (∃ tl, evs = evs1 ++ ParseEnv sd key0 :: tl ∧ ∀ x y, ParseEnv x y ∉ tl)
      as (tl & -> & Htl).
    { destruct (cm_metadata cm) as [m|].
      - destruct ex; destruct Hc as (w & _ & ->); simpl in Htr;
          rewrite Htr1, <- !app_assoc in Htr; apply app_inv_head in Htr as <-;
          eexists; (split; [reflexivity|]); intros x y Hin1;
          by apply list_elem_of_singleton in Hin1.
      - destruct Hc as [_ ->]. simpl in Htr. rewrite Htr1, <- !app_assoc in Htr.
        apply app_inv_head in Htr as <-. eexists; (split; [reflexivity|]).
        intros x y Hin1. by apply elem_of_nil in Hin1. }
    apply elem_of_app in Hin as [Hin|Hin]; [by apply Hnoparse in Hin|].
    apply elem_of_cons in Hin as [[= -> ->]|Hin]; [congruence|by apply Htl in Hin].
  - destruct Hc as [-> ->]. simpl in Htr. rewrite Htr1, <- !app_assoc in Htr.
    apply app_inv_head in Htr as <-.
    apply elem_of_app in Hin as [Hin|Hin]; [by apply Hnoparse in Hin|].
    apply list_elem_of_singleton in Hin as [= -> ->].
    split; [congruence|]. rewrite existsb_app, Hnowrite. done.
Qed.

Lemma permitted_create_only evs :
  Forall (permitted None) evs →
  existsb is_replace evs = false ∧ existsb is_delete evs = false.
Proof.
  induction 1 as [|e evs He _ [IH1 IH2]]; [done|]. simpl. rewrite IH1, IH2.
  destruct e; simpl in *; done.
Qed.

(** The iteration of an entry that has a ConfigMap and no Secret, when no
    other callback has a turn during its awaits. *)
Lemma syncEntry_missing_secret k cm st :
  cache_get k (cache st) = Some (mkEntry None (Some cm)) →
  let st0 := emit (LogInfo ("Secret for " +:+ k +:+ " does not exist. Creating secret.")) st in
  ∃ r st1 evs,
    createSecretForConfigMap cm None st0 = (r, st1) ∧
    extends st0 st1 evs ∧
    existsb is_replace evs = false ∧ existsb is_delete evs = false ∧
    match r with
    | Normal body =>
        syncEntry k st =
          (Normal (), set_cache (cache_set k (mkEntry (Some body) (Some cm)) (cache st)) st1) ∧
        ∃ pre built,
          evs = pre ++ [CreateSecret (cm_namespace cm) built] ∧
          existsb is_create_or_replace pre = false ∧
          secret_name built = cm_label cm L_target_secret ∧
          secret_namespace built = cm_namespace cm
    | Throw err =>
        syncEntry k st =
          (Normal (), emit (LogError (Some err) ("Failed to create secret " +:+ k)) st1) ∧
        cache st1 = cache st
    end.
Proof.
  intros Hk st0.
  destruct (createSecretForConfigMap cm None st0) as [r st1] eqn:Hc.
  destruct (createSecretForConfigMap_extends _ _ _ _ _ Hc) as (evs & Hext & Hperm).
  exists r, st1, evs. split; [done|]. split; [done|].
  destruct (permitted_create_only evs Hperm) as [Hnr Hnd].
  split; [done|]. split; [done|].
  pose proof (syncEntry_create k cm st Hk) as Hs. fold st0 in Hs. rewrite Hc in Hs.
  destruct Hext as (_ & _ & Hcache & _ & Htr). simpl in Hcache.
  destruct r as [body|err]; simpl in Hs; [|by rewrite Hs].
  rewrite Hcache in Hs. split; [done|].
  apply createSecretForConfigMap_Normal in Hc
    as (m & ls & sd & key & payload & st2 & w & Hm & Hls & Hsd & Hinit & Hp & ->).
  apply decryptionSecret_init_reads in Hinit as (evs1 & (_ & _ & _ & _ & Htr1) & F1).
  exists (evs1 ++ [ParseEnv sd key]), (buildSecret m (ls !! L_target_secret) payload).
  unfold cm_namespace, cm_label. rewrite Hm. simpl. rewrite Hls. simpl in *.
  split.
  { rewrite Htr1, <- !app_assoc in Htr. do 2 apply app_inv_head in Htr.
    by rewrite <- app_assoc. }
  split; [|done].
  rewrite existsb_app. simpl. rewrite orb_false_r.
  clear -F1. induction F1 as [|e l He _ IH]; [done|]. simpl. rewrite IH. by destruct e.
Qed.

(** The create branch, lines 123-129, at its awaits. *)
Lemma syncEntry_create_at_awaits k cm st :
  cache_get k (cache st) = Some (mkEntry None (Some cm)) →
  Async.syncEntry k st
  = Async.catch_res
      (Async.bind_res
         (Async.createSecretForConfigMap cm None
            (emit (LogInfo ("Secret for " +:+ k +:+ " does not exist. Creating secret.")) st))
         (λ s, Async.cache_set_secret k (generation k st) s))
      (λ err, Async.logError (Some err) ("Failed to create secret " +:+ k)).
Proof.
  intros Hk. unfold Async.syncEntry, Async.deref, Async.lift.
  unfold mbind, Async.T_bind, Async.bind. cbn [deref]. rewrite Hk. reflexivity.
Qed.

(** X4: the iteration of an entry that has a ConfigMap and no Secret logs
    its line, takes hold of the entry object and materializes the ConfigMap
    with no existing Secret.  Whatever the other callbacks do while the
    iteration awaits the cluster: if the materialization throws, the
    iteration logs [Failed to create secret] with the error and the key and
    returns normally; if it returns a Secret, the iteration puts it into the
    object it took hold of and returns normally.  That object is still the
    entry of the key only if no watch callback has stored a new one under the
    key in the meantime: then the cache gets the Secret beside the ConfigMap
    of the entry; otherwise the cache stays as the callbacks left it and does
    not get the Secret.  When no other callback has a turn, the
    materialization neither replaces nor deletes anything; if it returns a
    Secret, the last call was the one create call, for the name of the
    [target-secret] label in the namespace of the ConfigMap, and the cache
    holds that Secret beside the ConfigMap; if it throws, the cache is
    unchanged. *)
Theorem missing_secret_is_created k cm st :
  cache_get k (cache st) = Some (mkEntry None (Some cm)) →
  let st0 := emit (LogInfo ("Secret for " +:+ k +:+ " does not exist. Creating secret.")) st in
  (∀ others : list (State W → State W),
     ∃ r st1 rest,
       Async.run_with others (Async.createSecretForConfigMap cm None st0) = (r, st1, rest) ∧
       match r with
       | Normal body =>
           Async.run_with others (Async.syncEntry k st)
           = (Normal (),
              match cache_get k (cache st1) with
              | Some e =>
                  if bool_decide (generation k st1 = generation k st)
                  then set_cache
                         (cache_set k (mkEntry (Some body) (configMap e)) (cache st1)) st1
                  else st1
              | None => st1
              end,
              rest)
       | Throw err =>
           Async.run_with others (Async.syncEntry k st)
           = (Normal (),
              emit (LogError (Some err) ("Failed to create secret " +:+ k)) st1, rest)
       end) ∧
  ∃ r st1 evs,
    Async.uninterrupted (Async.createSecretForConfigMap cm None) st0 = (r, st1) ∧
    extends st0 st1 evs ∧
    existsb is_replace evs = false ∧ existsb is_delete evs = false ∧
    match r with
    | Normal body =>
        Async.uninterrupted (Async.syncEntry k) st =
          (Normal (), set_cache (cache_set k (mkEntry (Some body) (Some cm)) (cache st)) st1) ∧
        ∃ pre built,
          evs = pre ++ [CreateSecret (cm_namespace cm) built] ∧
          existsb is_create_or_replace pre = false ∧
          secret_name built = cm_label cm L_target_secret ∧
          secret_namespace built = cm_namespace cm
    | Throw err =>
        Async.uninterrupted (Async.syncEntry k) st =
          (Normal (), emit (LogError (Some err) ("Failed to create secret " +:+ k)) st1) ∧
        cache st1 = cache st
    end.
Proof.
  intros Hk st0. split.
  - intros others.
    destruct (Async.run_with others (Async.createSecretForConfigMap cm None st0))
      as [[r st1] rest] eqn:Hrun.
    exists r, st1, rest. split; [done|].
    rewrite (syncEntry_create_at_awaits k cm st Hk), run_with_catch, run_with_bind.
    fold st0. rewrite Hrun. destruct r as [body|err]; [|done].
    unfold Async.cache_set_secret, Async.lift, cache_set_secret, modify. simpl.
    by destruct (cache_get k (cache st1)); [case_bool_decide|].
  - rewrite (syncEntry_refines k st), (createSecretForConfigMap_refines cm None st0).
    apply (syncEntry_missing_secret k cm st Hk).
Qed.

(** X5: the iteration of an entry that has a Secret and no ConfigMap logs
    its line and asks the cluster to delete the Secret under the name and the
    namespace of the Secret's own metadata, not under the key of the entry.
    If the cluster accepts, the entry leaves the cache; if it refuses, the
    refusal is logged with the key and the entry stays.  Either way the state
    of the cluster is the one the call returned. *)
Theorem orphan_is_deleted_by_its_own_name k sec m st :
  cache_get k (cache st) = Some (mkEntry (Some sec) None) →
  metadata sec = Some m →
  let st' := (syncEntry k st).2 in
  let info := LogInfo ("ConfigMap for " +:+ k +:+ " not found. Deleting secret.") in
  match deleteNamespacedSecret (name m) (namespace m) (cluster st) with
  | (Normal _, w) =>
      trace st' = trace st ++ [info; DeleteSecret (name m) (namespace m)] ∧
      cache st' = cache_delete k (cache st) ∧ cluster st' = w
  | (Throw err, w) =>
      trace st' = trace st ++ [info; DeleteSecret (name m) (namespace m);
                               LogError (Some err) ("Failed to delete secret " +:+ k)] ∧
      cache st' = cache st ∧ cluster st' = w
  end.
Proof.
  intros Hk Hm. rewrite (syncEntry_orphan k sec st Hk). simpl.
  unfold after_orphan. rewrite Hm.
  destruct (deleteNamespacedSecret _ _ _) as [[[]|err] w]; simpl;
    by rewrite <- !app_assoc.
Qed.

(** X6: when an entry has both halves but the Secret carries no labels (or
    the ConfigMap no metadata), the version test throws [TypeError] before
    anything is logged or called.  No handler of the loop catches it: the
    pass ends there, the keys after this one are not visited, and
    [syncSecrets] logs [Failed to sync secrets]. *)
Theorem secret_without_labels_ends_the_pass k sec cm st :
  cache_get k (cache st) = Some (mkEntry (Some sec) (Some cm)) →
  secret_labels sec = None ∨ cm_metadata cm = None →
  syncEntry k st = (Throw TypeError, st) ∧
  (∀ ks, for_in (k :: ks) syncEntry st = (Throw TypeError, st)) ∧
  (∀ ks, isReady st = true → (cache st).*1 = k :: ks →
   syncSecrets st
     = set_isPendingSync false (emit (LogError (Some TypeError) "Failed to sync secrets") st)).
Proof.
  intros Hk Hbad.
  assert (∀ st2 : State W, cache st2 = cache st →
            syncEntry k st2 = (Throw TypeError, st2)) as Hs.
  { intros st2 Hc.
    rewrite (syncEntry_effect k (mkEntry (Some sec) (Some cm)) st2); [|by rewrite Hc].
    destruct Hbad as [-> | ->]; [done|]. by destruct (secret_labels sec). }
  split; [by apply Hs|]. split.
  - intros ks. by rewrite for_in_cons, Hk, Hs.
  - intros ks Hr Hkeys. unfold syncSecrets, syncSecrets_enter, _syncSecrets. rewrite Hr. simpl.
    rewrite Hkeys, for_in_cons. simpl. rewrite Hk, Hs by done.
    unfold syncSecrets_settle. simpl. destruct st; simpl in *. by rewrite Hr.
Qed.

Lemma createSecretForConfigMap_converged cm ex st b st1 :
  keeps_labels →
  createSecretForConfigMap cm ex st = (Normal b, st1) →
  converged (mkEntry (Some b) (Some cm)).
Proof.
  intros [Hcreate Hreplace] Hc.
  apply createSecretForConfigMap_inv in Hc.
  destruct (read (cm_data cm) _) as [sd|]; [|by destruct Hc].
  destruct Hc as (kr & st0 & _ & Hc).
  destruct kr as [key|]; [|by destruct Hc].
  destruct (cm_metadata cm ≫= labels) as [ls|]; [|by destruct Hc].
  destruct (parseEnvContent sd key) as [payload|]; [|by destruct Hc].
  apply createSecretWithConfigMapData_inv in Hc.
  destruct (cm_metadata cm) as [m|] eqn:Hm; [|by destruct Hc].
  destruct (buildSecret_labels m (ls !! L_target_secret) payload)
    as (lb & Hlb & _ & Hver & _).
  exists b, cm, lb, m. split; [done|]. split; [|done].
  destruct ex; destruct Hc as (w & Hcall & _).
  - by rewrite (Hreplace _ _ _ _ _ _ Hcall).
  - by rewrite (Hcreate _ _ _ _ _ Hcall).
Qed.

(** X7: if the cluster hands back the labels it was sent, the Secret a
    materialization returns carries the resourceVersion of its ConfigMap as
    version label, so that the entry holding the two is left alone by the
    next pass. *)
Theorem returned_secret_is_converged cm ex st b st1 :
  keeps_labels →
  createSecretForConfigMap cm ex st = (Normal b, st1) →
  converged (mkEntry (Some b) (Some cm)) ∧
  ∀ k st2, cache_get k (cache st2) = Some (mkEntry (Some b) (Some cm)) →
    syncEntry k st2 = (Normal (), st2).
Proof.
  intros Hkeep Hc.
  pose proof (createSecretForConfigMap_converged _ _ _ _ _ Hkeep Hc) as Hconv.
  split; [done|]. intros k st2 Hk. by eapply syncEntry_converged_entry.
Qed.

(** *** What a pass leaves of the cache *)

Lemma keeps_refl c : keeps c c.
Proof. split; [done|]. intros k e' Hk. by exists e'. Qed.

Lemma keeps_trans c1 c2 c3 : keeps c1 c2 → keeps c2 c3 → keeps c1 c3.
Proof.
  intros [Hs1 Hg1] [Hs2 Hg2]. split; [by etrans|].
  intros k e3 Hk. destruct (Hg2 k e3 Hk) as (e2 & Hk2 & Heq2).
  destruct (Hg1 k e2 Hk2) as (e1 & Hk1 & Heq1). exists e1. split; [done|congruence].
Qed.

Lemma cache_delete_keys k c : sublist (cache_delete k c).*1 c.*1.
Proof.
  induction c as [|[k' e] c IH]; csimpl; [done|].
  destruct (decide (k = k')); csimpl; [by apply sublist_cons|by apply sublist_skip].
Qed.

Lemma keeps_delete k c : keeps c (cache_delete k c).
Proof.
  split; [apply cache_delete_keys|]. intros k' e' Hk'.
  destruct (decide (k = k')) as [->|Hne]; [by rewrite cache_get_delete_eq in Hk'|].
  rewrite cache_get_delete_ne in Hk' by done. by exists e'.
Qed.

Lemma cache_set_keys k e e' c :
  cache_get k c = Some e → (cache_set k e' c).*1 = c.*1.
Proof.
  induction c as [|[k1 e1] c IH]; csimpl; [done|].
  destruct (decide (k = k1)) as [->|Hne]; csimpl; [done|].
  intros Hk. by rewrite IH.
Qed.

Lemma keeps_set k e s c :
  cache_get k c = Some e → keeps c (cache_set k (mkEntry s (configMap e)) c).
Proof.
  intros Hk. split; [by erewrite cache_set_keys|]. intros k' e' Hk'.
  destruct (decide (k = k')) as [<-|Hne].
  - rewrite cache_get_set_eq in Hk'. injection Hk' as <-. by exists e.
  - rewrite cache_get_set_ne in Hk' by done. by exists e'.
Qed.

Lemma syncEntry_keeps k st : keeps (cache st) (cache (syncEntry k st).2).
Proof.
  destruct (cache_get k (cache st)) as [e|] eqn:Hk.
  2:{ unfold syncEntry. unfold_M. rewrite Hk. apply keeps_refl. }
  assert (∀ cm ex what info, configMap e = Some cm →
    keeps (cache st)
      (cache (store_or_log k cm what (createSecretForConfigMap cm ex (emit info st))).2))
    as Hstore.
  { intros cm ex what info He.
    destruct (createSecretForConfigMap _ _ _) as [r st1] eqn:Hc.
    apply createSecretForConfigMap_extends in Hc as (evs & (_ & _ & Hcache & _) & _).
    simpl in Hcache. destruct r as [s|err]; simpl; rewrite Hcache; [|apply keeps_refl].
    rewrite <- He. by apply keeps_set. }
  rewrite (syncEntry_effect k e st Hk).
  destruct e as [[sec|] [cm|]]; simpl.
  - destruct (secret_labels sec), (cm_metadata cm); try apply keeps_refl.
    case_bool_decide; [apply keeps_refl|by apply Hstore].
  - unfold after_orphan. destruct (metadata sec); [|apply keeps_refl].
    destruct (deleteNamespacedSecret _ _ _) as [[[]|err] w]; simpl;
      [apply keeps_delete|apply keeps_refl].
  - by apply Hstore.
  - apply keeps_delete.
Qed.

Lemma for_in_keeps ks st : keeps (cache st) (cache (for_in ks syncEntry st).2).
Proof.
  revert st. induction ks as [|k ks IH]; intros st; [apply keeps_refl|].
  rewrite for_in_cons. destruct (cache_get k (cache st)); [|apply IH].
  pose proof (syncEntry_keeps k st) as Hk.
  destruct (syncEntry k st) as [[[]|err] st1]; simpl in *; [|done].
  eapply keeps_trans; [exact Hk|apply IH].
Qed.

(** X8: a pass adds no key to the cache and keeps the order of the keys it
    leaves; under every key it leaves, the ConfigMap half is the one it found:
    only watch events change a ConfigMap half. *)
Theorem pass_adds_no_key_and_keeps_configmaps st :
  sublist (cache (_syncSecrets st).2).*1 (cache st).*1 ∧
  ∀ k e', cache_get k (cache (_syncSecrets st).2) = Some e' →
    ∃ e, cache_get k (cache st) = Some e ∧ configMap e' = configMap e.
Proof. apply for_in_keeps. Qed.

End Calls.

(** ** The watch callbacks *)

Section Callbacks.
Context {W : Type} `{!Collaborators W}.
Implicit Types (st : State W) (cm : V1ConfigMap) (sec : V1Secret) (k : string) (c : Cache).
Implicit Types (l : Loop W) (a : Label).

Lemma onConfigMap_eq t cm st :
  onConfigMap t cm st
  = (Normal (),
     store_object (cm_key cm)
       (mkEntry (secret (spread (cm_key cm) (cache st))) (half_after t cm))
       (emit (LogInfo ("ConfigMap " +:+ show (cm_name cm) +:+ " " +:+ show_type t)) st)).
Proof. by destruct t. Qed.

Lemma onSecret_eq t sec m st :
  metadata sec = Some m →
  onSecret t sec st
  = (Normal (),
     store_object (secret_key sec)
       (mkEntry (half_after t sec) (configMap (spread (secret_key sec) (cache st))))
       (emit (LogInfo ("Secret " +:+ show (name m) +:+ " " +:+ show_type t)) st)).
Proof.
  intros Hm. unfold onSecret, secret_key, secret_namespace, secret_name. unfold_M.
  rewrite Hm. by destruct t.
Qed.

Lemma spread_secret k c : secret (spread k c) = (e ← cache_get k c; secret e).
Proof. unfold spread. by destruct (cache_get k c). Qed.

Lemma spread_configMap k c : configMap (spread k c) = (e ← cache_get k c; configMap e).
Proof. unfold spread. by destruct (cache_get k c). Qed.

Lemma generation_store_eq k e st : generation k (store_object k e st) = S (generation k st).
Proof. unfold generation at 1, store_object. simpl. by rewrite lookup_insert_eq. Qed.

Lemma generation_store_ne k k' e st :
  k ≠ k' → generation k' (store_object k e st) = generation k' st.
Proof. intros Hne. unfold generation, store_object. simpl. by rewrite lookup_insert_ne. Qed.

(** What the last statement of a watch callback, the call of
    [syncSecrets()], does to the loop. *)
Lemma call_cases l :
  if isReady (st l)
  then ∃ p st2,
         park (Async._syncSecrets (set_isPendingSync false (set_isReady false (st l))))
           = (p, st2) ∧
         call_syncSecrets l = mkLoop st2 (inflight l ++ [p]) (S (passes l)) (booted l)
  else call_syncSecrets l = with_st (set_isPendingSync true) l.
Proof.
  destruct (isReady (st l)) eqn:Hr; [|by apply call_not_ready].
  destruct (call_ready l Hr) as (p & st2 & [Hp _] & Heq & _). by exists p, st2.
Qed.

(** X9: the callback of the ConfigMap watch, lines 37-47, never throws.
    Up to its last statement it logs one line, calls nothing and touches no
    flag; it stores a new entry object under the key made of the ConfigMap's
    namespace and its [target-secret] label, with the ConfigMap, or its
    absence on [DELETED], beside the Secret half the key had; it keeps the
    Secret half of every entry and leaves the other keys and their objects
    alone.  Its last statement is the call of [syncSecrets()]: while the
    Manager is not ready, that only raises [isPendingSync], so that the whole
    callback makes no call to the cluster and starts no pass; when the Manager
    is ready, a pass starts on the cache as stored and runs up to its first
    await on the cluster or on the parser. *)
Theorem configmap_event_touches_only_its_half t cm l :
  ∃ st1,
    onConfigMap t cm (st l) = (Normal (), st1) ∧
    trace st1
      = trace (st l) ++ [LogInfo ("ConfigMap " +:+ show (cm_name cm) +:+ " " +:+ show_type t)] ∧
    cluster st1 = cluster (st l) ∧ same_flags (st l) st1 ∧
    cache_get (cm_key cm) (cache st1)
      = Some (mkEntry (e ← cache_get (cm_key cm) (cache (st l)); secret e) (half_after t cm)) ∧
    generation (cm_key cm) st1 = S (generation (cm_key cm) (st l)) ∧
    (∀ k, cm_key cm ≠ k →
       cache_get k (cache st1) = cache_get k (cache (st l)) ∧
       generation k st1 = generation k (st l)) ∧
    (∀ k, (e ← cache_get k (cache st1); secret e) = (e ← cache_get k (cache (st l)); secret e)) ∧
    if isReady (st l)
    then ∃ p st2,
           park (Async._syncSecrets (set_isPendingSync false (set_isReady false st1)))
             = (p, st2) ∧
           step (ConfigMapEvent t cm) l
             = mkLoop st2 (inflight l ++ [p]) (S (passes l)) (booted l)
    else step (ConfigMapEvent t cm) l
           = mkLoop (set_isPendingSync true st1) (inflight l) (passes l) (booted l).
Proof.
  eexists. split; [apply onConfigMap_eq|].
  set (st0 := emit _ (st l)).
  set (e1 := mkEntry _ _).
  assert (cache_get (cm_key cm) (cache (store_object (cm_key cm) e1 st0))
          = Some (mkEntry (e ← cache_get (cm_key cm) (cache (st l)); secret e) (half_after t cm)))
    as Hget.
  { unfold store_object, e1. simpl. by rewrite cache_get_set_eq, spread_secret. }
  split; [done|]. split; [done|]. split; [done|]. split; [exact Hget|].
  split; [apply (generation_store_eq _ _ st0)|].
  split.
  { intros k Hne. split; [|by apply (generation_store_ne _ _ _ st0)].
    unfold store_object. simpl. by rewrite cache_get_set_ne. }
  split.
  { intros k. destruct (decide (cm_key cm = k)) as [<-|Hne]; [by rewrite Hget|].
    unfold store_object. simpl. by rewrite cache_get_set_ne. }
  cbn [step]. rewrite onConfigMap_eq. fold st0 e1.
  exact (call_cases (with_st (λ _, store_object (cm_key cm) e1 st0) l)).
Qed.

(** X10: the callback of the Secret watch, lines 63-73, throws [TypeError]
    on an object without metadata, before it logs, stores or calls anything.
    Otherwise, up to its last statement it logs one line, calls nothing and
    touches no flag; it stores a new entry object under the key made of the
    Secret's namespace and name, with the Secret, or its absence on [DELETED],
    beside the ConfigMap half the key had; it keeps the ConfigMap half of
    every entry and leaves the other keys and their objects alone.  Its last
    statement is the call of [syncSecrets()]: while the Manager is not ready,
    that only raises [isPendingSync], so that the whole callback makes no call
    to the cluster and starts no pass; when the Manager is ready, a pass
    starts on the cache as stored and runs up to its first await on the
    cluster or on the parser. *)
Theorem secret_event_touches_only_its_half t sec l :
  match metadata sec with
  | None => onSecret t sec (st l) = (Throw TypeError, st l) ∧ step (SecretEvent t sec) l = l
  | Some m =>
      ∃ st1,
        onSecret t sec (st l) = (Normal (), st1) ∧
        trace st1
          = trace (st l) ++ [LogInfo ("Secret " +:+ show (name m) +:+ " " +:+ show_type t)] ∧
        cluster st1 = cluster (st l) ∧ same_flags (st l) st1 ∧
        cache_get (secret_key sec) (cache st1)
          = Some (mkEntry (half_after t sec)
                    (e ← cache_get (secret_key sec) (cache (st l)); configMap e)) ∧
        generation (secret_key sec) st1 = S (generation (secret_key sec) (st l)) ∧
        (∀ k, secret_key sec ≠ k →
           cache_get k (cache st1) = cache_get k (cache (st l)) ∧
           generation k st1 = generation k (st l)) ∧
        (∀ k, (e ← cache_get k (cache st1); configMap e)
              = (e ← cache_get k (cache (st l)); configMap e)) ∧
        if isReady (st l)
        then ∃ p st2,
               park (Async._syncSecrets (set_isPendingSync false (set_isReady false st1)))
                 = (p, st2) ∧
               step (SecretEvent t sec) l
                 = mkLoop st2 (inflight l ++ [p]) (S (passes l)) (booted l)
        else step (SecretEvent t sec) l
               = mkLoop (set_isPendingSync true st1) (inflight l) (passes l) (booted l)
  end.
Proof.
  destruct (metadata sec) as [m|] eqn:Hm.
  2: { assert (onSecret t sec (st l) = (Throw TypeError, st l)) as Hthrow
         by (unfold onSecret; unfold_M; by rewrite Hm).
       split; [done|]. cbn [step]. rewrite Hthrow. by destruct l. }
  eexists. split; [by apply onSecret_eq|].
  set (st0 := emit _ (st l)).
  set (e1 := mkEntry _ _).
  assert (cache_get (secret_key sec) (cache (store_object (secret_key sec) e1 st0))
          = Some (mkEntry (half_after t sec)
                    (e ← cache_get (secret_key sec) (cache (st l)); configMap e))) as Hget.
  { unfold store_object, e1. simpl. by rewrite cache_get_set_eq, spread_configMap. }
  split; [done|]. split; [done|]. split; [done|]. split; [exact Hget|].
  split; [apply (generation_store_eq _ _ st0)|].
  split.
  { intros k Hne. split; [|by apply (generation_store_ne _ _ _ st0)].
    unfold store_object. simpl. by rewrite cache_get_set_ne. }
  split.
  { intros k. destruct (decide (secret_key sec = k)) as [<-|Hne]; [by rewrite Hget|].
    unfold store_object. simpl. by rewrite cache_get_set_ne. }
  cbn [step]. rewrite (onSecret_eq t sec m (st l) Hm). fold st0 e1.
  exact (call_cases (with_st (λ _, store_object (secret_key sec) e1 st0) l)).
Qed.

(** X11: the key of an entry determines the namespace and the name it was
    made of, as long as namespaces hold no [/]: two objects share an entry
    only if they agree on both. *)
Theorem pairKey_injective (ns1 n1 ns2 n2 : string) :
  no_slash ns1 = true → no_slash ns2 = true →
  pairKey (Some ns1) (Some n1) = pairKey (Some ns2) (Some n2) →
  ns1 = ns2 ∧ n1 = n2.
Proof. intros H1 H2. unfold pairKey. simpl. by apply slash_split. Qed.

Lemma cache_delete_set_fresh k e c :
  cache_get k c = None → cache_delete k (cache_set k e c) = c.
Proof.
  induction c as [|[k' e'] c IH]; simpl.
  - by rewrite decide_True.
  - destruct (decide (k = k')) as [->|Hne]; [done|]. simpl.
    rewrite decide_False by done. intros Hk. by rewrite IH.
Qed.

Lemma cache_set_set k e1 e2 c : cache_set k e2 (cache_set k e1 c) = cache_set k e2 c.
Proof.
  induction c as [|[k' e'] c IH]; simpl.
  - by rewrite decide_True.
  - destruct (decide (k = k')) as [->|Hne]; simpl.
    + by rewrite decide_True.
    + rewrite decide_False by done. by rewrite IH.
Qed.

Lemma configmap_event_not_ready t cm l :
  isReady (st l) = false →
  step (ConfigMapEvent t cm) l
  = mkLoop (set_isPendingSync true
              (store_object (cm_key cm)
                 (mkEntry (secret (spread (cm_key cm) (cache (st l)))) (half_after t cm))
                 (emit (LogInfo ("ConfigMap " +:+ show (cm_name cm) +:+ " " +:+ show_type t))
                    (st l))))
      (inflight l) (passes l) (booted l).
Proof. intros Hr. cbn [step]. rewrite onConfigMap_eq. by rewrite call_not_ready. Qed.

(** The iteration of an entry with neither half has no await. *)
Lemma syncEntry_both_absent_at_once k st :
  cache_get k (cache st) = Some (mkEntry None None) →
  Async.syncEntry k st = Async.Fin (Normal ()) (drop_entry k st).
Proof.
  intros Hk. unfold Async.syncEntry, Async.deref, Async.lift, Async.modify.
  unfold mbind, Async.T_bind, Async.bind. simpl. rewrite Hk. reflexivity.
Qed.

(** X12: while the Manager is not ready (before [start()] has reached line
    24, or during a pass), a ConfigMap that is added and deleted again, with
    no other callback in between, under a key the cache did not have: the two
    callbacks start no pass and make no call to the cluster, they leave
    [isPendingSync] up and an entry with both halves absent; and the iteration
    of that entry, which has no await, gives back the cache as it was before
    the two events, without a call to the cluster and without a log line of
    its own. *)
Theorem configmap_added_then_deleted_is_forgotten cm l :
  isReady (st l) = false →
  cache_get (cm_key cm) (cache (st l)) = None →
  let l2 := exec [ConfigMapEvent ADDED cm; ConfigMapEvent DELETED cm] l in
  passes l2 = passes l ∧ inflight l2 = inflight l ∧
  isReady (st l2) = false ∧ isPendingSync (st l2) = true ∧
  cache_get (cm_key cm) (cache (st l2)) = Some (mkEntry None None) ∧
  ∃ st3, Async.syncEntry (cm_key cm) (st l2) = Async.Fin (Normal ()) st3 ∧
    syncEntry (cm_key cm) (st l2) = (Normal (), st3) ∧
    cache st3 = cache (st l) ∧ cluster st3 = cluster (st l) ∧
    trace st3 = trace (st l) ++
      [LogInfo ("ConfigMap " +:+ show (cm_name cm) +:+ " ADDED");
       LogInfo ("ConfigMap " +:+ show (cm_name cm) +:+ " DELETED")].
Proof.
  intros Hr Hk l2.
  assert (l2 = step (ConfigMapEvent DELETED cm) (step (ConfigMapEvent ADDED cm) l)) as -> by done.
  rewrite (configmap_event_not_ready ADDED cm l Hr).
  rewrite configmap_event_not_ready by exact Hr.
  cbn [st passes inflight booted].
  set (st2 := set_isPendingSync true (store_object _ _ _)).
  assert (cache st2 = cache_set (cm_key cm) (mkEntry None None) (cache (st l))) as Hc2.
  { unfold st2, store_object.
    cbn [cache set_cache set_epoch emit set_isPendingSync half_after st].
    rewrite spread_secret, cache_get_set_eq. cbn [secret mbind option_bind].
    rewrite spread_secret, Hk. apply cache_set_set. }
  assert (cache_get (cm_key cm) (cache st2) = Some (mkEntry None None)) as Hget
    by (rewrite Hc2; apply cache_get_set_eq).
  split; [done|]. split; [done|]. split; [exact Hr|]. split; [done|]. split; [exact Hget|].
  exists (drop_entry (cm_key cm) st2).
  split; [by apply syncEntry_both_absent_at_once|].
  split; [by apply syncEntry_both_absent|].
  unfold drop_entry. cbn [cache set_cache cluster trace].
  rewrite Hc2, cache_delete_set_fresh by done.
  split; [done|]. split; [done|]. unfold st2. simpl. by rewrite <- app_assoc.
Qed.

End Callbacks.

(** ** Convergence of a pass, and the passes the scheduler owes *)

Section Progress.
Context {W : Type} `{!Collaborators W}.
Implicit Types (st : State W) (cm : V1ConfigMap) (sec : V1Secret) (k : string) (c : Cache).
Implicit Types (l : Loop W) (a : Label).

Lemma since_app st st' evs : trace st' = trace st ++ evs → since st st' = evs.
Proof. intros Htr. unfold since. by rewrite Htr, drop_app_length. Qed.

Lemma syncEntry_trace k st : ∃ evs, trace (syncEntry k st).2 = trace st ++ evs.
Proof. destruct (syncEntry_events k st) as (evs & Htr & _). by exists evs. Qed.

Lemma for_in_trace ks st : ∃ evs, trace (for_in ks syncEntry st).2 = trace st ++ evs.
Proof. destruct (for_in_events ks st) as (evs & Htr & _). by exists evs. Qed.

Lemma store_or_log_clean k cm what ex info st st1 :
  keeps_labels →
  store_or_log k cm what (createSecretForConfigMap cm ex (emit (LogInfo info) st)) = (Normal (), st1) →
  (∃ evs, trace st1 = trace st ++ evs ∧ existsb is_error_log evs = true) ∨
  ∃ b, converged (mkEntry (Some b) (Some cm)) ∧
    cache st1 = cache_set k (mkEntry (Some b) (Some cm)) (cache st).
Proof.
  intros Hkeep. destruct (createSecretForConfigMap _ _ _) as [[b|err] st0] eqn:Hc; simpl.
  - intros [= <-]. right. exists b.
    split; [by eapply createSecretForConfigMap_converged|].
    apply createSecretForConfigMap_extends in Hc as (evs & (_ & _ & Hcache & _) & _).
    simpl in *. by rewrite Hcache.
  - intros [= <-]. left.
    apply createSecretForConfigMap_extends in Hc as (evs & (_ & _ & _ & _ & Htr) & _).
    simpl in *. eexists. rewrite Htr, <- !app_assoc. split; [done|].
    rewrite !existsb_app. simpl. by rewrite orb_true_r.
Qed.

Lemma syncEntry_clean k e st st1 :
  keeps_labels →
  cache_get k (cache st) = Some e →
  syncEntry k st = (Normal (), st1) →
  (∃ evs, trace st1 = trace st ++ evs ∧ existsb is_error_log evs = true) ∨
  (∀ e1, cache_get k (cache st1) = Some e1 → converged e1) ∧
  (∀ k', k ≠ k' → cache_get k' (cache st1) = cache_get k' (cache st)).
Proof.
  intros Hkeep Hk. rewrite (syncEntry_effect k e st Hk).
  assert (∀ cm ex what info,
    store_or_log k cm what (createSecretForConfigMap cm ex (emit (LogInfo info) st)) = (Normal (), st1) →
    (∃ evs, trace st1 = trace st ++ evs ∧ existsb is_error_log evs = true) ∨
    (∀ e1, cache_get k (cache st1) = Some e1 → converged e1) ∧
    (∀ k', k ≠ k' → cache_get k' (cache st1) = cache_get k' (cache st))) as Hstore.
  { intros cm ex what info Hs.
    destruct (store_or_log_clean _ _ _ _ _ _ _ Hkeep Hs) as [Herr|(b & Hconv & Hcache)]; [by left|].
    right. rewrite Hcache. split.
    - intros e1. rewrite cache_get_set_eq. by intros [= <-].
    - intros k' Hne. by rewrite cache_get_set_ne. }
  destruct e as [[sec|] [cm|]]; [| |by apply Hstore|].
  - destruct (secret_labels sec) as [sl|] eqn:Hsl; [|done].
    destruct (cm_metadata cm) as [cmm|] eqn:Hcmm; [|done].
    case_bool_decide as Hv; [|by apply Hstore].
    intros [= <-]. right. split; [|done].
    intros e1. rewrite Hk. intros [= <-]. by exists sec, cm, sl, cmm.
  - done.
  - intros [= <-]. right. simpl. split.
    + intros e1. by rewrite cache_get_delete_eq.
    + intros k' Hne. by rewrite cache_get_delete_ne.
Qed.

Lemma for_in_clean ks st st' :
  keeps_labels →
  for_in ks syncEntry st = (Normal (), st') →
  existsb is_error_log (since st st') = false →
  (∀ k e, cache_get k (cache st) = Some e → k ∈ ks ∨ converged e) →
  ∀ k e, cache_get k (cache st') = Some e → converged e.
Proof.
  intros Hkeep. revert st. induction ks as [|k0 ks IH]; intros st Hrun Hclean Hin k e.
  - inversion Hrun; subst. intros Hk. destruct (Hin _ _ Hk) as [Hnil|]; [|done].
    by apply elem_of_nil in Hnil.
  - rewrite for_in_cons in Hrun.
    destruct (cache_get k0 (cache st)) as [e0|] eqn:Hk0.
    + destruct (syncEntry k0 st) as [[[]|err] st1] eqn:Hs; [|done].
      destruct (for_in_trace ks st1) as (evs2 & Htr2). rewrite Hrun in Htr2. simpl in Htr2.
      destruct (syncEntry_clean _ _ _ _ Hkeep Hk0 Hs) as [(evs1 & Htr1 & Herr)|[Hnew Hother]].
      { rewrite Htr1, <- app_assoc in Htr2. rewrite (since_app _ _ _ Htr2) in Hclean.
        rewrite existsb_app, Herr in Hclean. done. }
      destruct (syncEntry_trace k0 st) as (evs1 & Htr1). rewrite Hs in Htr1. simpl in Htr1.
      apply (IH st1 Hrun).
      * rewrite (since_app _ _ _ Htr2). rewrite Htr1, <- app_assoc in Htr2.
        rewrite (since_app _ _ _ Htr2), existsb_app in Hclean.
        by apply orb_false_elim in Hclean as [_ ?].
      * intros k1 e1 Hk1. destruct (decide (k0 = k1)) as [<-|Hne]; [right; by apply Hnew|].
        rewrite Hother in Hk1 by done. destruct (Hin _ _ Hk1) as [Hk1in|]; [|by right].
        apply elem_of_cons in Hk1in as [->|]; [done|by left].
    + apply (IH st Hrun Hclean). intros k1 e1 Hk1.
      destruct (Hin _ _ Hk1) as [Hk1in|]; [|by right].
      apply elem_of_cons in Hk1in as [->|]; [congruence|by left].
Qed.

(** The iteration of an entry that is in step with its ConfigMap has no
    await. *)
Lemma syncEntry_converged_at_once k e st :
  cache_get k (cache st) = Some e → converged e →
  Async.syncEntry k st = Async.Fin (Normal ()) st.
Proof.
  intros Hk (sec & cm & sl & cmm & -> & Hsl & Hcmm & Hv).
  unfold secret_labels in Hsl. destruct (metadata sec) as [sm|] eqn:Hsm; [|done].
  simpl in Hsl.
  unfold Async.syncEntry, Async.deref, Async.lift.
  unfold mbind, Async.T_bind, Async.bind. cbn [deref]. rewrite Hk. simpl.
  rewrite Hsm. simpl. rewrite Hsl. simpl. rewrite Hcmm. simpl.
  by rewrite bool_decide_eq_true_2.
Qed.

Lemma for_in_converged_at_once ks st :
  (∀ k e, cache_get k (cache st) = Some e → converged e) →
  Async.for_in ks Async.syncEntry st = Async.Fin (Normal ()) st.
Proof.
  intros Hall. induction ks as [|k ks IH]; [done|].
  cbn [Async.for_in]. unfold mbind, Async.T_bind, Async.bind.
  destruct (cache_get k (cache st)) as [e|] eqn:Hk; [|exact IH].
  rewrite (syncEntry_converged_at_once k e st Hk (Hall k e Hk)). exact IH.
Qed.

(** X13: if the cluster hands back the labels it was sent, a pass during
    whose awaits no other callback has a turn, and that runs to its end
    without logging an error, leaves every entry of the cache with a Secret
    whose version label is the resourceVersion of its ConfigMap; and the next
    pass from that state makes no call at all, awaits nothing and changes
    nothing. *)
Theorem clean_pass_reaches_a_fixed_point st st' :
  keeps_labels →
  Async.uninterrupted Async._syncSecrets st = (Normal (), st') →
  existsb is_error_log (since st st') = false →
  (∀ k e, cache_get k (cache st') = Some e → converged e) ∧
  Async._syncSecrets st' = Async.Fin (Normal ()) st'.
Proof.
  intros Hkeep Hrun Hclean. rewrite _syncSecrets_refines in Hrun.
  assert (∀ k e, cache_get k (cache st') = Some e → converged e) as Hall.
  { eapply for_in_clean; [done|exact Hrun|done|].
    intros k e Hk. left. by eapply cache_get_elem. }
  split; [done|]. by apply for_in_converged_at_once.
Qed.

(** ** Scheduler *)

Lemma owed_call l :
  loop_inv l →
  passes (call_syncSecrets l) + owed (call_syncSecrets l) ≤ S (passes l + owed l).
Proof.
  intros Hl. unfold owed. destruct (isReady (st l)) eqn:Hr.
  - destruct (call_ready l Hr) as (r & st' & _ & -> & _ & Hp & Ht). simpl.
    rewrite Hp, Ht. destruct (inflight l ++ [r]); lia.
  - rewrite call_not_ready by done. simpl.
    destruct (inflight l) eqn:Hi; [lia|]. destruct (isPendingSync (st l)); lia.
Qed.

Lemma owed_call_timer l n :
  loop_inv l → timeouts (st l) = S n →
  let l' := call_syncSecrets (with_st (set_timeouts n) l) in
  passes l' + owed l' ≤ passes l + owed l.
Proof.
  intros Hl Ht. simpl. unfold owed. destruct (isReady (st l)) eqn:Hr.
  - destruct (call_ready (with_st (set_timeouts n) l)) as (r & st' & _ & -> & _ & Hp & Ht');
      [done|].
    simpl in *. rewrite Hp, Ht', Ht.
    rewrite (loop_inv_idle l Hl Hr). simpl. lia.
  - rewrite call_not_ready by done. simpl. rewrite Ht.
    destruct (inflight l); [lia|]. destruct (isPendingSync (st l)); lia.
Qed.

Lemma owed_step a l :
  loop_inv l →
  passes (step a l) + owed (step a l)
  ≤ passes l + owed l + (if is_request a then 1 else 0).
Proof.
  intros Hl. destruct a; cbn [step is_request].
  - pose proof (owed_call l Hl). lia.
  - destruct (booted l) eqn:Hb; [lia|].
    unfold loop_inv in Hl. rewrite Hb in Hl. destruct Hl as [_ [Hr Hi]].
    destruct (call_ready (mkLoop (set_isReady true (st l)) (inflight l) (passes l) true))
      as (r & st' & _ & -> & _ & Hp & Ht); [done|].
    unfold owed. simpl in *. rewrite Hp, Ht, Hi. simpl. lia.
  - destruct (onConfigMap_effect t cm (st l)) as (msg & c & ep & ->).
    pose proof (owed_call (with_st (λ _, set_epoch ep (set_cache c (emit (LogInfo msg) (st l)))) l) Hl) as Hc.
    unfold owed in *. simpl in *. lia.
  - destruct (onSecret_effect t sec (st l)) as [->|(msg & c & ep & ->)].
    + rewrite with_st_id. lia.
    + pose proof (owed_call (with_st (λ _, set_epoch ep (set_cache c (emit (LogInfo msg) (st l)))) l) Hl) as Hc.
      unfold owed in *. simpl in *. lia.
  - destruct Hl as [Hsafe _].
    destruct (answer_step l Hsafe)
      as [Heq|(k & rs & p & st' & Hi & Heq & (_ & Hp & Ht) & _)];
      cbn [step] in Heq; rewrite Heq; [lia|].
    unfold owed. simpl. rewrite Hi, Hp, Ht. lia.
  - destruct (inflight l) as [|r rs] eqn:Hi; [lia|].
    apply loop_inv_length in Hl as Hlen. rewrite Hi in Hlen.
    destruct rs; [|simpl in Hlen; lia].
    destruct Hl as [Hsafe _]. rewrite Hi in Hsafe. apply Forall_cons in Hsafe as [Hr _].
    destruct (settle_step l r [] Hi Hr) as (c & st' & _ & Heq & _ & _ & Ht).
    cbn [step] in Heq. rewrite Hi in Heq. rewrite Heq.
    unfold owed. simpl. rewrite Ht, Hi. destruct (isPendingSync (st l)); lia.
  - destruct (timeouts (st l)) as [|n] eqn:Ht; [lia|].
    pose proof (owed_call_timer l n Hl Ht). simpl in *. lia.
Qed.

Lemma owed_exec evs l :
  loop_inv l →
  passes (exec evs l) + owed (exec evs l) ≤ passes l + owed l + requests evs.
Proof.
  revert l. induction evs as [|a evs IH]; intros l Hl; simpl; [lia|].
  pose proof (owed_step a l Hl). pose proof (IH (step a l) (loop_inv_step a l Hl)).
  fold (exec evs (step a l)). destruct (is_request a); lia.
Qed.

(** X14: in every state the event loop reaches from a fresh Manager, the
    passes started so far, plus the rerun timers still armed, plus one if a
    request was recorded during the pass in flight, are at most the calls of
    [syncSecrets()] made from outside the scheduler (line 25, the interval,
    the watch callbacks): the scheduler never starts a pass of its own
    accord. *)
Theorem passes_are_bounded_by_requests (w : W) (evs : list Label) :
  let l := exec evs (new_Loop w) in
  passes l + owed l ≤ requests evs.
Proof.
  pose proof (owed_exec evs (new_Loop w) (loop_inv_new w)) as Hle.
  change (owed (new_Loop w)) with 0 in Hle. change (passes (new_Loop w)) with 0 in Hle.
  simpl. lia.
Qed.

Lemma served_call l : pending_is_served (call_syncSecrets l).
Proof.
  unfold pending_is_served. destruct (isReady (st l)) eqn:Hr.
  - destruct (call_ready l Hr) as (r & st' & _ & -> & Hr' & _). simpl. congruence.
  - rewrite call_not_ready by done. simpl. congruence.
Qed.

Lemma served_step a l : loop_inv l → pending_is_served l → pending_is_served (step a l).
Proof.
  intros Hl Hs. destruct a; cbn [step].
  - apply served_call.
  - destruct (booted l); [done|]. apply served_call.
  - destruct (onConfigMap_effect t cm (st l)) as (msg & c & ep & ->). apply served_call.
  - destruct (onSecret_effect t sec (st l)) as [->|(msg & c & ep & ->)].
    + by rewrite with_st_id.
    + apply served_call.
  - destruct Hl as [Hsafe _].
    destruct (answer_step l Hsafe)
      as [Heq|(k & rs & p & st' & Hi & Heq & (Hr & Hp & Ht) & _)];
      cbn [step] in Heq; rewrite Heq; [done|].
    unfold pending_is_served in *. simpl. rewrite Hr, Hp, Ht. exact Hs.
  - destruct (inflight l) as [|r rs] eqn:Hi; [done|].
    destruct Hl as [Hsafe _]. rewrite Hi in Hsafe. apply Forall_cons in Hsafe as [Hr _].
    destruct (settle_step l r rs Hi Hr) as (c & st' & _ & Heq & _ & Hp & Ht).
    cbn [step] in Heq. rewrite Hi in Heq. rewrite Heq.
    unfold pending_is_served. simpl. rewrite Hp, Ht. intros _ _ ->. lia.
  - destruct (timeouts (st l)) as [|n]; [done|]. apply served_call.
Qed.

Lemma served_exec evs l :
  loop_inv l → pending_is_served l → pending_is_served (exec evs l).
Proof.
  revert l. induction evs as [|a evs IH]; intros l Hl Hs; [done|].
  simpl. apply IH; [by apply loop_inv_step|by apply served_step].
Qed.

Lemma served_new (w : W) : pending_is_served (new_Loop w).
Proof. by intros ?. Qed.

(** X15: once [start()] has reached line 24, whenever [isPendingSync] is up
    either a pass is in flight, whose handlers will see the flag, or the
    Manager is ready and a rerun timer is armed. *)
Theorem recorded_request_is_never_lost (w : W) (evs : list Label) :
  let l := exec evs (new_Loop w) in
  booted l = true → isPendingSync (st l) = true →
  (isReady (st l) = false ∧ ∃ r, inflight l = [r]) ∨
  (isReady (st l) = true ∧ 0 < timeouts (st l)).
Proof.
  intros l Hb Hp.
  pose proof (loop_inv_exec evs _ (loop_inv_new w)) as Hl.
  pose proof (served_exec evs _ (loop_inv_new w) (served_new w)) as Hs.
  fold l in Hl, Hs. destruct Hl as [_ Hl]. rewrite Hb in Hl.
  destruct (isReady (st l)) eqn:Hr; [right|by left].
  split; [done|]. by apply Hs.
Qed.

Lemma exec_app evs evs' l : exec (evs ++ evs') l = exec evs' (exec evs l).
Proof. apply foldl_app. Qed.

Lemma rounds_quiet n l :
  quiet l → exec (mjoin (replicate n [Timeout; Settle])) l = l.
Proof.
  intros Hq. apply quiet_stays; [done|].
  induction n as [|n IH]; simpl; [done|]. constructor; [by right|]. constructor; [by left|done].
Qed.

Lemma round_starts_one_pass l m :
  isReady (st l) = true → inflight l = [] → timeouts (st l) = S m →
  ∃ r st', exec [Timeout; Settle] l
           = mkLoop (syncSecrets_settle r st') [] (S (passes l)) (booted l) ∧
    isPendingSync st' = false ∧ timeouts st' = m.
Proof.
  intros Hr Hi Ht.
  change (exec [Timeout; Settle] l) with (step Settle (step Timeout l)).
  assert (step Timeout l = call_syncSecrets (with_st (set_timeouts m) l)) as ->
    by (cbn [step]; by rewrite Ht).
  destruct (call_ready (with_st (set_timeouts m) l))
    as (p & st1 & [_ Hsafe] & -> & _ & Hp' & Ht'); [done|].
  simpl in Hp', Ht'. cbn [inflight passes booted with_st]. rewrite Hi. cbn [app].
  destruct (settle_step (mkLoop st1 [p] (S (passes l)) (booted l)) p [] eq_refl Hsafe)
    as (r & st' & Hfin & -> & _).
  pose proof (finish_safe p st1 Hsafe) as (_ & Hp2 & Ht2).
  cbn [st] in Hfin. rewrite Hfin in Hp2, Ht2. simpl in Hp2, Ht2.
  exists r, st'. split; [done|]. split; congruence.
Qed.

Lemma rounds_drain n l :
  booted l = true → isReady (st l) = true → inflight l = [] →
  (isPendingSync (st l) = true → 0 < timeouts (st l)) →
  timeouts (st l) ≤ n →
  let l' := exec (mjoin (replicate n [Timeout; Settle])) l in
  quiet l' ∧ passes l' = passes l + timeouts (st l).
Proof.
  revert l. induction n as [|n IH]; intros l Hb Hr Hi Hp Hn.
  - simpl. assert (timeouts (st l) = 0) as Ht by lia. rewrite Ht.
    split; [|lia]. repeat split; [done| |done..].
    destruct (isPendingSync (st l)); [|done]. specialize (Hp eq_refl). lia.
  - destruct (timeouts (st l)) as [|m] eqn:Ht.
    + assert (quiet l) as Hq.
      { repeat split; [done| |done..].
        destruct (isPendingSync (st l)); [|done]. specialize (Hp eq_refl). lia. }
      intros l'. unfold l'. rewrite (rounds_quiet (S n) l Hq). split; [done|lia].
    + intros l'. unfold l'. clear l'.
      change (mjoin (replicate (S n) [Timeout; Settle]))
        with ([Timeout; Settle] ++ mjoin (replicate n [Timeout; Settle])).
      rewrite exec_app.
      destruct (round_starts_one_pass l m Hr Hi Ht) as (r & st' & -> & Hp' & Ht').
      destruct (settle_flags r st') as (Hr2 & Hp2 & Ht2). rewrite Hp' in Hp2, Ht2.
      destruct (IH (mkLoop (syncSecrets_settle r st') [] (S (passes l)) (booted l)))
        as [Hq Hpass]; simpl; [done|done|done|congruence|lia|].
      split; [exact Hq|]. rewrite Hpass. simpl. lia.
Qed.

(** X16: from every state the event loop reaches once [start()] has reached
    line 24, and without any further call from outside, the handlers of the
    pass in flight and then the armed timers, each followed by the handlers of
    the pass it starts, leave the Manager ready with no request recorded, no
    pass in flight and no timer armed, after exactly as many more passes as
    were owed: a rerun does not schedule another rerun. *)
Theorem scheduler_comes_to_rest (w : W) (evs : list Label) :
  let l := exec evs (new_Loop w) in
  booted l = true →
  let l' := exec (drain (S (timeouts (st l)))) l in
  quiet l' ∧ passes l' = passes l + owed l.
Proof.
  intros l Hb l'.
  pose proof (loop_inv_exec evs _ (loop_inv_new w)) as Hl.
  pose proof (served_exec evs _ (loop_inv_new w) (served_new w)) as Hs.
  fold l in Hl, Hs.
  assert (l' = exec (mjoin (replicate (S (timeouts (st l))) [Timeout; Settle])) (step Settle l))
    as -> by done.
  destruct Hl as [Hsafe Hl]. rewrite Hb in Hl. unfold owed.
  destruct (isReady (st l)) eqn:Hr.
  - cbn [step]. rewrite Hl.
    destruct (rounds_drain (S (timeouts (st l))) l) as [Hq Hpass]; try done; [by apply Hs|lia|].
    split; [done|]. rewrite Hpass. lia.
  - destruct Hl as [r Hi]. rewrite Hi in Hsafe. apply Forall_cons in Hsafe as [Hr' _].
    destruct (settle_step l r [] Hi Hr') as (c & st' & _ & -> & Hr2 & Hp2 & Ht2).
    rewrite Hi.
    destruct (rounds_drain (S (timeouts (st l)))
                (mkLoop (syncSecrets_settle c st') [] (passes l) (booted l)))
      as [Hq Hpass]; cbn [st inflight passes booted]; try done.
    + rewrite Hp2, Ht2. intros ->. lia.
    + rewrite Ht2. destruct (isPendingSync (st l)); lia.
    + split; [done|]. rewrite Hpass. cbn [st inflight passes booted]. rewrite Ht2. lia.
Qed.

Lemma store_or_log_Normal k cm what (out : Completion V1Secret * State W) :
  (store_or_log k cm what out).1 = Normal ().
Proof. by destruct out as [[b|err] st1]. Qed.

Lemma syncEntry_throw k e st err st1 :
  cache_get k (cache st) = Some e → syncEntry k st = (Throw err, st1) →
  err = TypeError ∧ ¬ healthy e.
Proof.
  intros Hk. rewrite (syncEntry_effect k e st Hk).
  assert (∀ cm what out, store_or_log k cm what out = (Throw err, st1) → False) as Hstore.
  { intros cm what out Hs. pose proof (store_or_log_Normal k cm what out) as Hn.
    by rewrite Hs in Hn. }
  destruct e as [[sec|] [cm|]]; simpl.
  - destruct (secret_labels sec) as [sl|] eqn:Hsl.
    2:{ intros [= Herr _]. split; [done|]. by intros [[? ?] _]. }
    destruct (cm_metadata cm) as [cmm|] eqn:Hcmm.
    2:{ intros [= Herr _]. split; [done|]. by intros [_ [? ?]]. }
    case_bool_decide; [done|]. intros Hs. by apply Hstore in Hs.
  - intros [= Herr _]. split; [done|]. by intros [].
  - intros Hs. by apply Hstore in Hs.
  - done.
Qed.

Lemma for_in_throw ks st err st' :
  for_in ks syncEntry st = (Throw err, st') →
  err = TypeError ∧
  ∃ k e st1, k ∈ ks ∧ cache_get k (cache st1) = Some e ∧ ¬ healthy e ∧
    syncEntry k st1 = (Throw TypeError, st').
Proof.
  revert st. induction ks as [|k ks IH]; intros st; [done|].
  rewrite for_in_cons.
  destruct (cache_get k (cache st)) as [e|] eqn:Hk.
  - destruct (syncEntry k st) as [[[]|err1] st1] eqn:Hs.
    + intros Hrun. destruct (IH _ Hrun) as (-> & k' & e' & st2 & Hin & ?).
      split; [done|]. exists k', e', st2. split; [by apply list_elem_of_further|done].
    + intros [= <- <-]. destruct (syncEntry_throw _ _ _ _ _ Hk Hs) as [-> Hbad].
      split; [done|]. exists k, e, st. split; [apply list_elem_of_here|done].
  - intros Hrun. destruct (IH _ Hrun) as (-> & k' & e' & st2 & Hin & ?).
    split; [done|]. exists k', e', st2. split; [by apply list_elem_of_further|done].
Qed.

Lemma syncEntry_healthy k e st :
  keeps_labels →
  cache_get k (cache st) = Some e →
  (∀ k' e', cache_get k' (cache st) = Some e' → healthy e') →
  ∃ st1, syncEntry k st = (Normal (), st1) ∧
    ∀ k' e', cache_get k' (cache st1) = Some e' → healthy e'.
Proof.
  intros Hkeep Hk Hall. pose proof (Hall k e Hk) as He.
  rewrite (syncEntry_effect k e st Hk).
  assert (∀ cm ex what info,
    ∃ st1, store_or_log k cm what (createSecretForConfigMap cm ex (emit (LogInfo info) st))
             = (Normal (), st1) ∧
      ∀ k' e', cache_get k' (cache st1) = Some e' → healthy e') as Hstore.
  { intros cm ex what info.
    destruct (createSecretForConfigMap _ _ _) as [[b|err] st0] eqn:Hc; simpl.
    - eexists. split; [done|]. simpl.
      pose proof (createSecretForConfigMap_converged _ _ _ _ _ Hkeep Hc)
        as (sec' & cm' & sl & cmm & [= <- <-] & Hsl & Hcmm & _).
      apply createSecretForConfigMap_extends in Hc as (evs & (_ & _ & Hcache & _) & _).
      simpl in Hcache. rewrite Hcache. intros k' e'.
      destruct (decide (k = k')) as [<-|Hne].
      + rewrite cache_get_set_eq. intros [= <-]. simpl. by rewrite Hsl, Hcmm.
      + rewrite cache_get_set_ne by done. apply Hall.
    - eexists. split; [done|]. simpl.
      apply createSecretForConfigMap_extends in Hc as (evs & (_ & _ & Hcache & _) & _).
      simpl in Hcache. rewrite Hcache. apply Hall. }
  destruct e as [[sec|] [cm|]]; simpl in He.
  - destruct He as [[sl ->] [cmm ->]]. case_bool_decide; [by exists st|]. apply Hstore.
  - done.
  - apply Hstore.
  - eexists. split; [done|]. simpl. intros k' e'.
    destruct (decide (k = k')) as [<-|Hne].
    + by rewrite cache_get_delete_eq.
    + rewrite cache_get_delete_ne by done. apply Hall.
Qed.

Lemma for_in_healthy ks st :
  keeps_labels →
  (∀ k e, cache_get k (cache st) = Some e → healthy e) →
  ∃ st', for_in ks syncEntry st = (Normal (), st') ∧
    ∀ k e, cache_get k (cache st') = Some e → healthy e.
Proof.
  intros Hkeep. revert st. induction ks as [|k ks IH]; intros st Hall; [by exists st|].
  rewrite for_in_cons. destruct (cache_get k (cache st)) as [e|] eqn:Hk; [|by apply IH].
  destruct (syncEntry_healthy k e st Hkeep Hk Hall) as (st1 & -> & Hall1). by apply IH.
Qed.

(** X20: the only error that leaves the loop of a pass is the [TypeError] of
    an iteration that reads a property of [undefined], at an entry that is an
    orphan or whose Secret has no labels or whose ConfigMap has no metadata;
    every other failure is caught inside its iteration.  If the cluster hands
    back the labels it was sent and the cache holds no such entry, the pass
    runs to its end, none has appeared in the cache, and [syncSecrets] logs
    [Secrets synced]. *)
Theorem pass_is_rejected_only_by_an_unhealthy_entry st :
  (∀ err st', _syncSecrets st = (Throw err, st') →
     err = TypeError ∧
     ∃ k e st1, k ∈ (cache st).*1 ∧ cache_get k (cache st1) = Some e ∧ ¬ healthy e ∧
       syncEntry k st1 = (Throw TypeError, st')) ∧
  (keeps_labels →
   (∀ k e, cache_get k (cache st) = Some e → healthy e) →
   ∃ st', _syncSecrets st = (Normal (), st') ∧
     last (trace (syncSecrets_settle (Normal ()) st')) = Some (LogInfo "Secrets synced") ∧
     ∀ k e, cache_get k (cache st') = Some e → healthy e).
Proof.
  split.
  - intros err st'. apply for_in_throw.
  - intros Hkeep Hall.
    destruct (for_in_healthy (cache st).*1 st Hkeep Hall) as (st' & Hrun & Hall').
    exists st'. split; [done|]. split; [|done].
    unfold syncSecrets_settle. simpl. destruct (isPendingSync st'); simpl; by rewrite last_snoc.
Qed.

End Progress.

(** ** The entries behind an orphan *)

Section Orphans.
Context {W : Type} `{!Collaborators W}.
Implicit Types (st : State W) (cm : V1ConfigMap) (sec : V1Secret) (k : string).

Lemma blocked_pass k0 orphan st :
  isReady st = true → blocked_by k0 orphan st →
  ∃ evs, trace (syncSecrets st) = trace st ++ evs ∧
    existsb is_create_or_replace evs = false ∧
    last evs = Some (LogError (Some TypeError) "Failed to sync secrets") ∧
    isReady (syncSecrets st) = true ∧
    cache (syncSecrets st) = cache st ∧ cluster (syncSecrets st) = cluster st.
Proof.
  intros Hr (m & err & rest & Hc & Hm & Hdel).
  unfold syncSecrets, syncSecrets_enter. rewrite Hr. cbn [negb].
  unfold _syncSecrets. cbn [cache set_isPendingSync set_isReady]. rewrite Hc.
  cbn [fmap list_fmap fst].
  rewrite (for_in_orphan k0 orphan);
    [|cbn [cache set_isPendingSync set_isReady]; rewrite Hc; simpl; by rewrite decide_True].
  unfold after_orphan. rewrite Hm. cbn [cluster set_isPendingSync set_isReady emit].
  rewrite Hdel. unfold syncSecrets_settle. cbn.
  eexists [_; _; _; _]. rewrite <- !app_assoc. by rewrite Hc.
Qed.

Lemma blocked_passes k0 orphan st n :
  isReady st = true → blocked_by k0 orphan st →
  let st' := Nat.iter n syncSecrets st in
  isReady st' = true ∧ cache st' = cache st ∧ cluster st' = cluster st ∧
  ∃ evs, trace st' = trace st ++ evs ∧
    existsb is_create_or_replace evs = false ∧
    (n = 0 ∨ last evs = Some (LogError (Some TypeError) "Failed to sync secrets")).
Proof.
  intros Hr Hb. cbv zeta. induction n as [|n (Hr' & Hc' & Hw' & evs & Htr & Hno & _)].
  - simpl. repeat split; try done. exists []. rewrite app_nil_r. by eauto.
  - change (Nat.iter (S n) syncSecrets st) with (syncSecrets (Nat.iter n syncSecrets st)).
    set (stn := Nat.iter n syncSecrets st) in *.
    assert (blocked_by k0 orphan stn) as Hbn.
    { destruct Hb as (m & err & rest & ? & ? & ?). exists m, err, rest.
      rewrite Hc', Hw'. done. }
    destruct (blocked_pass k0 orphan stn Hr' Hbn) as (evs' & Htr' & Hno' & Hlast & Hr2 & Hc2 & Hw2).
    split; [done|]. split; [congruence|]. split; [congruence|].
    exists (evs ++ evs'). split; [by rewrite Htr', Htr, <- app_assoc|].
    split; [by rewrite existsb_app, Hno, Hno'|]. right.
    destruct evs' as [|e evs'] using rev_ind; [done|].
    rewrite app_assoc, last_snoc. by rewrite last_snoc in Hlast.
Qed.

(** C5 (the code, where it departs from the claim): the pass starts at an
    orphan whose delete the cluster refuses, and throws at the version test
    of that iteration, line 130.  An entry behind the orphan that has both
    halves, the Secret made from another version of the ConfigMap, is not
    reached: after any number of passes, each of them over and logged as
    failed, the entry is as it was, the cluster is as it was, and no replace
    and no create call has been made. *)
Theorem stale_entry_behind_an_orphan_is_never_replaced k0 orphan k sec cm st (n : nat) :
  isReady st = true → blocked_by k0 orphan st →
  cache_get k (cache st) = Some (mkEntry (Some sec) (Some cm)) → stale sec cm →
  let st' := Nat.iter n syncSecrets st in
  isReady st' = true ∧
  cache_get k (cache st') = Some (mkEntry (Some sec) (Some cm)) ∧
  cluster st' = cluster st ∧
  existsb is_create_or_replace (since st st') = false ∧
  (n = 0 ∨ last (trace st') = Some (LogError (Some TypeError) "Failed to sync secrets")).
Proof.
  intros Hr Hb Hk _ st'.
  destruct (blocked_passes k0 orphan st n Hr Hb) as (Hr' & Hc' & Hw' & evs & Htr & Hno & Hlast).
  fold st' in Hr', Hc', Hw', Htr.
  split; [done|]. split; [by rewrite Hc'|]. split; [done|].
  split; [by rewrite (since_app _ _ _ Htr)|].
  destruct Hlast as [->|Hlast]; [by left|right].
  rewrite Htr. destruct evs as [|e evs] using rev_ind; [done|].
  rewrite app_assoc, last_snoc. by rewrite last_snoc in Hlast.
Qed.

(** C9 (the code, where it departs from the claim): the pass starts at an
    orphan whose delete the cluster refuses, and throws at the version test
    of that iteration, line 130.  An entry behind the orphan that has neither
    half is not reached: after any number of passes, each of them over and
    logged as failed, it is still in the cache. *)
Theorem empty_entry_behind_an_orphan_persists k0 orphan k st (n : nat) :
  isReady st = true → blocked_by k0 orphan st →
  cache_get k (cache st) = Some (mkEntry None None) →
  let st' := Nat.iter n syncSecrets st in
  isReady st' = true ∧
  cache_get k (cache st') = Some (mkEntry None None) ∧
  (n = 0 ∨ last (trace st') = Some (LogError (Some TypeError) "Failed to sync secrets")).
Proof.
  intros Hr Hb Hk st'.
  destruct (blocked_passes k0 orphan st n Hr Hb) as (Hr' & Hc' & Hw' & evs & Htr & Hno & Hlast).
  fold st' in Hr', Hc', Hw', Htr.
  split; [done|]. split; [by rewrite Hc'|].
  destruct Hlast as [->|Hlast]; [by left|right].
  rewrite Htr. destruct evs as [|e evs] using rev_ind; [done|].
  rewrite app_assoc, last_snoc. by rewrite last_snoc in Hlast.
Qed.

End Orphans.

(** ** Startup and the watches *)

Section Lifecycle.
Context {W : Type} `{!Collaborators W} `{!Watcher W}.
Implicit Types (st : State W) (l : Loop W) (a : Label).

Lemma dormant_call l : dormant l → dormant (call_syncSecrets l).
Proof. intros (Hb & Hr & Hp & Hi & Ht & Htr). by rewrite call_not_ready. Qed.

Lemma dormant_step a l : a ≠ Boot → dormant l → dormant (step a l).
Proof.
  intros Ha Hl. pose proof Hl as (Hb & Hr & Hp & Hi & Ht & Htr).
  destruct a; cbn [step]; try done.
  - by apply dormant_call.
  - destruct (onConfigMap_effect t cm (st l)) as (msg & c & ep & ->).
    apply dormant_call. repeat split; simpl; try done.
    by rewrite existsb_app, Htr.
  - destruct (onSecret_effect t sec (st l)) as [->|(msg & c & ep & ->)].
    + by rewrite with_st_id.
    + apply dormant_call. repeat split; simpl; try done.
      by rewrite existsb_app, Htr.
  - by rewrite Hi.
  - by rewrite Hi.
  - by rewrite Ht.
Qed.

Lemma dormant_log l e :
  is_cluster_call e = false → dormant l → dormant (with_st (emit e) l).
Proof.
  intros He (Hb & Hr & Hp & Hi & Ht & Htr). repeat split; simpl; try done.
  by rewrite existsb_app, Htr; simpl; rewrite He.
Qed.

Lemma watchKind_eq k p :
  ∃ r w, watchKind k p
    = (r, mkProcess
            (with_st (λ _, set_cluster w
                             (emit (LogInfo ("Starting " +:+ kind_name k +:+ " watch"))
                                (st (loop p)))) (loop p))
            (pc p) (registrations p ++ [(path k, labelSelector k, r)]) (retries p)
            (interval p) (console p) (exitCode p)).
Proof. unfold watchKind. simpl. destruct (watch _ _ _) as [r w]. by exists r, w. Qed.

Lemma dormant_watch (l : Loop W) w msg :
  dormant l → dormant (with_st (λ _, set_cluster w (emit (LogInfo msg) (st l))) l).
Proof.
  intros (Hb & Hr & Hp & Hi & Ht & Htr). repeat split; simpl; try done.
  by rewrite existsb_app, Htr.
Qed.

Lemma head_snoc {A} (xs : list A) x y : head xs = Some x → head (xs ++ [y]) = Some x.
Proof. by destruct xs. Qed.

Lemma reg_inv_step b p : reg_inv p → reg_inv (pstep b p).
Proof.
  intros Hp. unfold pstep. destruct (exitCode p) eqn:He; [done|].
  destruct b.
  - destruct (pc p) eqn:Hpc; try done.
    unfold reg_inv in Hp. rewrite Hpc in Hp. destruct Hp as [Hregs Hks].
    destruct (watchKind_eq ConfigMaps (set_loop (with_st (emit (LogInfo "Manager created"))) p))
      as (r & w & ->).
    unfold reg_inv. cbn [pc set_pc registrations set_loop]. by rewrite Hregs.
  - destruct (pc p) as [|k [[]|e]| |] eqn:Hpc; try done.
    + unfold reg_inv in Hp. rewrite Hpc in Hp. destruct k.
      * destruct (watchKind_eq Secrets p) as (r & w & ->).
        unfold reg_inv. cbn [pc set_pc registrations].
        split; [by apply head_snoc|]. apply elem_of_app. right. apply list_elem_of_here.
      * done.
  - destruct (pc p) eqn:Hpc; try done.
    unfold reg_inv in *. cbn [pc set_interval set_pc set_loop registrations]. by rewrite Hpc in Hp.
  - by destruct (interval p).
  - destruct (watched k (registrations p)) eqn:Hw; [|done].
    unfold reg_inv in *. cbn [pc set_retries set_loop registrations retries].
    destruct (pc p); try done. destruct Hp as [Hregs _]. by rewrite Hregs in Hw.
  - destruct (retries p) as [|k ks] eqn:Hks; [done|].
    destruct (watchKind_eq k (set_retries ks p)) as (r & w & ->).
    assert (reg_inv
              (mkProcess
                 (with_st (λ _, set_cluster w
                    (emit (LogInfo ("Starting " +:+ kind_name k +:+ " watch"))
                       (st (loop (set_retries ks p))))) (loop (set_retries ks p)))
                 (pc p) (registrations p ++ [(path k, labelSelector k, r)]) ks
                 (interval p) (console p) (exitCode p))) as Hinv.
    { unfold reg_inv in *. cbn [pc registrations retries].
      destruct (pc p) as [|[] ?| |].
      - destruct Hp; congruence.
      - by apply head_snoc.
      - destruct Hp. split; [by apply head_snoc|]. apply elem_of_app. by left.
      - destruct Hp. split; [by apply head_snoc|]. apply elem_of_app. by left.
      - destruct Hp. split; [by apply head_snoc|]. apply elem_of_app. by left. }
    by destruct r.
  - by destruct a.
Qed.

Lemma booted_call l : booted (call_syncSecrets l) = booted l.
Proof.
  unfold call_syncSecrets. destruct (syncSecrets_enter _) as [[] st']; [|done].
  by destruct (park _).
Qed.

Lemma booted_step a l : booted l = true → booted (step a l) = true.
Proof.
  intros Hb. destruct a; cbn [step].
  - by rewrite booted_call.
  - by rewrite Hb.
  - destruct (onConfigMap _ _ _) as [[] ?]; [by rewrite booted_call|done].
  - destruct (onSecret _ _ _) as [[] ?]; [by rewrite booted_call|done].
  - destruct (inflight l) as [|[r|k] rs]; [done..|]. by destruct (park _).
  - destruct (inflight l) as [|p rs]; [done|]. by destruct (finish _ _).
  - destruct (timeouts (st l)); [done|]. by rewrite booted_call.
Qed.

Lemma run_inv_step b p : run_inv p → run_inv (pstep b p).
Proof.
  intros Hp. unfold pstep. destruct (exitCode p) eqn:He; [done|].
  destruct b.
  - destruct (pc p) eqn:Hpc; try done.
    unfold run_inv in Hp. rewrite Hpc in Hp. destruct Hp as [Hint Hd].
    destruct (watchKind_eq ConfigMaps (set_loop (with_st (emit (LogInfo "Manager created"))) p))
      as (r & w & ->).
    unfold run_inv. cbn [pc set_pc set_loop interval loop]. split; [done|].
    apply (dormant_watch (with_st (emit (LogInfo "Manager created")) (loop p))).
    by apply dormant_log.
  - destruct (pc p) as [|k [[]|e]| |] eqn:Hpc; try done.
    + unfold run_inv in Hp. rewrite Hpc in Hp. destruct Hp as [Hint Hd]. destruct k.
      * destruct (watchKind_eq Secrets p) as (r & w & ->).
        unfold run_inv. cbn [pc set_pc interval loop]. split; [done|by apply dormant_watch].
      * done.
  - destruct (pc p) eqn:Hpc; try done.
    unfold run_inv in Hp. rewrite Hpc in Hp. destruct Hp as [Hint (Hb & _)].
    unfold run_inv. cbn [pc set_pc set_interval set_loop interval loop].
    split; [done|]. cbn [step]. rewrite Hb.
    destruct (call_ready (mkLoop (set_isReady true (st (loop p))) (inflight (loop p))
                            (passes (loop p)) true)) as (r & st' & _ & -> & _); done.
  - destruct (interval p) eqn:Hint; [|done].
    unfold run_inv in *. cbn [pc set_loop interval loop].
    destruct (pc p); try (destruct Hp; congruence).
    destruct Hp as [_ Hb]. split; [done|]. by apply (booted_step Call).
  - destruct (watched k (registrations p)); [|done].
    unfold run_inv in *. cbn [pc set_retries set_loop interval loop].
    destruct (pc p); destruct Hp as [Hint Hd]; (split; [done|]); try by apply dormant_log.
    done.
  - destruct (retries p) as [|k ks] eqn:Hks; [done|].
    destruct (watchKind_eq k (set_retries ks p)) as (r & w & ->).
    assert (run_inv
              (mkProcess
                 (with_st (λ _, set_cluster w
                    (emit (LogInfo ("Starting " +:+ kind_name k +:+ " watch"))
                       (st (loop (set_retries ks p))))) (loop (set_retries ks p)))
                 (pc p) (registrations p ++ [(path k, labelSelector k, r)]) ks
                 (interval p) (console p) (exitCode p))) as Hinv.
    { unfold run_inv in *. cbn [pc interval loop set_retries].
      destruct (pc p); destruct Hp as [Hint Hd]; (split; [done|]);
        try by apply dormant_watch.
      done. }
    by destruct r.
  - assert (a ≠ Boot → run_inv (set_loop (step a) p)) as Hstep.
    { intros Ha. unfold run_inv in *. cbn [pc set_loop interval loop].
      destruct (pc p); destruct Hp as [Hint Hd]; (split; [done|]);
        try by apply dormant_step.
      by apply booted_step. }
    destruct a; try done; by apply Hstep.
Qed.

Lemma invs_exec ls p :
  reg_inv p → run_inv p → reg_inv (pexec ls p) ∧ run_inv (pexec ls p).
Proof.
  revert p. induction ls as [|b ls IH]; intros p Hr Hn; [done|].
  simpl. apply IH; [by apply reg_inv_step|by apply run_inv_step].
Qed.

(** X17: whatever the order in which promises settle, timers fire and watch
    events arrive, until [start()] is past its last [await] the Manager is not
    ready, no pass has started, no call has gone to the cluster and the
    interval is not set.  Once line 24 is reached the interval is set, the
    first call of
    [watch] was the one for [/api/v1/configmaps] with the selector
    [config.s24.dev/target-secret], and a call for [/api/v1/secrets] with the
    selector [config.s24.dev/source-configmap] was made, both accepted. *)
Theorem start_gates_the_reconciler (w : W) (ls : list PLabel) :
  let p := pexec ls (new_Process w) in
  (pc p = Started ∨ dormant (loop p) ∧ interval p = false) ∧
  (booted (loop p) = true →
   head (registrations p)
     = Some ("/api/v1/configmaps", "config.s24.dev/target-secret", Normal ()) ∧
   ("/api/v1/secrets", "config.s24.dev/source-configmap", Normal ()) ∈ registrations p ∧
   interval p = true).
Proof.
  intros p.
  destruct (invs_exec ls (new_Process w)) as [Hr Hn]; [done|done|]. fold p in Hr, Hn.
  unfold reg_inv, run_inv in *. destruct (pc p) as [|k r| |];
    try (split; [right; by destruct Hn|destruct Hn as [_ (Hb & _)]; congruence]).
  split; [by left|]. intros _. destruct Hr, Hn. done.
Qed.

Lemma exit_inv_step b p : reg_inv p → exit_inv p → exit_inv (pstep b p).
Proof.
  intros Hr Hp. unfold pstep. destruct (exitCode p) eqn:He; [done|].
  unfold exit_inv in Hp. rewrite He in Hp.
  destruct b.
  - destruct (pc p) eqn:Hpc; try by (unfold exit_inv; rewrite He).
    destruct (watchKind_eq ConfigMaps (set_loop (with_st (emit (LogInfo "Manager created"))) p))
      as (r & w & ->).
    unfold exit_inv. cbn [set_pc exitCode console set_loop]. by rewrite He.
  - destruct (pc p) as [|k [[]|e]| |] eqn:Hpc; try by (unfold exit_inv; rewrite He).
    + destruct k; [|by (unfold exit_inv; cbn [set_pc exitCode console]; rewrite He)].
      destruct (watchKind_eq Secrets p) as (r & w & ->).
      unfold exit_inv. cbn [set_pc exitCode console]. by rewrite He.
    + unfold exit_inv. cbn [crash exitCode console registrations]. split; [done|].
      exists e. rewrite Hp. split; [done|].
      unfold reg_inv in Hr. rewrite Hpc in Hr. destruct k.
      * exists (path ConfigMaps, labelSelector ConfigMaps, Throw e). split; [|done].
        destruct (registrations p); [done|]. injection Hr as ->. apply list_elem_of_here.
      * destruct Hr as [_ Hin]. by eexists.
  - destruct (pc p); unfold exit_inv; cbn [set_interval set_pc set_loop exitCode console];
      by rewrite He.
  - destruct (interval p); unfold exit_inv; cbn [set_loop exitCode console]; by rewrite He.
  - destruct (watched k (registrations p)); unfold exit_inv;
      cbn [set_retries set_loop exitCode console]; by rewrite He.
  - destruct (retries p) as [|k ks] eqn:Hks; [by (unfold exit_inv; rewrite He)|].
    destruct (watchKind_eq k (set_retries ks p)) as (r & w & ->).
    destruct r as [[]|e]; unfold exit_inv; cbn [crash set_retries exitCode console registrations].
    + by rewrite He.
    + split; [done|]. exists e. rewrite Hp. split; [done|].
      exists (path k, labelSelector k, Throw e). split; [|done].
      apply elem_of_app. right. apply list_elem_of_here.
  - destruct a; unfold exit_inv; cbn [set_loop exitCode console]; by rewrite He.
Qed.

Lemma exit_inv_exec ls p : reg_inv p → exit_inv p → exit_inv (pexec ls p).
Proof.
  revert p. induction ls as [|b ls IH]; intros p Hr Hp; [done|].
  simpl. apply IH; [by apply reg_inv_step|by apply exit_inv_step].
Qed.

(** X18: once the client and the Manager are constructed, and for Secret
    events that carry their metadata (the callback throws on others, into the
    watch library), the process ends only through the two handlers of
    [index.ts], with code 1, after printing the one error for which a call of
    [watch] was rejected, at startup or at a retry.  A pass that
    fails, a cluster call that is refused or a watch that reports an error do
    not end it; as long as it runs, nothing was printed on the console. *)
Theorem only_a_rejected_watch_ends_the_process (w : W) (ls : list PLabel) :
  forallb well_formed ls = true →
  let p := pexec ls (new_Process w) in
  match exitCode p with
  | None => console p = []
  | Some c => c = 1 ∧ ∃ e, console p = [e] ∧ ∃ r, r ∈ registrations p ∧ r.2 = Throw e
  end.
Proof. intros _. by apply (exit_inv_exec ls (new_Process w)). Qed.

Lemma genuine_watch k p :
  Forall genuine (registrations p) → Forall genuine (registrations (watchKind k p).2).
Proof.
  intros Hp. unfold watchKind. simpl. destruct (watch _ _ _) as [r w'] eqn:Hw. simpl.
  apply Forall_app. split; [done|]. apply Forall_singleton.
  eexists k, _. by rewrite Hw.
Qed.

Lemma genuine_step b p :
  Forall genuine (registrations p) → Forall genuine (registrations (pstep b p)).
Proof.
  intros Hp. unfold pstep. destruct (exitCode p); [done|].
  destruct b.
  - destruct (pc p); try done.
    pose proof (genuine_watch ConfigMaps
                  (set_loop (with_st (emit (LogInfo "Manager created"))) p) Hp) as Hg.
    by destruct (watchKind _ _).
  - destruct (pc p) as [|k [[]|e]| |]; try done. destruct k; [|done].
    pose proof (genuine_watch Secrets p Hp) as Hg. by destruct (watchKind _ _).
  - by destruct (pc p).
  - by destruct (interval p).
  - by destruct (watched k (registrations p)).
  - destruct (retries p) as [|k ks]; [done|].
    pose proof (genuine_watch k (set_retries ks p) Hp) as Hg.
    by destruct (watchKind _ _) as [[[]|e] p1].
  - by destruct a.
Qed.

Lemma retries_step b p :
  length (registrations (pstep b p)) + length (retries (pstep b p))
    + started_watches (pc p)
  ≤ length (registrations p) + length (retries p) + started_watches (pc (pstep b p))
    + (if is_watch_error b then 1 else 0).
Proof.
  unfold pstep. destruct (exitCode p); [lia|].
  destruct b; cbn [is_watch_error].
  - destruct (pc p) eqn:Hpc; try (rewrite Hpc; lia).
    destruct (watchKind_eq ConfigMaps (set_loop (with_st (emit (LogInfo "Manager created"))) p))
      as (r & w & ->).
    cbn [set_pc set_loop registrations retries pc started_watches].
    rewrite length_app. simpl. lia.
  - destruct (pc p) as [|k [[]|e]| |] eqn:Hpc; try (rewrite Hpc; lia).
    + destruct k.
      * destruct (watchKind_eq Secrets p) as (r & w & ->).
        cbn [set_pc registrations retries pc started_watches].
        rewrite length_app. simpl. lia.
      * cbn [set_pc registrations retries pc started_watches]. lia.
    + cbn [crash registrations retries pc]. rewrite Hpc. lia.
  - destruct (pc p) eqn:Hpc; try (rewrite Hpc; lia).
    cbn [set_interval set_pc set_loop registrations retries pc started_watches]. lia.
  - destruct (interval p); cbn [set_loop registrations retries pc]; lia.
  - destruct (watched k (registrations p)); [|lia].
    cbn [set_retries set_loop registrations retries pc]. rewrite length_app. simpl. lia.
  - destruct (retries p) as [|k ks] eqn:Hks; [rewrite Hks; lia|].
    destruct (watchKind_eq k (set_retries ks p)) as (r & w & ->).
    destruct r; cbn [crash set_retries registrations retries pc]; rewrite length_app; simpl; lia.
  - destruct a; cbn [set_loop registrations retries pc]; lia.
Qed.

Lemma retries_exec ls p :
  length (registrations (pexec ls p)) + length (retries (pexec ls p))
    + started_watches (pc p)
  ≤ length (registrations p) + length (retries p) + started_watches (pc (pexec ls p))
    + watch_errors ls.
Proof.
  revert p. induction ls as [|b ls IH]; intros p; simpl; [lia|].
  pose proof (retries_step b p). pose proof (IH (pstep b p)).
  fold (pexec ls (pstep b p)). lia.
Qed.

Lemma genuine_exec ls p :
  Forall genuine (registrations p) → Forall genuine (registrations (pexec ls p)).
Proof.
  revert p. induction ls as [|b ls IH]; intros p Hp; [done|].
  simpl. apply IH. by apply genuine_step.
Qed.

(** X19: the calls of [watch] made so far and the retry timers still armed
    are together at most the calls made by [start()], which are at most two,
    plus one for each error a watch has reported; and every call is made with
    the path and the selector of one of the two kinds. *)
Theorem each_watch_error_arms_one_retry (w : W) (ls : list PLabel) :
  let p := pexec ls (new_Process w) in
  length (registrations p) + length (retries p)
    ≤ started_watches (pc p) + watch_errors ls ∧
  started_watches (pc p) ≤ 2 ∧
  Forall genuine (registrations p).
Proof.
  intros p. split; [|split].
  - pose proof (retries_exec ls (new_Process w)) as Hle. fold p in Hle. simpl in Hle. lia.
  - destruct (pc p) as [|[] ?| |]; simpl; lia.
  - by apply genuine_exec.
Qed.

End Lifecycle.

(** ** Scenarios *)

Import Fake.

(** C1 (the code at the failing input): the cache holds one orphan Secret
    and the cluster accepts its delete.  The pass deletes the Secret and drops
    the entry, then goes on to the version test of the update branch, which
    throws; [syncSecrets] logs the error. *)
Theorem orphan_cleanup_logs_an_error :
  trace (syncSecrets st_orphan) =
    [LogInfo "ConfigMap for default/orphan-secret not found. Deleting secret.";
     DeleteSecret (Some "orphan-secret") (Some "default");
     LogError (Some TypeError) "Failed to sync secrets"] ∧
  cache (syncSecrets st_orphan) = [] ∧
  cluster (syncSecrets st_orphan) = ∅ ∧
  existsb is_error_log (trace (syncSecrets st_orphan)) = true.
Proof. vm_compute. done. Qed.

(** C2 (the code at the failing input): the delete of an orphan is rejected
    by the cluster.  The failure is logged, the pass then throws at the
    version test, and the entry behind the orphan, a ConfigMap waiting for its
    Secret, is not processed: no create call, cache as before. *)
Theorem failed_delete_aborts_the_pass :
  trace (syncSecrets st_orphan_then_new) =
    [LogInfo "ConfigMap for default/orphan-secret not found. Deleting secret.";
     DeleteSecret (Some "orphan-secret") (Some "default");
     LogError (Some (Rejected "NotFound")) "Failed to delete secret default/orphan-secret";
     LogError (Some TypeError) "Failed to sync secrets"] ∧
  cache (syncSecrets st_orphan_then_new) = cache st_orphan_then_new ∧
  existsb is_create_or_replace (trace (syncSecrets st_orphan_then_new)) = false.
Proof. vm_compute. done. Qed.

(** C4 at a Secret and a ConfigMap of version 12345. *)
Lemma converged_entry_witness :
  syncEntry app_key st_converged = (Normal (), st_converged) ∧
  _syncSecrets st_converged = (Normal (), st_converged).
Proof.
  assert (converged (mkEntry (Some sec_12345) (Some cm_12345))) as Hconv.
  { eexists _, _, _, _. repeat split; reflexivity. }
  split.
  - apply (proj1 converged_entry_is_left_alone app_key
             (mkEntry (Some sec_12345) (Some cm_12345)) st_converged);
      [reflexivity|exact Hconv].
  - apply (proj2 converged_entry_is_left_alone st_converged).
    intros k e. simpl. case_decide; [|done]. by intros [= <-].
Defined.

(** The iteration of an entry that has lost both halves. *)
Lemma empty_entry_witness :
  syncEntry app_key st_empty_entry = (Normal (), drop_entry app_key st_empty_entry) ∧
  cache_get app_key (cache (drop_entry app_key st_empty_entry)) = None.
Proof.
  destruct (proj1 empty_entry_is_collected app_key st_empty_entry) as (Hs & Hgone & _).
  - reflexivity.
  - by split.
Defined.

(** A ConfigMap whose [source-key] label names [nonexistent.env]. *)
Lemma missing_source_key_witness :
  createSecretForConfigMap cm_nokey None st_fresh
    = (Throw (MissingSourceKey cm_nokey), st_fresh).
Proof.
  apply (proj1 (missing_source_key_fails_first cm_nokey eq_refl) None st_fresh).
Defined.

(** The iteration of a Secret of version 12345 beside a ConfigMap of version
    67890. *)
Lemma stale_entry_witness :
  ∃ r st1 evs,
    createSecretForConfigMap cm_67890 (Some sec_12345)
      (emit (LogInfo ("ConfigMap for " +:+ app_key +:+ " updated. Updating secret."))
         st_stale) = (r, st1) ∧
    existsb is_create evs = false.
Proof.
  destruct (stale_entry_is_replaced app_key sec_12345 cm_67890 st_stale)
    as (r & st1 & evs & Hrun & _ & Hcreate & _).
  - reflexivity.
  - eexists _, _. repeat split; [reflexivity..|]. vm_compute. congruence.
  - by exists r, st1, evs.
Defined.

(** C5 at the failing input: the orphan is gone from the cluster, and behind
    it the cache holds a Secret of version 12345 beside its ConfigMap of
    version 67890; two passes. *)
Lemma stale_entry_behind_an_orphan_witness :
  let st' := Nat.iter 2 syncSecrets st_orphan_then_stale in
  isReady st' = true ∧
  cache_get app_key (cache st') = Some (mkEntry (Some sec_12345) (Some cm_67890)) ∧
  cluster st' = cluster st_orphan_then_stale ∧
  existsb is_create_or_replace (since st_orphan_then_stale st') = false ∧
  (2 = 0 ∨ last (trace st') = Some (LogError (Some TypeError) "Failed to sync secrets")).
Proof.
  refine (stale_entry_behind_an_orphan_is_never_replaced orphan_key orphan app_key
            sec_12345 cm_67890 st_orphan_then_stale 2 eq_refl _ _ _).
  - exists {| name := Some "orphan-secret"; namespace := Some "default";
              resourceVersion := None;
              labels := Some {[ L_source_configmap := "missing-config";
                                L_source_configmap_version := "1" ]} |},
           (Rejected "NotFound"), [(app_key, mkEntry (Some sec_12345) (Some cm_67890))].
    vm_compute. repeat split.
  - vm_compute. reflexivity.
  - eexists _, _. repeat split; [reflexivity..|]. vm_compute. congruence.
Defined.

(** C9 at the failing input: the orphan is gone from the cluster, and behind
    it the cache holds an entry that has lost both halves; two passes. *)
Lemma empty_entry_behind_an_orphan_witness :
  let st' := Nat.iter 2 syncSecrets st_orphan_then_empty in
  isReady st' = true ∧
  cache_get app_key (cache st') = Some (mkEntry None None) ∧
  (2 = 0 ∨ last (trace st') = Some (LogError (Some TypeError) "Failed to sync secrets")).
Proof.
  refine (empty_entry_behind_an_orphan_persists orphan_key orphan app_key
            st_orphan_then_empty 2 eq_refl _ _).
  - exists {| name := Some "orphan-secret"; namespace := Some "default";
              resourceVersion := None;
              labels := Some {[ L_source_configmap := "missing-config";
                                L_source_configmap_version := "1" ]} |},
           (Rejected "NotFound"), [(app_key, mkEntry None None)].
    vm_compute. repeat split.
  - vm_compute. reflexivity.
Defined.

(** C8 at the failing input: the [source-key] label is [constructor], the
    data holds [.env] only, and the ConfigMap names [key-secret], which the
    cluster has.  The Secret is read and the parser is called, with the
    inherited member as contents; the test double of the parser rejects it,
    so that the materialization fails with [TypeError]. *)
Lemma inherited_source_key_witness :
  env !! sourceKey_of cm_inherited = None ∧
  out_inherited.1 = Throw TypeError ∧
  ∃ evs,
    trace out_inherited.2 = trace st_with_key ++ evs ∧
    head evs = Some (ReadSecret "key-secret" (Some "default")) ∧
    parse_calls evs = [(JsInherited "constructor", Some "my-secret-key")].
Proof.
  split; [vm_compute; reflexivity|]. split; [vm_compute; reflexivity|].
  destruct (inherited_source_key_is_not_missing cm_inherited None st_with_key env
              out_inherited.1 out_inherited.2)
    as (evs & Htr & Hm).
  - reflexivity.
  - vm_compute. reflexivity.
  - vm_compute. apply list_elem_of_here.
  - apply surjective_pairing.
  - exists evs. split; [exact Htr|]. vm_compute in Hm. destruct Hm as (Hhead & _ & Hparse).
    split; vm_compute; assumption.
Defined.

(** C6 at the ConfigMap [my-config] with [.env] holding [KEY=value]. *)
Lemma materialized_secret_witness :
  ∃ built,
    last (trace out_create.2) ≫= sent = Some built ∧
    secret_name built = cm_label cm_12345 L_target_secret ∧
    secret_namespace built = cm_namespace cm_12345.
Proof.
  destruct (materialized_secret_shape cm_12345 None st_fresh
              (value_of key_secret out_create) out_create.2)
    as (sd & key & payload & built & _ & _ & Hlast & Hn & Hns & _).
  - vm_compute. reflexivity.
  - by exists built.
Defined.

(** C7 (amended) at a ConfigMap that names [key-secret], which the cluster
    has. *)
Lemma decryption_key_witness :
  ∃ evs, trace out_encrypted.2 = trace st_with_key ++ evs ∧
    read_calls evs = [("key-secret", Some "default")] ∧
    parse_calls evs = [(JsString "KEY=value", Some "my-secret-key")].
Proof.
  exact (decryption_key_resolution (cm_encrypted "key-secret") None st_with_key
           "KEY=value" out_encrypted.1 out_encrypted.2 eq_refl eq_refl).
Defined.

(** C7 as stated fails here: the ConfigMap has the label, with the empty
    string as value; no Secret is read and the parser gets no key. *)
Lemma empty_decryption_label_is_ignored :
  cm_label (cm_encrypted "") L_decryption_secret = Some "" ∧
  read_calls (trace out_empty_label.2) = [] ∧
  parse_calls (trace out_empty_label.2) = [(JsString "KEY=value", None)].
Proof. vm_compute. done. Qed.

(** C10 at two calls and a watch event before [start()] reaches line 24. *)
Lemma calls_before_startup_witness :
  passes (exec early_calls (new_Loop (∅ : Store))) = 0 ∧
  passes (step Boot (exec early_calls (new_Loop (∅ : Store)))) = 1.
Proof.
  destruct (calls_before_startup_only_record_pending (∅ : Store) early_calls)
    as (_ & (_ & _ & Hp & _) & _ & (Hb & _)).
  - repeat constructor; discriminate.
  - by split.
Defined.

(** C3 at two calls while the first pass is in flight: one more pass, and
    nothing left to run after it. *)
Lemma two_triggers_one_rerun_witness :
  passes (step Settle (exec [Settle; Timeout] (exec [Call; Call] loop_first_pass)))
    = S (passes loop_first_pass) ∧
  quiet (step Settle (exec [Settle; Timeout] (exec [Call; Call] loop_first_pass))).
Proof.
  destruct (triggers_coalesce_and_passes_never_overlap (∅ : Store)
              [ConfigMapEvent ADDED cm_12345; Boot]) as (_ & _ & _ & Hscen).
  destruct Hscen with (triggers := [Call; Call]) as (_ & _ & _ & _ & Hq & Hp3 & _).
  - vm_compute. repeat split. by eexists.
  - vm_compute. reflexivity.
  - by repeat constructor.
  - apply list_elem_of_here.
  - by split.
Defined.

(** *** The scenarios of the tests, run *)

(** A ConfigMap is added: its Secret is created, with the encoded payload. *)
Example scenario_create :
  omap (λ e, b ← sent e; data b)
    (trace (st (exec [ConfigMapEvent ADDED cm_12345; Settle] (started ∅))))
    = [{[ "KEY" := "dmFsdWU=" ]}] ∧
  existsb is_error_log
    (trace (st (exec [ConfigMapEvent ADDED cm_12345; Settle] (started ∅)))) = false.
Proof. vm_compute. done. Qed.

(** The ConfigMap moves to version 67890: the Secret is replaced, in place. *)
Example scenario_update :
  (e ← last (trace (syncEntry app_key st_stale).2);
   match e with
   | ReplaceSecret nm ns b => Some (nm, ns, version_label b)
   | _ => None
   end) = Some (Some "my-secret", Some "default", Some "67890").
Proof. vm_compute. done. Qed.

(** The decryption key comes from the named Secret, decoded. *)
Example scenario_decryption_key :
  parse_calls (trace out_encrypted.2) = [(JsString "KEY=value", Some "my-secret-key")].
Proof. vm_compute. done. Qed.

(** Two calls during the first pass: two passes in all. *)
Example scenario_two_triggers :
  passes (exec [Call; Call; Settle; Timeout; Settle; Timeout; Settle] loop_first_pass) = 2.
Proof. vm_compute. done. Qed.

(** The rerun is a timer, and [isPendingSync] stays up until a pass starts:
    a call that lands between the end of a pass and its rerun timer starts a
    pass of its own, and the timer, still to fire, starts another. *)
Example scenario_call_before_rerun_timer :
  passes (exec [Call; Settle; Call; Settle; Timeout; Settle] loop_first_pass) = 3.
Proof. vm_compute. done. Qed.

(** ** The further properties at the fixtures *)

Import Fixtures.

Lemma fake_keeps_labels : keeps_labels (W := Store).
Proof.
  split.
  - intros ns body w b' w'. simpl. destruct (w !! key_of body); by intros [= <- _].
  - intros nm ns body w b' w'. simpl. destruct (w !! pairKey ns nm); by intros [= <- _].
Qed.

(** X2 at a ConfigMap that names a decryption Secret. *)
Lemma materialization_stages_witness :
  ∃ evs, extends st_with_key out_encrypted.2 evs ∧
    sublist (omap stage_of evs) [Reading; Parsing; Writing].
Proof.
  destruct (materialization_reads_then_parses_then_writes (cm_encrypted "key-secret") None
              st_with_key out_encrypted.1 out_encrypted.2 (surjective_pairing _))
    as (evs & Hext & _ & Hsub & _).
  by exists evs.
Defined.

(** X3 behind a parser that rejects the content. *)
Lemma parser_failure_witness :
  ∃ evs, extends st_fresh out_faulty.2 evs ∧
    out_faulty.1 = Throw (Error "Invalid env content") ∧
    existsb is_create_or_replace evs = false.
Proof.
  destruct (parser_failure_stops_the_materialization (Collaborators0 := faulty)
              cm_12345 None st_fresh out_faulty.1 out_faulty.2 (surjective_pairing _))
    as (evs & Hext & Hfail).
  exists evs. split; [exact Hext|].
  apply (Hfail "KEY=value" None); [|reflexivity].
  destruct Hext as (_ & _ & _ & _ & Htr). vm_compute in Htr. subst evs.
  apply list_elem_of_here.
Defined.

(** X4 at a ConfigMap whose Secret does not exist yet: left alone, the
    iteration files the Secret that the cluster returned beside the ConfigMap;
    when the watch delivers the next version of the ConfigMap while the create
    call is awaited, the cache keeps the entry that the callback stored, with
    no Secret. *)
Lemma missing_secret_witness :
  (∃ body,
     cache_get app_key (cache (Async.uninterrupted (Async.syncEntry app_key) st_new).2)
     = Some (mkEntry (Some body) (Some cm_12345)) ∧
     secret_name body = Some "my-secret") ∧
  cache_get app_key
    (cache (Async.run_with [modified_meanwhile] (Async.syncEntry app_key st_new)).1.2)
  = Some (mkEntry None (Some cm_67890)).
Proof.
  destruct (missing_secret_is_created app_key cm_12345 st_new eq_refl)
    as [Hwith (r & st1 & evs & Hrun & _ & _ & _ & Hr)].
  split.
  - vm_compute in Hrun. injection Hrun as <- <-. destruct Hr as [-> _].
    eexists. vm_compute. split; reflexivity.
  - destruct (Hwith [modified_meanwhile]) as (r' & st1' & rest & Hrun' & Hr').
    vm_compute in Hrun'. injection Hrun' as <- <- <-. rewrite Hr'.
    vm_compute. reflexivity.
Defined.

(** X6 at a Secret without labels. *)
Lemma secret_without_labels_witness :
  syncEntry unlabelled_key st_unlabelled = (Throw TypeError, st_unlabelled).
Proof.
  exact (proj1 (secret_without_labels_ends_the_pass unlabelled_key key_secret cm_12345
                  st_unlabelled eq_refl (or_introl eq_refl))).
Defined.

(** X11 at the key of the fixtures. *)
Lemma pairKey_witness : "default" = "default" ∧ "my-secret" = "my-secret".
Proof.
  exact (pairKey_injective "default" "my-secret" "default" "my-secret"
           eq_refl eq_refl eq_refl).
Defined.

(** X12 at a ConfigMap that comes and goes before [start()] has reached
    line 24. *)
Lemma added_then_deleted_witness :
  let l2 := exec [ConfigMapEvent ADDED cm_12345; ConfigMapEvent DELETED cm_12345]
              (new_Loop (∅ : Store)) in
  passes l2 = passes (new_Loop (∅ : Store)) ∧
  inflight l2 = inflight (new_Loop (∅ : Store)) ∧
  isReady (st l2) = false ∧ isPendingSync (st l2) = true ∧
  cache_get (cm_key cm_12345) (cache (st l2)) = Some (mkEntry None None) ∧
  ∃ st3, Async.syncEntry (cm_key cm_12345) (st l2) = Async.Fin (Normal ()) st3 ∧
    syncEntry (cm_key cm_12345) (st l2) = (Normal (), st3) ∧
    cache st3 = cache (st (new_Loop (∅ : Store))) ∧
    cluster st3 = cluster (st (new_Loop (∅ : Store))) ∧
    trace st3 = trace (st (new_Loop (∅ : Store))) ++
      [LogInfo ("ConfigMap " +:+ show (cm_name cm_12345) +:+ " ADDED");
       LogInfo ("ConfigMap " +:+ show (cm_name cm_12345) +:+ " DELETED")].
Proof.
  exact (configmap_added_then_deleted_is_forgotten cm_12345 (new_Loop (∅ : Store))
           eq_refl eq_refl).
Defined.

(** X5 at an orphan Secret that the cluster still has. *)
Lemma orphan_delete_witness :
  trace (syncEntry orphan_key st_orphan).2
    = [LogInfo "ConfigMap for default/orphan-secret not found. Deleting secret.";
       DeleteSecret (Some "orphan-secret") (Some "default")] ∧
  cache (syncEntry orphan_key st_orphan).2 = [].
Proof.
  pose proof (orphan_is_deleted_by_its_own_name orphan_key orphan
                {| name := Some "orphan-secret"; namespace := Some "default";
                   resourceVersion := None;
                   labels := Some {[ L_source_configmap := "missing-config";
                                     L_source_configmap_version := "1" ]} |}
                st_orphan eq_refl eq_refl) as (Htr & Hc & _).
  split; [exact Htr|exact Hc].
Defined.

(** X7 at the Secret made for the ConfigMap [my-config]. *)
Lemma returned_secret_witness :
  converged (mkEntry (Some (value_of key_secret out_create)) (Some cm_12345)).
Proof.
  refine (proj1 (returned_secret_is_converged cm_12345 None st_fresh
                   (value_of key_secret out_create) out_create.2 fake_keeps_labels _)).
  vm_compute. reflexivity.
Defined.

(** X13 at a pass that creates the one Secret that is missing. *)
Lemma clean_pass_witness :
  Async._syncSecrets (Async.uninterrupted Async._syncSecrets st_new).2
  = Async.Fin (Normal ()) (Async.uninterrupted Async._syncSecrets st_new).2.
Proof.
  refine (proj2 (clean_pass_reaches_a_fixed_point st_new
                   (Async.uninterrupted Async._syncSecrets st_new).2
                   fake_keeps_labels _ _)); vm_compute; reflexivity.
Defined.

(** X15 at two calls while the first pass is in flight. *)
Lemma recorded_request_witness :
  let l := exec two_calls (new_Loop (∅ : Store)) in
  (isReady (st l) = false ∧ ∃ r, inflight l = [r]) ∨
  (isReady (st l) = true ∧ 0 < timeouts (st l)).
Proof.
  refine (recorded_request_is_never_lost (∅ : Store) two_calls _ _); vm_compute; reflexivity.
Defined.

(** X16 at two calls while the first pass is in flight. *)
Lemma scheduler_rest_witness :
  let l := exec two_calls (new_Loop (∅ : Store)) in
  let l' := exec (drain (S (timeouts (st l)))) l in
  quiet l' ∧ passes l' = passes l + owed l.
Proof.
  refine (scheduler_comes_to_rest (∅ : Store) two_calls _). vm_compute. reflexivity.
Defined.

(** X18 at a watch library that rejects the first registration. *)
Lemma rejected_watch_witness :
  let p := pexec (Watcher0 := watcher_down) [Main; Resume] (new_Process (∅ : Store)) in
  match exitCode p with
  | None => console p = []
  | Some c => c = 1 ∧ ∃ e, console p = [e] ∧ ∃ r, r ∈ registrations p ∧ r.2 = Throw e
  end.
Proof.
  exact (only_a_rejected_watch_ends_the_process (Watcher0 := watcher_down) (∅ : Store)
           [Main; Resume] eq_refl).
Defined.

(** X20 at a ConfigMap whose Secret does not exist yet. *)
Lemma healthy_pass_witness :
  ∃ st', _syncSecrets st_new = (Normal (), st') ∧
    last (trace (syncSecrets_settle (Normal ()) st')) = Some (LogInfo "Secrets synced").
Proof.
  destruct (proj2 (pass_is_rejected_only_by_an_unhealthy_entry st_new) fake_keeps_labels)
    as (st' & Hrun & Hlast & _).
  - intros k e. simpl. case_decide; [|done]. by intros [= <-].
  - by exists st'.
Defined.

(** An orphan ends the pass, and with a [TypeError]. *)
Example scenario_orphan_rejects :
  (_syncSecrets st_orphan).1 = Throw TypeError.
Proof. vm_compute. done. Qed.

(** The watch delivers the next version of the ConfigMap while the first
    pass awaits its create call: the Secret that comes back goes into the
    entry object that the callback has replaced.  The pass ends without an
    error, and the entry of the cache has no Secret. *)
Example scenario_modified_during_create :
  let l := exec [Answer; ConfigMapEvent MODIFIED cm_67890; Settle] loop_first_pass in
  (e ← cache_get app_key (cache (st l)); Some (secret e, configMap e ≫= cm_version))
    = Some (None, Some "67890") ∧
  count is_create (trace (st l)) = 1 ∧
  existsb is_error_log (trace (st l)) = false ∧
  last (trace (st l)) = Some (LogInfo "Secrets synced").
Proof. vm_compute. done. Qed.

(** *** Startup, run *)

(** Both watches are accepted: the first pass starts when the 5 s are over. *)
Example scenario_startup :
  let p := pexec (Watcher0 := watcher_up) (startup ++ [Inner Settle])
             (new_Process (∅ : Store)) in
  trace (st (loop p))
    = [LogInfo "Manager created"; LogInfo "Starting ConfigMap watch";
       LogInfo "Starting Secret watch"; LogInfo "Secrets synced"] ∧
  registrations p
    = [("/api/v1/configmaps", "config.s24.dev/target-secret", Normal ());
       ("/api/v1/secrets", "config.s24.dev/source-configmap", Normal ())] ∧
  passes (loop p) = 1 ∧ interval p = true ∧ exitCode p = None.
Proof. vm_compute. done. Qed.

(** The first registration is rejected: the process prints the reason and
    ends with code 1; no pass has run. *)
Example scenario_watch_rejected :
  let p := pexec (Watcher0 := watcher_down) (startup ++ [Tick])
             (new_Process (∅ : Store)) in
  exitCode p = Some 1 ∧ console p = [Rejected "ECONNREFUSED"] ∧
  passes (loop p) = 0 ∧ registrations p
    = [("/api/v1/configmaps", "config.s24.dev/target-secret",
        Throw (Rejected "ECONNREFUSED"))].
Proof. vm_compute. done. Qed.

(** The Secret watch reports an error: it is logged, and one second later the
    watch is registered again; the cache is as it was. *)
Example scenario_watch_error :
  let q := pexec (Watcher0 := watcher_up)
             (startup ++ [Inner (ConfigMapEvent ADDED cm_nokey); Inner Settle])
             (new_Process (∅ : Store)) in
  let p := pexec (Watcher0 := watcher_up) [WatchError Secrets (Rejected "closed"); Retry] q in
  drop (length (trace (st (loop q)))) (trace (st (loop p)))
    = [LogError (Some (Rejected "closed")) "Failed to watch Secrets";
       LogInfo "Starting Secret watch"] ∧
  length (registrations p) = 3 ∧ retries p = [] ∧
  cache (st (loop p)) = cache (st (loop q)) ∧ passes (loop p) = passes (loop q).
Proof. vm_compute. done. Qed.
